(** * The compute-dispatch runtime of gioui.org/cpu (runtime.c), embedded in Rocq

    The development follows [src/vendor/gioui.org/cpu/runtime.c]:
    the coroutine queue (a growable circular buffer), the allocation
    helpers, [prepare_dispatch] and [dispatch_thread].  It also covers the
    frame allocator of [src/vendor/gioui.org/shader/piet/support.c] and the
    memory allocator of the kernels, [src/vendor/gioui.org/shader/piet/mem.h].

    Conventions of the embedding.
    - C integers are values of [Z].  Unsigned arithmetic wraps ([u32],
      [usize]); conversions to [int] reduce modulo 2^32 into the signed
      range ([s32]), as gcc and clang define them; signed arithmetic that
      leaves the range of [int] is undefined in C and is a [Fault].
    - Every access outside an allocation, a failed [assert] and a call
      through a null function pointer is a [Fault] as well.
    - Loops that the source does not bound take fuel. *)

From Stdlib Require Import ZArith List Lia Bool Permutation Sorted.
From Stdlib Require Import Init.Byte.
From stdpp Require Import base tactics option list gmap.
Import ListNotations.

Local Open Scope Z_scope.

(** * Part I: the model *)

(** ** Outcomes of a C computation *)

Inductive fault : Type :=
  | AssertFailed
  | NullPointer
  | OutOfBounds
  | InvalidFree
  | IntOverflow
  | DivByZero.

Inductive outcome (A : Type) : Type :=
  | Done (a : A)
  | Fault (f : fault)
  | OutOfFuel.

Arguments Done {A} a.
Arguments Fault {A} f.
Arguments OutOfFuel {A}.

Definition bind {A B : Type} (m : outcome A) (k : A -> outcome B) : outcome B :=
  match m with
  | Done a => k a
  | Fault f => Fault f
  | OutOfFuel => OutOfFuel
  end.

Notation "x <- m ;; k" := (bind m (fun x => k))
  (at level 100, m at next level, right associativity).

Definition assert (b : bool) : outcome unit :=
  if b then Done tt else Fault AssertFailed.

(** ** Machine integers *)

Definition INT_MAX : Z := 2^31 - 1.
Definition INT_MIN : Z := - 2^31.

(** [unsigned int] and [uint32_t]. *)
Definition u32 (z : Z) : Z := z mod 2^32.

(** [size_t] of the 64-bit targets (amd64, arm64). *)
Definition usize (z : Z) : Z := z mod 2^64.

(** Conversion to [int]. *)
Definition s32 (z : Z) : Z := (z + 2^31) mod 2^32 - 2^31.

Definition in_int (z : Z) : bool := (INT_MIN <=? z) && (z <=? INT_MAX).

Definition int_check (z : Z) : outcome Z :=
  if in_int z then Done z else Fault IntOverflow.

Definition int_add (x y : Z) : outcome Z := int_check (x + y).
Definition int_sub (x y : Z) : outcome Z := int_check (x - y).
Definition int_mul (x y : Z) : outcome Z := int_check (x * y).

(** C division truncates toward zero. *)
Definition int_div (x y : Z) : outcome Z :=
  if y =? 0 then Fault DivByZero else int_check (Z.quot x y).

(** ** The coroutine queue *)

(** [typedef void * coroutine]: a handle is an address. *)
Definition coroutine : Type := Z.

Definition NULL : Z := 0.

Record coroutines : Type := mk_coroutines {
  routines : list coroutine;
  start : Z;
  end_ : Z;
  cap : Z
}.

(** [struct coroutines clr = { 0 }]. *)
Definition coroutines_zero : coroutines :=
  {| routines := []; start := 0; end_ := 0; cap := 0 |}.

(** [realloc] to [n] elements: the old elements are kept, the new tail is
    uninitialised (any value; [NULL] here). *)
Definition realloc (buf : list coroutine) (n : Z) : list coroutine :=
  take (Z.to_nat n) buf ++ replicate (Z.to_nat n - length buf)%nat NULL.

(** [memmove(&buf[dst], &buf[src], n * sizeof(coroutine))]. *)
Definition memmove (buf : list coroutine) (dst src n : Z) : outcome (list coroutine) :=
  if n =? 0 then Done buf
  else if (dst + n <=? Z.of_nat (length buf)) && (src + n <=? Z.of_nat (length buf)) then
    Done (take (Z.to_nat dst) buf
          ++ take (Z.to_nat n) (drop (Z.to_nat src) buf)
          ++ drop (Z.to_nat (dst + n)) buf)
  else Fault OutOfBounds.

(** [buf[i] = r]. *)
Definition store (buf : list coroutine) (i : Z) (r : coroutine) : outcome (list coroutine) :=
  if (0 <=? i) && (i <? Z.of_nat (length buf)) then Done (<[Z.to_nat i := r]> buf)
  else Fault OutOfBounds.

(** [buf[i]]. *)
Definition load (buf : list coroutine) (i : Z) : outcome coroutine :=
  if 0 <=? i then
    match buf !! Z.to_nat i with
    | Some r => Done r
    | None => Fault OutOfBounds
    end
  else Fault OutOfBounds.

Definition coroutines_push (q : coroutines) (r : coroutine) : outcome coroutines :=
  let next := u32 (end_ q + 1) in
  let next := if cap q <=? next then 0 else next in
  if next =? start q then
    let newcap := u32 (cap q * 2) in
    let newcap := if newcap <? 10 then 10 else newcap in
    let buf := realloc (routines q) newcap in
    moved <-
      (if end_ q <? start q then
         let nelems := end_ q in
         let max := u32 (newcap - cap q) in
         _ <- assert (nelems <=? max) ;;
         buf <- memmove buf (cap q) 0 nelems ;;
         Done (buf, u32 (end_ q + cap q))
       else Done (buf, end_ q)) ;;
    let '(buf, e) := moved in
    let next := u32 (e + 1) mod newcap in
    buf <- store buf e r ;;
    Done {| routines := buf; start := start q; end_ := next; cap := newcap |}
  else
    buf <- store (routines q) (end_ q) r ;;
    Done {| routines := buf; start := start q; end_ := next; cap := cap q |}.

(** The result is [None] where the source returns 0 and leaves [*r] alone. *)
Definition coroutines_pop (q : coroutines) : outcome (option coroutine * coroutines) :=
  if start q =? end_ q then Done (None, q)
  else
    r <- load (routines q) (start q) ;;
    if cap q =? 0 then Fault DivByZero
    else
      Done (Some r, {| routines := routines q;
                       start := u32 (start q + 1) mod cap q;
                       end_ := end_ q;
                       cap := cap q |}).

(** *** Abstraction of the circular buffer *)

(** Number of queued handles. *)
Definition count (q : coroutines) : Z :=
  if start q <=? end_ q then end_ q - start q else end_ q - start q + cap q.

(** Index in the buffer of the [k]-th oldest handle. *)
Definition slot (q : coroutines) (k : Z) : Z :=
  if start q + k <? cap q then start q + k else start q + k - cap q.

Definition at_slot (q : coroutines) (k : Z) : coroutine :=
  nth (Z.to_nat (slot q k)) (routines q) NULL.

(** The queued handles, oldest first. *)
Definition contents (q : coroutines) : list coroutine :=
  map (fun k => at_slot q (Z.of_nat k)) (seq 0 (Z.to_nat (count q))).

(** Representation invariant. *)
Record queue_ok (q : coroutines) : Prop := {
  ok_buf : Z.of_nat (length (routines q)) = cap q;
  ok_cap : cap q < 2^32;
  ok_idx : (cap q = 0 /\ start q = 0 /\ end_ q = 0)
           \/ (0 <= start q < cap q /\ 0 <= end_ q < cap q)
}.

(** ** Runs of queue operations *)

Inductive op : Type :=
  | Push (r : coroutine)
  | Pop.

(** A run on the circular buffer; the result lists what each pop returned. *)
Fixpoint run (ops : list op) (q : coroutines)
  : outcome (list (option coroutine) * coroutines) :=
  match ops with
  | [] => Done ([], q)
  | Push r :: ops => q <- coroutines_push q r ;; run ops q
  | Pop :: ops =>
      p <- coroutines_pop q ;;
      res <- run ops (snd p) ;;
      Done (fst p :: fst res, snd res)
  end.

(** The abstract queue of the specification: a list, oldest handle first. *)
Definition fifo_push (l : list coroutine) (r : coroutine) : list coroutine :=
  l ++ [r].

Definition fifo_pop (l : list coroutine) : option coroutine * list coroutine :=
  match l with
  | [] => (None, [])
  | x :: l => (Some x, l)
  end.

Fixpoint fifo_run (ops : list op) (l : list coroutine)
  : list (option coroutine) * list coroutine :=
  match ops with
  | [] => ([], l)
  | Push r :: ops => fifo_run ops (fifo_push l r)
  | Pop :: ops =>
      let p := fifo_pop l in
      let res := fifo_run ops (snd p) in
      (fst p :: fst res, snd res)
  end.

(** Largest number of handles queued at any point of a run. *)
Fixpoint fifo_peak (ops : list op) (l : list coroutine) : nat :=
  match ops with
  | [] => length l
  | Push r :: ops => Nat.max (length l) (fifo_peak ops (fifo_push l r))
  | Pop :: ops => Nat.max (length l) (fifo_peak ops (snd (fifo_pop l)))
  end.

(** Number of pushes of a run, and the handles its pops returned. *)
Fixpoint pushes (ops : list op) : nat :=
  match ops with
  | [] => 0
  | Push _ :: ops => S (pushes ops)
  | Pop :: ops => pushes ops
  end.

Fixpoint popped (outs : list (option coroutine)) : list coroutine :=
  match outs with
  | [] => []
  | Some r :: outs => r :: popped outs
  | None :: outs => popped outs
  end.

(** States the queue can be in: those produced from the zero-initialised
    queue by pushes and pops. *)
Inductive reachable : coroutines -> Prop :=
  | reach_zero : reachable coroutines_zero
  | reach_push q r q' :
      reachable q -> coroutines_push q r = Done q' -> reachable q'
  | reach_pop q x q' :
      reachable q -> coroutines_pop q = Done (x, q') -> reachable q'.

Definition queue_after_wrap : coroutines :=
  {| routines := [11; 2; 3; 4; 5; 6; 7; 8; 9; 10; 11; 12; 0; 0; 0; 0; 0; 0; 0; 0];
     start := 2; end_ := 12; cap := 20 |}.

Definition wrapping_run : list op :=
  map Push [1; 2; 3; 4; 5; 6; 7; 8; 9] ++ [Pop; Pop] ++ map Push [10; 11; 12].

(** ** The C heap *)

(** Live allocations by base address, and the next unused address.  Memory
    is unbounded: an allocation always succeeds. *)
Record heap : Type := mk_heap {
  blocks : gmap Z (list Byte.byte);
  brk : Z
}.

Definition heap_empty : heap := {| blocks := ∅; brk := 0 |}.

(** [posix_memalign(&ptr, alignment, size)]: the block starts at the first
    multiple of [alignment] past the allocations made so far; its bytes are
    uninitialised (any value; zero here).  The result is the return code
    and [ptr]. *)
Definition posix_memalign (h : heap) (alignment size : Z) : Z * Z * heap :=
  let p := (Z.max (brk h) 0 / alignment + 1) * alignment in
  (0, p, {| blocks := <[p := replicate (Z.to_nat size) Byte.x00]> (blocks h);
            brk := p + size |}).

Definition malloc_align (h : heap) (alignment size : Z) : outcome (Z * heap) :=
  let '(ret, ptr, h) := posix_memalign h alignment size in
  _ <- assert (ret =? 0) ;;
  Done (ptr, h).

Definition free (h : heap) (p : Z) : outcome heap :=
  if p =? NULL then Done h
  else match blocks h !! p with
       | Some _ => Done {| blocks := delete p (blocks h); brk := brk h |}
       | None => Fault InvalidFree
       end.

(** [memcpy(dst, src, n)], [src] being the bytes readable at the source. *)
Definition memcpy (h : heap) (dst : Z) (src : list Byte.byte) (n : Z) : outcome heap :=
  if n =? 0 then Done h
  else if dst =? NULL then Fault NullPointer
  else match blocks h !! dst with
       | None => Fault OutOfBounds
       | Some bs =>
           if (n <=? Z.of_nat (length bs)) && (n <=? Z.of_nat (length src)) then
             Done {| blocks := <[dst := take (Z.to_nat n) src ++ drop (Z.to_nat n) bs]>
                                 (blocks h);
                     brk := brk h |}
           else Fault OutOfBounds
       end.

(** ** abi.h *)

Definition REQUIRED_MEMORY_ALIGNMENT : Z := 16.
Definition SIMD_WIDTH : Z := 4.

(** A C array of four elements ([uint4], [descriptor_sets]). *)
Record arr4 (A : Type) : Type := Arr4 { at0 : A; at1 : A; at2 : A; at3 : A }.

Arguments Arr4 {A} at0 at1 at2 at3.
Arguments at0 {A} a.
Arguments at1 {A} a.
Arguments at2 {A} a.
Arguments at3 {A} a.

Definition set0 {A : Type} (a : arr4 A) (v : A) : arr4 A :=
  {| at0 := v; at1 := at1 a; at2 := at2 a; at3 := at3 a |}.
Definition set1 {A : Type} (a : arr4 A) (v : A) : arr4 A :=
  {| at0 := at0 a; at1 := v; at2 := at2 a; at3 := at3 a |}.
Definition set2 {A : Type} (a : arr4 A) (v : A) : arr4 A :=
  {| at0 := at0 a; at1 := at1 a; at2 := v; at3 := at3 a |}.

Record image_descriptor : Type := mk_image_descriptor {
  ptr : Z;
  width : Z;
  height : Z;
  depth : Z;
  row_pitch_bytes : Z;
  slice_pitch_bytes : Z;
  sample_pitch_bytes : Z;
  sample_count : Z;
  size_in_bytes : Z;
  stencil_ptr : Z;
  stencil_row_pitch_bytes : Z;
  stencil_slice_pitch_bytes : Z;
  stencil_sample_pitch_bytes : Z;
  memoryOwner : Z
}.

Record program_data : Type := mk_program_data {
  descriptor_sets : arr4 Z;
  descriptor_dynamic_offsets : list Z;
  num_workgroups : arr4 Z;
  workgroup_size : arr4 Z;
  invocations_per_subgroup : Z;
  subgroups_per_workgroup : Z;
  invocations_per_workgroup : Z;
  push_constants : list Byte.byte;
  constants : Z
}.

Definition program_data_zero : program_data :=
  {| descriptor_sets := Arr4 NULL NULL NULL NULL;
     descriptor_dynamic_offsets := replicate 12 0;
     num_workgroups := Arr4 0 0 0 0;
     workgroup_size := Arr4 0 0 0 0;
     invocations_per_subgroup := 0;
     subgroups_per_workgroup := 0;
     invocations_per_workgroup := 0;
     push_constants := replicate 128 Byte.x00;
     constants := NULL |}.

(** ** Image allocation *)

Definition alloc_image_rgba (h : heap) (width height : Z)
  : outcome (heap * image_descriptor) :=
  wh <- int_mul width height ;;
  wh4 <- int_mul wh 4 ;;
  let size := usize wh4 in
  let size := Z.land (usize (usize (size + 16) - 1)) (usize (Z.lnot (16 - 1))) in
  a <- malloc_align h REQUIRED_MEMORY_ALIGNMENT size ;;
  let storage := fst a in
  row <- int_mul width 4 ;;
  Done (snd a,
        {| ptr := storage;
           width := width;
           height := height;
           depth := 1;
           row_pitch_bytes := row;
           slice_pitch_bytes := s32 size;
           sample_pitch_bytes := s32 size;
           sample_count := 1;
           size_in_bytes := s32 size;
           stencil_ptr := NULL;
           stencil_row_pitch_bytes := 0;
           stencil_slice_pitch_bytes := 0;
           stencil_sample_pitch_bytes := 0;
           memoryOwner := NULL |}).

(** ** Programs, dispatch contexts and thread contexts *)

(** Calls of the program's entry points, in the order they are made.
    [EvBegin] records the workgroup coordinates, the workgroup memory, the
    first subgroup, the subgroup count and the handle returned. *)
Inductive event : Type :=
  | EvBegin (x y z memory first_subgroup subgroup_count : Z) (r : coroutine)
  | EvAwait (r : coroutine) (running : bool)
  | EvDestroy (r : coroutine).

Section Program.

(** The state the compiled program works on; the entry points are
    functions of it. *)
Context {W : Type}.

Definition routine_begin : Type :=
  program_data -> Z -> Z -> Z -> Z -> Z -> Z -> W -> coroutine * W.

(** The [yield_result] that [await] stores is never read by the runtime
    and is left out. *)
Definition routine_await : Type := coroutine -> W -> bool * W.

Definition routine_destroy : Type := coroutine -> W -> W.

Record program_info : Type := mk_program_info {
  min_memory_size : Z;
  info_has_cbarriers : bool;
  info_desc_set_size : Z;
  workgroup_size_x : Z;
  workgroup_size_y : Z;
  workgroup_size_z : Z;
  info_begin : option routine_begin;
  info_await : option routine_await;
  info_destroy : option routine_destroy
}.

Record dispatch_context : Type := mk_dispatch_context {
  descriptor_set : Z;
  desc_set_size : Z;
  nthreads : Z;
  has_cbarriers : bool;
  memory_size : Z;
  begin : option routine_begin;
  await : option routine_await;
  destroy : option routine_destroy;
  data : program_data
}.

Record thread_context : Type := mk_thread_context {
  thread_routines : coroutines;
  thread_memory_size : Z;
  thread_memory : Z
}.

(** [alloc_dispatch_context]: the context is zero-initialised. *)
Definition alloc_dispatch_context : dispatch_context :=
  {| descriptor_set := NULL;
     desc_set_size := 0;
     nthreads := 0;
     has_cbarriers := false;
     memory_size := 0;
     begin := None;
     await := None;
     destroy := None;
     data := program_data_zero |}.

Definition free_dispatch_context (h : heap) (c : dispatch_context)
  : outcome (heap * dispatch_context) :=
  if descriptor_set c =? NULL then Done (h, c)
  else
    h <- free h (descriptor_set c) ;;
    Done (h, {| descriptor_set := NULL;
                desc_set_size := desc_set_size c;
                nthreads := nthreads c;
                has_cbarriers := has_cbarriers c;
                memory_size := memory_size c;
                begin := begin c;
                await := await c;
                destroy := destroy c;
                data := data c |}).

Definition alloc_thread_context : thread_context :=
  {| thread_routines := coroutines_zero;
     thread_memory_size := 0;
     thread_memory := NULL |}.

(** The first statement of [prepare_dispatch]: the storage of the
    descriptor set is replaced when the program needs more.  The result is
    the heap, [ctx->descriptor_set] and [ctx->desc_set_size]. *)
Definition desc_set_reserve (h : heap) (ctx : dispatch_context)
    (info : program_info) : outcome (heap * Z * Z) :=
  if usize (desc_set_size ctx) <? info_desc_set_size info then
    h <- (if descriptor_set ctx =? NULL then Done h
          else free h (descriptor_set ctx)) ;;
    a <- malloc_align h 16 (info_desc_set_size info) ;;
    Done (snd a, fst a, s32 (info_desc_set_size info))
  else Done (h, descriptor_set ctx, desc_set_size ctx).

(** [invocations_per_workgroup] and [subgroups_per_workgroup]. *)
Definition subgroup_counts (info : program_info) : outcome (Z * Z) :=
  let invocations_per_subgroup := SIMD_WIDTH in
  xy <- int_mul (workgroup_size_x info) (workgroup_size_y info) ;;
  invocations_per_workgroup <- int_mul xy (workgroup_size_z info) ;;
  t <- int_add invocations_per_workgroup invocations_per_subgroup ;;
  t <- int_sub t 1 ;;
  subgroups_per_workgroup <- int_div t invocations_per_subgroup ;;
  Done (invocations_per_workgroup, subgroups_per_workgroup).

Definition prepare_dispatch (h : heap) (ctx : dispatch_context) (nthreads : Z)
    (info : program_info) (desc_set : list Byte.byte)
    (ngroupx ngroupy ngroupz : Z) : outcome (heap * dispatch_context) :=
  grown <- desc_set_reserve h ctx info ;;
  let '(h, ctx_descriptor_set, ctx_desc_set_size) := grown in
  h <- memcpy h ctx_descriptor_set desc_set (info_desc_set_size info) ;;
  counts <- subgroup_counts info ;;
  let '(invocations_per_workgroup, subgroups_per_workgroup) := counts in
  let invocations_per_subgroup := SIMD_WIDTH in
  let d := data ctx in
  Done (h,
        {| descriptor_set := ctx_descriptor_set;
           desc_set_size := ctx_desc_set_size;
           nthreads := nthreads;
           has_cbarriers := info_has_cbarriers info;
           memory_size := min_memory_size info;
           begin := info_begin info;
           await := info_await info;
           destroy := info_destroy info;
           data :=
             {| descriptor_sets := set0 (descriptor_sets d) ctx_descriptor_set;
                descriptor_dynamic_offsets := descriptor_dynamic_offsets d;
                num_workgroups :=
                  set2 (set1 (set0 (num_workgroups d) (u32 ngroupx)) (u32 ngroupy))
                       (u32 ngroupz);
                workgroup_size :=
                  set2 (set1 (set0 (workgroup_size d) (u32 (workgroup_size_x info)))
                             (u32 (workgroup_size_y info)))
                       (u32 (workgroup_size_z info));
                invocations_per_subgroup := u32 invocations_per_subgroup;
                subgroups_per_workgroup := u32 subgroups_per_workgroup;
                invocations_per_workgroup := u32 invocations_per_workgroup;
                push_constants := push_constants d;
                constants := constants d |} |}).

(** The state the loops of [dispatch_thread] work on: the thread's queue,
    the program's state and the calls made so far. *)
Record run_state : Type := mk_run_state {
  rs_routines : coroutines;
  rs_world : W;
  rs_trace : list event
}.

(** A call through a function pointer. *)
Definition call {A : Type} (f : option A) : outcome A :=
  match f with
  | Some f => Done f
  | None => Fault NullPointer
  end.

(** [coroutine r = ctx->begin(data, x, y, z, memory, first, count);
    coroutines_push(&thread->routines, r);] *)
Definition spawn (ctx : dispatch_context) (memory x y z first count : Z)
    (st : run_state) : outcome run_state :=
  f <- call (begin ctx) ;;
  let '(r, w) := f (data ctx) x y z memory first count (rs_world st) in
  q <- coroutines_push (rs_routines st) r ;;
  Done {| rs_routines := q;
          rs_world := w;
          rs_trace := rs_trace st ++ [EvBegin x y z memory first count r] |}.

(** [for (int subgroup = 0; subgroup < data->subgroups_per_workgroup; subgroup++)] *)
Fixpoint spawn_subgroups (fuel : nat) (ctx : dispatch_context)
    (memory x y z subgroup : Z) (st : run_state) : outcome run_state :=
  match fuel with
  | O => OutOfFuel
  | S fuel =>
      if u32 subgroup <? subgroups_per_workgroup (data ctx) then
        st <- spawn ctx memory x y z subgroup 1 st ;;
        subgroup <- int_add subgroup 1 ;;
        spawn_subgroups fuel ctx memory x y z subgroup st
      else Done st
  end.

(** [while (coroutines_pop(&thread->routines, &r)) ...] *)
Fixpoint drain (fuel : nat) (ctx : dispatch_context) (st : run_state)
  : outcome run_state :=
  match fuel with
  | O => OutOfFuel
  | S fuel =>
      p <- coroutines_pop (rs_routines st) ;;
      match fst p with
      | None =>
          Done {| rs_routines := snd p;
                  rs_world := rs_world st;
                  rs_trace := rs_trace st |}
      | Some r =>
          f <- call (await ctx) ;;
          let '(running, w) := f r (rs_world st) in
          if running then
            q <- coroutines_push (snd p) r ;;
            drain fuel ctx {| rs_routines := q;
                              rs_world := w;
                              rs_trace := rs_trace st ++ [EvAwait r true] |}
          else
            g <- call (destroy ctx) ;;
            drain fuel ctx {| rs_routines := snd p;
                              rs_world := g r w;
                              rs_trace := rs_trace st
                                          ++ [EvAwait r false; EvDestroy r] |}
      end
  end.

(** The coordinates of workgroup [i] ([group_id]) in a grid with
    [sx * sy] workgroups per layer. *)
Definition group_coords (sx sy i : Z) : outcome (Z * Z * Z) :=
  let group_id := i in
  sxy <- int_mul sx sy ;;
  z <- int_div group_id sxy ;;
  zsx <- int_mul z sx ;;
  zsxsy <- int_mul zsx sy ;;
  group_id <- int_sub group_id zsxsy ;;
  y <- int_div group_id sx ;;
  ysx <- int_mul y sx ;;
  group_id <- int_sub group_id ysx ;;
  let x := group_id in
  Done (x, y, z).

(** The body of the loop over workgroups. *)
Definition dispatch_group (fuel : nat) (ctx : dispatch_context)
    (memory sx sy i : Z) (st : run_state) : outcome run_state :=
  c <- group_coords sx sy i ;;
  let '(x, y, z) := c in
  st <-
    (if has_cbarriers ctx then spawn_subgroups fuel ctx memory x y z 0 st
     else spawn ctx memory x y z 0 (s32 (subgroups_per_workgroup (data ctx))) st) ;;
  drain fuel ctx st.

(** [for (int i = thread_idx; i < ngroups; i += ctx->nthreads)]; [n]
    bounds the number of iterations, [fuel] the inner loops. *)
Fixpoint groups_loop (n fuel : nat) (ctx : dispatch_context)
    (memory sx sy ngroups i : Z) (st : run_state) : outcome run_state :=
  match n with
  | O => OutOfFuel
  | S n =>
      if i <? ngroups then
        st <- dispatch_group fuel ctx memory sx sy i st ;;
        i <- int_add i (nthreads ctx) ;;
        groups_loop n fuel ctx memory sx sy ngroups i st
      else Done st
  end.

(** The first statement of [dispatch_thread]: the thread's scratch
    memory is replaced when the dispatch needs more. *)
Definition thread_memory_reserve (h : heap) (ctx : dispatch_context)
    (thread : thread_context) : outcome (heap * thread_context) :=
  if thread_memory_size thread <? memory_size ctx then
    h <- (if thread_memory thread =? NULL then Done h
          else free h (thread_memory thread)) ;;
    a <- malloc_align h 16 (memory_size ctx) ;;
    Done (snd a, {| thread_routines := thread_routines thread;
                    thread_memory_size := memory_size ctx;
                    thread_memory := fst a |})
  else Done (h, thread).

Definition dispatch_thread (fuel : nat) (h : heap) (ctx : dispatch_context)
    (thread_idx : Z) (thread : thread_context) (w : W)
  : outcome (heap * thread_context * W * list event) :=
  reserved <- thread_memory_reserve h ctx thread ;;
  let '(h, thread) := reserved in
  let memory := thread_memory thread in
  let d := data ctx in
  let sx := s32 (at0 (num_workgroups d)) in
  let sy := s32 (at1 (num_workgroups d)) in
  let sz := s32 (at2 (num_workgroups d)) in
  sxy <- int_mul sx sy ;;
  ngroups <- int_mul sxy sz ;;
  st <- groups_loop fuel fuel ctx memory sx sy ngroups thread_idx
          {| rs_routines := thread_routines thread;
             rs_world := w;
             rs_trace := [] |} ;;
  Done (h,
        {| thread_routines := rs_routines st;
           thread_memory_size := thread_memory_size thread;
           thread_memory := thread_memory thread |},
        rs_world st,
        rs_trace st).

End Program.

Arguments program_info W : clear implicits.
Arguments dispatch_context W : clear implicits.
Arguments run_state W : clear implicits.
Arguments routine_begin W : clear implicits.
Arguments routine_await W : clear implicits.
Arguments routine_destroy W : clear implicits.

(** ** A test program *)

(** The program state records the last handle handed out and, for each
    handle, the suspensions it has left.  [begin] hands out the address 8
    bytes past the last one and gives the coroutine of subgroup [k] its
    [k + 1] suspensions; [await] uses up one suspension of its coroutine and
    reports "finished" when none is left. *)
Record test_world : Type := mk_test_world {
  next_handle : Z;
  left : coroutine -> nat
}.

Definition test_world_zero : test_world :=
  {| next_handle := 4096; left := fun _ => O |}.

Definition test_begin : routine_begin test_world :=
  fun _ _ _ _ _ first _ w =>
    let r := next_handle w + 8 in
    (r, {| next_handle := r;
           left := fun r' => if r' =? r then S (Z.to_nat first) else left w r' |}).

Definition test_await : routine_await test_world :=
  fun r w =>
    match left w r with
    | O => (false, w)
    | S n => (true, {| next_handle := next_handle w;
                       left := fun r' => if r' =? r then n else left w r' |})
    end.

Definition test_destroy : routine_destroy test_world := fun _ w => w.

Definition test_info (cbarriers : bool) (x y z : Z) : program_info test_world :=
  {| min_memory_size := 32;
     info_has_cbarriers := cbarriers;
     info_desc_set_size := 4;
     workgroup_size_x := x;
     workgroup_size_y := y;
     workgroup_size_z := z;
     info_begin := Some test_begin;
     info_await := Some test_await;
     info_destroy := Some test_destroy |}.

Definition test_desc_set : list Byte.byte := [Byte.x01; Byte.x02; Byte.x03; Byte.x04].

(** Well-formed descriptor-set storage: the recorded capacity is the size
    of the live allocation that [descriptor_set] points to. *)
Definition storage_ok {W : Type} (h : heap) (ctx : dispatch_context W) : Prop :=
  0 <= desc_set_size ctx <= INT_MAX
  /\ ((descriptor_set ctx = NULL /\ desc_set_size ctx = 0)
      \/ (descriptor_set ctx <> NULL
          /\ exists bs, blocks h !! descriptor_set ctx = Some bs
                        /\ Z.of_nat (length bs) = desc_set_size ctx)).

(** Workgroup shapes whose invocation count can be computed in [int]. *)
Definition workgroup_fits {W : Type} (info : program_info W) : Prop :=
  0 <= workgroup_size_x info /\ 0 <= workgroup_size_y info
  /\ 0 <= workgroup_size_z info
  /\ workgroup_size_x info * workgroup_size_y info <= INT_MAX
  /\ workgroup_size_x info * workgroup_size_y info * workgroup_size_z info
       + SIMD_WIDTH <= INT_MAX.

(** What [prepare_dispatch] stores in the context, given the storage
    [p], its recorded size and the two counts. *)
Definition prepared {W : Type} (ctx : dispatch_context W) (nthreads : Z)
    (info : program_info W) (ngroupx ngroupy ngroupz : Z)
    (p size ipw spw : Z) : dispatch_context W :=
  {| descriptor_set := p;
     desc_set_size := size;
     nthreads := nthreads;
     has_cbarriers := info_has_cbarriers info;
     memory_size := min_memory_size info;
     begin := info_begin info;
     await := info_await info;
     destroy := info_destroy info;
     data :=
       {| descriptor_sets := set0 (descriptor_sets (data ctx)) p;
          descriptor_dynamic_offsets := descriptor_dynamic_offsets (data ctx);
          num_workgroups :=
            set2 (set1 (set0 (num_workgroups (data ctx)) (u32 ngroupx)) (u32 ngroupy))
                 (u32 ngroupz);
          workgroup_size :=
            set2 (set1 (set0 (workgroup_size (data ctx)) (u32 (workgroup_size_x info)))
                       (u32 (workgroup_size_y info)))
                 (u32 (workgroup_size_z info));
          invocations_per_subgroup := u32 SIMD_WIDTH;
          subgroups_per_workgroup := u32 spw;
          invocations_per_workgroup := u32 ipw;
          push_constants := push_constants (data ctx);
          constants := constants (data ctx) |} |}.

(** Two contexts, each with its heap, that differ at most in the address
    of the descriptor-set buffer: every scalar field, every entry point and
    every field of the program data is the same (slot 0 of
    [descriptor_sets], which holds the buffer's address, apart), slot 0 is
    bound to the context's own buffer, and the two buffers hold the same
    bytes. *)
Definition same_dispatch {W : Type} (s1 s2 : heap * dispatch_context W) : Prop :=
  let '(h1, c1) := s1 in
  let '(h2, c2) := s2 in
  desc_set_size c1 = desc_set_size c2
  /\ nthreads c1 = nthreads c2
  /\ has_cbarriers c1 = has_cbarriers c2
  /\ memory_size c1 = memory_size c2
  /\ begin c1 = begin c2
  /\ await c1 = await c2
  /\ destroy c1 = destroy c2
  /\ set0 (descriptor_sets (data c1)) NULL = set0 (descriptor_sets (data c2)) NULL
  /\ descriptor_dynamic_offsets (data c1) = descriptor_dynamic_offsets (data c2)
  /\ num_workgroups (data c1) = num_workgroups (data c2)
  /\ workgroup_size (data c1) = workgroup_size (data c2)
  /\ invocations_per_subgroup (data c1) = invocations_per_subgroup (data c2)
  /\ subgroups_per_workgroup (data c1) = subgroups_per_workgroup (data c2)
  /\ invocations_per_workgroup (data c1) = invocations_per_workgroup (data c2)
  /\ push_constants (data c1) = push_constants (data c2)
  /\ constants (data c1) = constants (data c2)
  /\ at0 (descriptor_sets (data c1)) = descriptor_set c1
  /\ at0 (descriptor_sets (data c2)) = descriptor_set c2
  /\ blocks h1 !! descriptor_set c1 = blocks h2 !! descriptor_set c2.

(** The invariant that links the two descriptor-set fields of a context:
    a positive recorded capacity comes with a buffer. *)
Definition desc_set_bound {W : Type} (ctx : dispatch_context W) : Prop :=
  0 < desc_set_size ctx -> descriptor_set ctx <> NULL.

(** *** Instances on concrete programs *)

Definition sized_info (n : Z) : program_info test_world :=
  {| min_memory_size := 32;
     info_has_cbarriers := false;
     info_desc_set_size := n;
     workgroup_size_x := 4;
     workgroup_size_y := 1;
     workgroup_size_z := 1;
     info_begin := Some test_begin;
     info_await := Some test_await;
     info_destroy := Some test_destroy |}.

Definition bytes_of (n : nat) : list Byte.byte := replicate n Byte.x2a.

(** ** Traces of entry-point calls *)

(** Handles returned by [begin]. *)
Fixpoint begun (tr : list event) : list coroutine :=
  match tr with
  | [] => []
  | EvBegin _ _ _ _ _ _ r :: tr => r :: begun tr
  | _ :: tr => begun tr
  end.

(** Handles passed to [destroy]. *)
Fixpoint destroyed (tr : list event) : list coroutine :=
  match tr with
  | [] => []
  | EvDestroy r :: tr => r :: destroyed tr
  | _ :: tr => destroyed tr
  end.

(** The arguments of the calls of [begin]: workgroup coordinates, first
    subgroup and subgroup count. *)
Fixpoint begin_args (tr : list event) : list (Z * Z * Z * Z * Z) :=
  match tr with
  | [] => []
  | EvBegin x y z _ first count _ :: tr => (x, y, z, first, count) :: begin_args tr
  | _ :: tr => begin_args tr
  end.

(** The workgroup memory passed to [begin] is [m]. *)
Definition begin_memory_is (m : Z) (e : event) : Prop :=
  match e with
  | EvBegin _ _ _ memory _ _ _ => memory = m
  | _ => True
  end.

(** [drained l tr]: [tr] is the round-robin retirement of the queued
    handles [l]: the oldest handle is awaited; still running, it goes to
    the back of the queue; finished, it is destroyed and gone. *)
Inductive drained : list coroutine -> list event -> Prop :=
  | drained_nil : drained [] []
  | drained_requeue r l tr :
      drained (l ++ [r]) tr -> drained (r :: l) (EvAwait r true :: tr)
  | drained_destroy r l tr :
      drained l tr -> drained (r :: l) (EvAwait r false :: EvDestroy r :: tr).

(** The workgroup indices that the loop of [dispatch_thread] visits from
    [i] on, with stride [T], below [n]; at most [k] of them. *)
Fixpoint strided (k : nat) (i T n : Z) : list Z :=
  match k with
  | O => []
  | S k => if i <? n then i :: strided k (i + T) T n else []
  end.

(** The workgroups of thread [t] among [T] threads, of [n] workgroups. *)
Definition thread_groups (t T n : Z) : list Z := strided (Z.to_nat n) t T n.

(** Workgroup [i] of a grid with [sx * sy] workgroups per layer. *)
Definition coords_of (sx sy i : Z) : Z * Z * Z :=
  (i mod sx, (i / sx) mod sy, i / (sx * sy)).

(** The calls of [begin] for one workgroup: one per subgroup with a
    subgroup count of 1 when the program has control barriers, a single
    one for all [spw] subgroups otherwise. *)
Definition expected_begins (cbarriers : bool) (spw : Z) (c : Z * Z * Z)
  : list (Z * Z * Z * Z * Z) :=
  let '(x, y, z) := c in
  if cbarriers then map (fun k => (x, y, z, k, 1)) (seqZ 0 spw)
  else [(x, y, z, 0, spw)].

(** Well-formed scratch memory of a thread context. *)
Definition scratch_ok (h : heap) (thread : thread_context) : Prop :=
  0 <= thread_memory_size thread
  /\ thread_memory thread mod 16 = 0
  /\ ((thread_memory thread = NULL /\ thread_memory_size thread = 0)
      \/ (thread_memory thread <> NULL
          /\ exists bs, blocks h !! thread_memory thread = Some bs
                        /\ Z.of_nat (length bs) = thread_memory_size thread)).

(** A program finishes when every coroutine has a budget of suspensions:
    in state [w], coroutine [r] reports "running" at most [budget w r] more
    times.  An [await] that reports "running" lowers the budget of its
    coroutine; no [await] and no [destroy] raises a budget. *)
Definition finishes {W : Type} (fa : routine_await W) (fd : routine_destroy W)
    (budget : W -> coroutine -> nat) : Prop :=
  (forall r w, fst (fa r w) = true -> (budget (snd (fa r w)) r < budget w r)%nat)
  /\ (forall r w r', (budget (snd (fa r w)) r' <= budget w r')%nat)
  /\ (forall r w r', (budget (fd r w) r' <= budget w r')%nat).

(** The suspensions left to the queued handles [l]. *)
Fixpoint budget_sum {W : Type} (budget : W -> coroutine -> nat) (w : W)
    (l : list coroutine) : nat :=
  match l with
  | [] => 0
  | r :: l => budget w r + budget_sum budget w l
  end.

(** The calls made for workgroup [i]: the calls of [begin] for its
    subgroups, each with workgroup memory [memory], then the round-robin
    retirement of the handles they returned. *)
Definition group_segment (cbarriers : bool) (spw memory sx sy i : Z)
    (seg : list event) : Prop :=
  exists sp dr,
    seg = sp ++ dr
    /\ begin_args sp = expected_begins cbarriers spw (coords_of sx sy i)
    /\ destroyed sp = []
    /\ Forall (begin_memory_is memory) sp
    /\ drained (begun sp) dr.

(** The grid of a prepared context, as [dispatch_thread] reads it. *)
Definition grid_x {W : Type} (ctx : dispatch_context W) : Z :=
  s32 (at0 (num_workgroups (data ctx))).
Definition grid_y {W : Type} (ctx : dispatch_context W) : Z :=
  s32 (at1 (num_workgroups (data ctx))).
Definition grid_z {W : Type} (ctx : dispatch_context W) : Z :=
  s32 (at2 (num_workgroups (data ctx))).
Definition ngroups_of {W : Type} (ctx : dispatch_context W) : Z :=
  grid_x ctx * grid_y ctx * grid_z ctx.

(** Contexts on which the arithmetic of [dispatch_thread] stays within
    [int]: a grid of non-negative dimensions, at least one thread, and the
    workgroup index never past [INT_MAX], also after the last increment. *)
Definition dispatch_ready {W : Type} (ctx : dispatch_context W) : Prop :=
  0 <= grid_x ctx /\ 0 <= grid_y ctx /\ 0 <= grid_z ctx
  /\ grid_x ctx * grid_y ctx <= INT_MAX
  /\ ngroups_of ctx + nthreads ctx <= 2^31
  /\ 1 <= nthreads ctx
  /\ 0 <= subgroups_per_workgroup (data ctx) <= INT_MAX
  /\ 0 <= memory_size ctx.

(** The calls added to the trace pass [memory] to [begin]. *)
Definition extends_with_memory {W : Type} (memory : Z) (st st' : run_state W)
  : Prop :=
  exists evs, rs_trace st' = rs_trace st ++ evs
              /\ Forall (begin_memory_is memory) evs.

(** Grids and thread counts for which the loop over workgroups stays
    within [int]. *)
Definition grid_fits (T gx gy gz : Z) : Prop :=
  0 <= gx <= INT_MAX /\ 0 <= gy <= INT_MAX /\ 0 <= gz <= INT_MAX
  /\ gx * gy <= INT_MAX
  /\ gx * gy * gz + T <= 2^31
  /\ 1 <= T.

(** ** Instances on the test program *)

(** The context that [prepare_dispatch] builds for the test program with
    control barriers, workgroups of 3 x 3 x 1 invocations (3 subgroups), a
    grid of 2 x 2 x 1 workgroups and 2 threads. *)
Definition test_ctx : dispatch_context test_world :=
  prepared alloc_dispatch_context 2 (test_info true 3 3 1) 2 2 1 16 4 9 3.

(** ** The remaining functions of runtime.c *)

(** What [coroutines_dump] writes to [stderr], one item per call of
    [fprintf]: the header ["s: %d e: %d c: %d ["] with its three numbers
    (the unsigned fields, printed as [int]), ["%p,"] with its pointer, and
    the closing ["]\n"]. *)
Inductive dump_item : Type :=
  | DumpHeader (s e c : Z)
  | DumpHandle (r : coroutine)
  | DumpEnd.

(** [while (i != routines->end)] of [coroutines_dump]; the handle printed
    is [routines->routines[routines->start]]. *)
Fixpoint dump_loop (fuel : nat) (q : coroutines) (i : Z) (out : list dump_item)
  : outcome (list dump_item) :=
  match fuel with
  | O => OutOfFuel
  | S fuel =>
      if i =? end_ q then Done out
      else
        r <- load (routines q) (start q) ;;
        if cap q =? 0 then Fault DivByZero
        else dump_loop fuel q (u32 (i + 1) mod cap q) (out ++ [DumpHandle r])
  end.

Definition coroutines_dump (fuel : nat) (q : coroutines) : outcome (list dump_item) :=
  let out := [DumpHeader (s32 (start q)) (s32 (end_ q)) (s32 (cap q))] in
  let i := start q in
  out <- dump_loop fuel q i out ;;
  Done (out ++ [DumpEnd]).

(** [coroutines_free]: the array is released (it is held by value here, so
    releasing it is dropping it) and the queue is zeroed. *)
Definition coroutines_free (q : coroutines) : coroutines :=
  let clr := coroutines_zero in
  clr.

Definition free_thread_context (h : heap) (c : thread_context)
  : outcome (heap * thread_context) :=
  h <- (if thread_memory c =? NULL then Done h else free h (thread_memory c)) ;;
  let c := {| thread_routines := coroutines_free (thread_routines c);
              thread_memory_size := thread_memory_size c;
              thread_memory := thread_memory c |} in
  let clr := {| thread_routines := coroutines_zero;
                thread_memory_size := 0;
                thread_memory := NULL |} in
  Done (h, clr).




(** ** shader/piet/support.c *)

(** The file has its own copy of [malloc_align], the same text as the one
    of runtime.c. *)
Definition coroutine_alloc_frame (h : heap) (size : Z) : outcome (Z * heap) :=
  a <- malloc_align h 16 size ;;
  let ptr := fst a in
  Done (ptr, snd a).

Definition coroutine_free_frame (h : heap) (ptr : Z) : outcome heap :=
  free h ptr.

(** ** Heaps and the allocations of a context *)

(** Every live allocation starts below the allocator's high-water mark,
    so that a new allocation is at a new address. *)
Definition heap_ok (h : heap) : Prop :=
  forall p bs, blocks h !! p = Some bs -> p <= brk h.

(** The states of a heap and a dispatch context in the life of the
    context: allocated on the heap [h0], then prepared for dispatches and
    freed, in any order. *)
Inductive context_life {W : Type} (h0 : heap)
  : heap -> dispatch_context W -> Prop :=
  | life_alloc : context_life h0 h0 alloc_dispatch_context
  | life_prepare h ctx T info ds gx gy gz h' ctx' :
      context_life h0 h ctx ->
      prepare_dispatch h ctx T info ds gx gy gz = Done (h', ctx') ->
      context_life h0 h' ctx'
  | life_free h ctx h' ctx' :
      context_life h0 h ctx ->
      free_dispatch_context h ctx = Done (h', ctx') ->
      context_life h0 h' ctx'.

(** The same for a thread context: allocated on [h0], then used by
    dispatches (of any context, thread index and program state) and freed. *)
Inductive thread_life {W : Type} (h0 : heap) : heap -> thread_context -> Prop :=
  | tlife_alloc : thread_life h0 h0 alloc_thread_context
  | tlife_dispatch h thread fuel (ctx : dispatch_context W) t w h' thread' w' tr :
      thread_life h0 h thread ->
      dispatch_thread fuel h ctx t thread w = Done (h', thread', w', tr) ->
      thread_life h0 h' thread'
  | tlife_free h thread h' thread' :
      thread_life h0 h thread ->
      free_thread_context h thread = Done (h', thread') ->
      thread_life h0 h' thread'.

(** ** shader/piet/mem.h *)

(** The memory that the kernels of the renderer allocate from, in GLSL.
    A [uint] is a value of [Z] below 2^32 and its arithmetic wraps
    ([u32]); an access beyond the end of the array [memory] is undefined
    and is a [Fault].  [atomicAdd] and [atomicMax] are single steps on the
    buffer, which is passed along.  [MEM_DEBUG], a macro of the source
    (not defined there: its line is commented out), is a parameter; the
    field [size] of [Alloc] exists only when it is set, and is kept 0
    otherwise. *)
Module Mem.

Record Memory : Type := mk_Memory {
  mem_offset : Z;
  mem_error : Z;
  memory : list Z
}.

Definition NO_ERROR : Z := 0.
Definition ERR_MALLOC_FAILED : Z := 1.
Definition ERR_OUT_OF_BOUNDS : Z := 2.
Definition ERR_UNALIGNED_ACCESS : Z := 3.

Record Alloc : Type := mk_Alloc {
  offset : Z;
  size : Z
}.

Record MallocResult : Type := mk_MallocResult {
  alloc : Alloc;
  failed : bool
}.

(** [memory.length()]. *)
Definition memory_length (m : Memory) : Z := Z.of_nat (length (memory m)).

(** [atomicAdd(mem_offset, data)]: the result is the value before. *)
Definition atomicAdd_mem_offset (data : Z) (m : Memory) : Z * Memory :=
  (mem_offset m,
   {| mem_offset := u32 (mem_offset m + data);
      mem_error := mem_error m;
      memory := memory m |}).

(** [atomicMax(mem_error, data)]. *)
Definition atomicMax_mem_error (data : Z) (m : Memory) : Memory :=
  {| mem_offset := mem_offset m;
     mem_error := Z.max (mem_error m) data;
     memory := memory m |}.

Section Config.

Variable MEM_DEBUG : bool.

Definition Alloc_size : Z := if MEM_DEBUG then 16 else 8.

Definition new_alloc (offset size : Z) (mem_ok : bool) : Alloc :=
  if MEM_DEBUG then
    {| offset := offset; size := if mem_ok then size else 0 |}
  else {| offset := offset; size := 0 |}.

Definition malloc (size : Z) (m : Memory) : MallocResult * Memory :=
  let '(offset, m) := atomicAdd_mem_offset size m in
  let failed := u32 (memory_length m * 4) <? u32 (offset + size) in
  let alloc := new_alloc offset size (negb failed) in
  if failed then
    ({| alloc := alloc; failed := failed |}, atomicMax_mem_error ERR_MALLOC_FAILED m)
  else if MEM_DEBUG && negb (Z.land size 3 =? 0) then
    ({| alloc := alloc; failed := true |}, atomicMax_mem_error ERR_UNALIGNED_ACCESS m)
  else ({| alloc := alloc; failed := failed |}, m).

Definition touch_mem (alloc : Alloc) (offset : Z) (m : Memory) : bool * Memory :=
  if MEM_DEBUG
     && ((offset <? Mem.offset alloc / 4)
         || (u32 (Mem.offset alloc + size alloc) / 4 <=? offset))
  then (false, atomicMax_mem_error ERR_OUT_OF_BOUNDS m)
  else (true, m).

Definition write_mem (alloc : Alloc) (offset val : Z) (m : Memory) : outcome Memory :=
  let '(ok, m) := touch_mem alloc offset m in
  if negb ok then Done m
  else if offset <? memory_length m then
    Done {| mem_offset := mem_offset m;
            mem_error := mem_error m;
            memory := <[Z.to_nat offset := val]> (memory m) |}
  else Fault OutOfBounds.

Definition read_mem (alloc : Alloc) (offset : Z) (m : Memory) : outcome (Z * Memory) :=
  let '(ok, m) := touch_mem alloc offset m in
  if negb ok then Done (0, m)
  else match memory m !! Z.to_nat offset with
       | Some v => Done (v, m)
       | None => Fault OutOfBounds
       end.

Definition slice_mem (a : Alloc) (offset size : Z) (m : Memory) : Alloc * Memory :=
  if MEM_DEBUG then
    if negb (Z.land offset 3 =? 0) || negb (Z.land size 3 =? 0) then
      ({| Mem.offset := 0; Mem.size := 0 |}, atomicMax_mem_error ERR_UNALIGNED_ACCESS m)
    else if Mem.size a <? u32 (offset + size) then
      ({| Mem.offset := 0; Mem.size := 0 |}, m)
    else ({| Mem.offset := u32 (Mem.offset a + offset); Mem.size := size |}, m)
  else ({| Mem.offset := u32 (Mem.offset a + offset); Mem.size := 0 |}, m).

Definition alloc_write (a : Alloc) (offset : Z) (alloc : Alloc) (m : Memory)
  : outcome Memory :=
  m <- write_mem a (Z.shiftr offset 2) (Mem.offset alloc) m ;;
  if MEM_DEBUG then write_mem a (u32 (Z.shiftr offset 2 + 1)) (size alloc) m
  else Done m.

Definition alloc_read (a : Alloc) (offset : Z) (m : Memory) : outcome (Alloc * Memory) :=
  r <- read_mem a (Z.shiftr offset 2) m ;;
  let '(alloc_offset, m) := r in
  if MEM_DEBUG then
    r <- read_mem a (u32 (Z.shiftr offset 2 + 1)) m ;;
    let '(alloc_size, m) := r in
    Done ({| Mem.offset := alloc_offset; size := alloc_size |}, m)
  else Done ({| Mem.offset := alloc_offset; size := 0 |}, m).

End Config.

End Mem.

(** The live allocations are those of [base] and, unless [p] is null, one
    more at [p]. *)
Definition owns (base : gmap Z (list Byte.byte)) (h : heap) (p : Z) : Prop :=
  (p = NULL /\ blocks h = base)
  \/ (p <> NULL /\ base !! p = None /\ exists bs, blocks h = <[p := bs]> base).

(** Number of calls of [await] on the handle [r]. *)
Fixpoint awaits (r : coroutine) (tr : list event) : nat :=
  match tr with
  | [] => 0
  | EvAwait r' _ :: tr => (if r' =? r then 1 else 0) + awaits r tr
  | _ :: tr => awaits r tr
  end.

(** Number of times the handle [r] is queued. *)
Fixpoint queued (r : coroutine) (l : list coroutine) : nat :=
  match l with
  | [] => 0
  | r' :: l => (if r' =? r then 1 else 0) + queued r l
  end.

(** The handles passed to [await], in the order of the calls. *)
Fixpoint awaited (tr : list event) : list coroutine :=
  match tr with
  | [] => []
  | EvAwait r _ :: tr => r :: awaited tr
  | _ :: tr => awaited tr
  end.

(** The handles whose [await] reported "running", in the order of the
    calls. *)
Fixpoint still_running (tr : list event) : list coroutine :=
  match tr with
  | [] => []
  | EvAwait r true :: tr => r :: still_running tr
  | _ :: tr => still_running tr
  end.

(** The handles whose [await] reported "finished", in the order of the
    calls. *)
Fixpoint finished (tr : list event) : list coroutine :=
  match tr with
  | [] => []
  | EvAwait r false :: tr => r :: finished tr
  | _ :: tr => finished tr
  end.

(** [in_rounds l tr]: the calls [tr] retire the queued handles [l] in
    rounds.  A round passes each queued handle to [await] once, in the
    order of the queue, and destroys the ones that have finished; the ones
    still running are, in the same order, the queue of the next round. *)
Inductive in_rounds : list coroutine -> list event -> Prop :=
  | rounds_done : in_rounds [] []
  | rounds_next l round rest :
      l <> [] ->
      awaited round = l ->
      destroyed round = finished round ->
      begun round = [] ->
      in_rounds (still_running round) rest ->
      in_rounds l (round ++ rest).

(** A memory of 16 words with 8 bytes handed out. *)
Definition mem_example : Mem.Memory :=
  {| Mem.mem_offset := 8; Mem.mem_error := 0; Mem.memory := replicate 16 0 |}.

(** The same memory with its offset 8 bytes below 2^32. *)
Definition mem_example_high : Mem.Memory :=
  {| Mem.mem_offset := 4294967288; Mem.mem_error := 0; Mem.memory := replicate 16 0 |}.

(** The word [w] belongs to the allocation [a]: it is one that
    [touch_mem] lets through under [MEM_DEBUG]. *)
Definition mem_inside (a : Mem.Alloc) (w : Z) : Prop :=
  Mem.offset a / 4 <= w < (Mem.offset a + Mem.size a) / 4.

(** * Part II: properties *)

(** ** List lemmas for the buffer operations *)

Lemma nth_insert (l : list coroutine) (i j : nat) (r d : coroutine) :
  nth j (<[i := r]> l) d
  = if decide (j = i /\ (i < length l)%nat) then r else nth j l d.
Proof.
  rewrite !nth_lookup. case_decide as H.
  - destruct H as [-> H]. by rewrite list_lookup_insert_eq.
  - destruct (decide (i = j)) as [->|Hne].
    + rewrite list_insert_ge; [done | lia].
    + by rewrite list_lookup_insert_ne.
Qed.

Lemma length_realloc (buf : list coroutine) (n : Z) :
  length (realloc buf n) = Z.to_nat n.
Proof.
  unfold realloc. rewrite length_app, length_take, length_replicate. lia.
Qed.

Lemma nth_realloc (buf : list coroutine) (n : Z) (j : nat) (d : coroutine) :
  (j < length buf)%nat -> (j < Z.to_nat n)%nat ->
  nth j (realloc buf n) d = nth j buf d.
Proof.
  intros Hj Hn. unfold realloc. rewrite !nth_lookup.
  rewrite lookup_app_l by (rewrite length_take; lia).
  by rewrite lookup_take_lt.
Qed.

Lemma length_move (buf : list coroutine) (dst src n : nat) :
  (dst + n <= length buf)%nat -> (src + n <= length buf)%nat ->
  length (take dst buf ++ take n (drop src buf) ++ drop (dst + n) buf) = length buf.
Proof.
  intros. rewrite !length_app, !length_take, !length_drop. lia.
Qed.

Lemma nth_move (buf : list coroutine) (dst src n j : nat) (d : coroutine) :
  (dst + n <= length buf)%nat -> (src + n <= length buf)%nat ->
  nth j (take dst buf ++ take n (drop src buf) ++ drop (dst + n) buf) d
  = if decide (dst <= j < dst + n)%nat then nth (src + (j - dst)) buf d else nth j buf d.
Proof.
  intros Hd Hs. rewrite !nth_lookup.
  destruct (decide (j < dst)%nat) as [Hlt|Hge].
  - rewrite lookup_app_l by (rewrite length_take; lia).
    rewrite lookup_take_lt by lia. case_decide; [lia | done].
  - rewrite lookup_app_r by (rewrite length_take; lia).
    rewrite length_take, Nat.min_l by lia.
    destruct (decide (j < dst + n)%nat) as [Hin|Hout].
    + rewrite lookup_app_l by (rewrite length_take, length_drop; lia).
      rewrite lookup_take_lt by lia. rewrite lookup_drop.
      case_decide; [done | lia].
    + rewrite lookup_app_r by (rewrite length_take, length_drop; lia).
      rewrite length_take, length_drop, Nat.min_l by lia.
      rewrite lookup_drop. case_decide; [lia |].
      do 2 f_equal. lia.
Qed.

(** ** The queue against its abstraction *)

Lemma contents_snoc (q q' : coroutines) (r : coroutine) :
  0 <= count q ->
  count q' = count q + 1 ->
  (forall k, 0 <= k < count q -> at_slot q' k = at_slot q k) ->
  at_slot q' (count q) = r ->
  contents q' = contents q ++ [r].
Proof.
  intros Hc Hn Hold Hnew. unfold contents. rewrite Hn.
  replace (Z.to_nat (count q + 1)) with (Z.to_nat (count q) + 1)%nat by lia.
  rewrite seq_app, map_app. simpl. f_equal.
  - apply map_ext_in. intros k Hk. apply in_seq in Hk. apply Hold. lia.
  - rewrite Z2Nat.id by lia. by rewrite Hnew.
Qed.

Lemma contents_cons (q q' : coroutines) :
  0 < count q ->
  count q' = count q - 1 ->
  (forall k, 0 <= k < count q' -> at_slot q' k = at_slot q (k + 1)) ->
  contents q = at_slot q 0 :: contents q'.
Proof.
  intros Hc Hn Hold. unfold contents. rewrite Hn.
  replace (Z.to_nat (count q)) with (S (Z.to_nat (count q - 1))) by lia.
  simpl. f_equal. rewrite <- seq_shift, map_map.
  apply map_ext_in. intros k Hk. apply in_seq in Hk.
  rewrite Hold by lia. f_equal. lia.
Qed.

Lemma length_contents (q : coroutines) :
  length (contents q) = Z.to_nat (count q).
Proof. unfold contents. by rewrite length_map, length_seq. Qed.

Lemma u32_small (z : Z) : 0 <= z < 2^32 -> u32 z = z.
Proof. intros. unfold u32. by apply Z.mod_small. Qed.

Lemma count_range (q : coroutines) :
  queue_ok q -> 0 <= count q /\ (count q < cap q \/ (cap q = 0 /\ count q = 0)).
Proof.
  intros [Hb Hc Hi]. unfold count. destruct (Z.leb_spec (start q) (end_ q)); lia.
Qed.

Ltac zbool :=
  repeat match goal with
  | |- context [?a <=? ?b] => destruct (Z.leb_spec a b)
  | |- context [?a <? ?b] => destruct (Z.ltb_spec a b)
  | |- context [?a =? ?b] => destruct (Z.eqb_spec a b)
  end.

Lemma memmove_spec (buf : list coroutine) (dst src n : Z) :
  0 <= dst -> 0 <= src -> 0 <= n ->
  dst + n <= Z.of_nat (length buf) -> src + n <= Z.of_nat (length buf) ->
  exists buf', memmove buf dst src n = Done buf'
    /\ length buf' = length buf
    /\ forall j d, nth j buf' d
         = if decide (dst <= Z.of_nat j < dst + n)
           then nth (Z.to_nat (src + (Z.of_nat j - dst))) buf d
           else nth j buf d.
Proof.
  intros Hd Hs Hn Hdl Hsl. unfold memmove.
  destruct (Z.eqb_spec n 0) as [->|Hn0].
  - exists buf. repeat split. intros j d. case_decide; [lia | done].
  - destruct (Z.leb_spec (dst + n) (Z.of_nat (length buf))); [|lia].
    destruct (Z.leb_spec (src + n) (Z.of_nat (length buf))); [|lia].
    simpl. eexists. split; [reflexivity|].
    replace (Z.to_nat (dst + n)) with (Z.to_nat dst + Z.to_nat n)%nat by lia.
    split.
    + apply length_move; lia.
    + intros j d. rewrite nth_move by lia.
      repeat case_decide; try lia; try done. f_equal. lia.
Qed.

Lemma store_spec (buf : list coroutine) (i : Z) (r : coroutine) :
  0 <= i < Z.of_nat (length buf) ->
  exists buf', store buf i r = Done buf'
    /\ length buf' = length buf
    /\ forall j d, nth j buf' d = if decide (Z.of_nat j = i) then r else nth j buf d.
Proof.
  intros Hi. unfold store.
  destruct (Z.leb_spec 0 i); [|lia]. destruct (Z.ltb_spec i (Z.of_nat (length buf))); [|lia].
  simpl. eexists. split; [reflexivity|]. split.
  - by rewrite length_insert.
  - intros j d. rewrite nth_insert. repeat case_decide; try lia; done.
Qed.

Lemma store_oob (buf : list coroutine) (i : Z) (r : coroutine) :
  Z.of_nat (length buf) <= i -> store buf i r = Fault OutOfBounds.
Proof.
  intros Hi. unfold store.
  destruct (Z.ltb_spec i (Z.of_nat (length buf))); [lia|]. by rewrite andb_false_r.
Qed.

Lemma push_spec (q : coroutines) (r : coroutine) :
  queue_ok q ->
  (exists q', coroutines_push q r = Done q'
     /\ queue_ok q'
     /\ contents q' = contents q ++ [r]
     /\ count q' = count q + 1
     /\ start q' = start q
     /\ (cap q' = cap q
         \/ (count q + 1 = Z.max 1 (cap q) /\ cap q' = Z.max 10 (2 * cap q))))
  \/ (coroutines_push q r = Fault OutOfBounds
      /\ 2^31 <= cap q /\ count q + 1 = cap q).
Proof.
  intros Hok. destruct (count_range q Hok) as [Hc0 Hc1].
  pose proof Hok as [Hb Hc Hi].
  unfold coroutines_push.
  rewrite (u32_small (end_ q + 1)) by lia.
  destruct (Z.eqb_spec (if cap q <=? end_ q + 1 then 0 else end_ q + 1) (start q))
    as [Hfull|Hroom].
  - (* the buffer is full: grow *)
    assert (Hcnt : count q + 1 = Z.max 1 (cap q)).
    { revert Hfull. unfold count in *. zbool; lia. }
    destruct (Z.lt_ge_cases (cap q) (2^31)) as [Hsmall|Hbig].
    + left. rewrite (u32_small (cap q * 2)) by lia.
      set (newcap := if cap q * 2 <? 10 then 10 else cap q * 2).
      assert (Hnew : newcap = Z.max 10 (2 * cap q)) by (subst newcap; zbool; lia).
      pose proof (length_realloc (routines q) newcap) as Hlr.
      assert (Hmoved : exists buf1,
        (if end_ q <? start q
         then _ <- assert (end_ q <=? u32 (newcap - cap q)) ;;
              buf <- memmove (realloc (routines q) newcap) (cap q) 0 (end_ q) ;;
              Done (buf, u32 (end_ q + cap q))
         else Done (realloc (routines q) newcap, end_ q))
        = Done (buf1, start q + count q)
        /\ length buf1 = Z.to_nat newcap
        /\ forall k, 0 <= k < count q ->
             nth (Z.to_nat (start q + k)) buf1 NULL = at_slot q k).
      { unfold at_slot, slot, count in *.
        destruct (Z.ltb_spec (end_ q) (start q)) as [Hwrap|Hflat].
        - rewrite (u32_small (newcap - cap q)) by lia.
          destruct (Z.leb_spec (end_ q) (newcap - cap q)); [|lia]. simpl.
          destruct (memmove_spec (realloc (routines q) newcap) (cap q) 0 (end_ q))
            as (buf1 & -> & Hl1 & Hn1); try lia.
          simpl. rewrite (u32_small (end_ q + cap q)) by lia.
          exists buf1. split; [f_equal; f_equal; zbool; lia|].
          split; [lia|]. intros k Hk. rewrite Hn1.
          revert Hk. zbool; intros; try lia.
          + case_decide; [lia|]. apply nth_realloc; lia.
          + case_decide; [|lia]. rewrite nth_realloc by lia. f_equal. lia.
        - simpl. exists (realloc (routines q) newcap).
          split; [f_equal; f_equal; zbool; lia|].
          split; [lia|]. intros k Hk.
          revert Hk. zbool; intros; try lia. apply nth_realloc; lia. }
      destruct Hmoved as (buf1 & -> & Hl1 & Hn1). simpl.
      destruct (store_spec buf1 (start q + count q) r) as (buf2 & -> & Hl2 & Hn2);
        [lia|]. simpl.
      rewrite (u32_small (start q + count q + 1)) by lia.
      rewrite (Z.mod_small (start q + count q + 1) newcap) by lia.
      eexists. split; [reflexivity|].
      assert (Hcount : count {| routines := buf2; start := start q;
                                end_ := start q + count q + 1; cap := newcap |}
                       = count q + 1).
      { unfold count at 1. simpl. zbool; lia. }
      split; [split; simpl; lia|].
      split; [|split; [done|split; [done|right; split; [done|by rewrite Hnew]]]].
      apply contents_snoc; try done.
      * intros k Hk. rewrite <- Hn1 by done. unfold at_slot, slot. simpl.
        destruct (Z.ltb_spec (start q + k) newcap); [|lia].
        rewrite Hn2. case_decide; [lia | done].
      * unfold at_slot, slot. simpl.
        destruct (Z.ltb_spec (start q + count q) newcap); [|lia].
        rewrite Hn2. case_decide; [done | lia].
    + (* doubling wraps around 2^32: the write lands outside the buffer *)
      right. split; [|lia].
      assert (Hu : u32 (cap q * 2) = 2 * cap q - 2^32).
      { unfold u32. Z.div_mod_to_equations. lia. }
      rewrite Hu.
      set (newcap := if 2 * cap q - 2^32 <? 10 then 10 else 2 * cap q - 2^32).
      assert (Hnew : 10 <= newcap < cap q) by (subst newcap; zbool; lia).
      assert (Hv : u32 (newcap - cap q) = newcap - cap q + 2^32).
      { unfold u32. Z.div_mod_to_equations. lia. }
      pose proof (length_realloc (routines q) newcap) as Hlr.
      unfold count in Hcnt.
      destruct (Z.ltb_spec (end_ q) (start q)) as [Hwrap|Hflat].
      * rewrite Hv. destruct (Z.leb_spec (end_ q) (newcap - cap q + 2^32)).
        2:{ subst newcap. revert H. zbool; lia. }
        simpl. unfold memmove.
        destruct (Z.eqb_spec (end_ q) 0) as [He|He].
        -- simpl. rewrite He. simpl. rewrite (u32_small (0 + cap q)) by lia.
           rewrite store_oob by lia. done.
        -- destruct (Z.leb_spec (cap q + end_ q)
                       (Z.of_nat (length (realloc (routines q) newcap)))); [lia|].
           done.
      * simpl. rewrite store_oob; [done|]. revert Hcnt. zbool; lia.
  - (* there is room *)
    left.
    assert (Hcnt : count q + 1 < cap q).
    { revert Hroom. unfold count in *. zbool; lia. }
    destruct (store_spec (routines q) (end_ q) r) as (buf & -> & Hl & Hn); [lia|].
    simpl. eexists. split; [reflexivity|].
    set (q' := {| routines := buf; start := start q;
                  end_ := if cap q <=? end_ q + 1 then 0 else end_ q + 1;
                  cap := cap q |}).
    assert (Hcount : count q' = count q + 1).
    { unfold count in *. simpl. revert Hcnt. zbool; lia. }
    split; [split; simpl; [lia | lia | zbool; lia]|].
    split; [|split; [done|split; [done|by left]]].
    apply contents_snoc; try done.
    + intros k Hk. unfold at_slot, slot. simpl. rewrite Hn.
      case_decide as Heq; [|done].
      revert Heq Hk. unfold count in *. zbool; lia.
    + unfold at_slot, slot. simpl. rewrite Hn.
      case_decide as Heq; [done|].
      revert Heq. unfold count in *. zbool; lia.
Qed.

Lemma succ_mod_wrap (i c : Z) :
  0 <= i < c -> (i + 1) mod c = if i + 1 <? c then i + 1 else 0.
Proof.
  intros Hi. destruct (Z.ltb_spec (i + 1) c).
  - apply Z.mod_small. lia.
  - replace (i + 1) with c by lia. apply Z.mod_same. lia.
Qed.

Lemma load_spec (buf : list coroutine) (i : Z) :
  0 <= i < Z.of_nat (length buf) -> load buf i = Done (nth (Z.to_nat i) buf NULL).
Proof.
  intros Hi. unfold load. destruct (Z.leb_spec 0 i); [|lia].
  rewrite nth_lookup.
  destruct (lookup_lt_is_Some_2 buf (Z.to_nat i)) as [x ->]; [lia | done].
Qed.

Lemma pop_spec (q : coroutines) :
  queue_ok q ->
  (start q = end_ q /\ contents q = [] /\ coroutines_pop q = Done (None, q))
  \/ (start q <> end_ q /\
      exists x q', coroutines_pop q = Done (Some x, q')
        /\ contents q = x :: contents q'
        /\ queue_ok q'
        /\ count q' = count q - 1
        /\ cap q' = cap q
        /\ end_ q' = end_ q).
Proof.
  intros Hok. pose proof Hok as [Hb Hc Hi]. unfold coroutines_pop.
  destruct (Z.eqb_spec (start q) (end_ q)) as [Heq|Hne].
  - left. split; [done|]. split; [|done].
    unfold contents, count. rewrite Heq, Z.leb_refl, Z.sub_diag. done.
  - right. split; [done|].
    rewrite load_spec by lia. simpl.
    destruct (Z.eqb_spec (cap q) 0) as [H0|H0]; [lia|].
    rewrite (u32_small (start q + 1)) by lia.
    rewrite succ_mod_wrap by lia.
    eexists _, _. split; [reflexivity|].
    set (q' := {| routines := routines q;
                  start := if start q + 1 <? cap q then start q + 1 else 0;
                  end_ := end_ q; cap := cap q |}).
    assert (Hcount : count q' = count q - 1).
    { unfold count. simpl. zbool; lia. }
    split; [|split; [split; simpl; [lia | lia | zbool; lia]|done]].
    replace (nth (Z.to_nat (start q)) (routines q) NULL) with (at_slot q 0).
    2:{ unfold at_slot, slot. zbool; try lia. do 2 f_equal. lia. }
    apply contents_cons; [unfold count; zbool; lia | done |].
    intros k Hk. unfold at_slot, slot. simpl.
    revert Hk. rewrite Hcount. unfold count. zbool; intros; try lia; do 2 f_equal; lia.
Qed.

Lemma queue_ok_zero : queue_ok coroutines_zero.
Proof. split; simpl; lia. Qed.

Lemma fifo_peak_ge (ops : list op) (l : list coroutine) :
  (length l <= fifo_peak ops l)%nat.
Proof. destruct ops as [|[r|] ops]; simpl; lia. Qed.

Lemma run_refines (ops : list op) :
  forall q, queue_ok q ->
  match run ops q with
  | Done (outs, q') =>
      queue_ok q'
      /\ outs = fst (fifo_run ops (contents q))
      /\ contents q' = snd (fifo_run ops (contents q))
  | Fault f => f = OutOfBounds /\ 2^31 <= Z.of_nat (fifo_peak ops (contents q))
  | OutOfFuel => False
  end.
Proof.
  induction ops as [|[r|] ops IH]; intros q Hok; simpl.
  - done.
  - destruct (push_spec q r Hok) as [(q' & -> & Hok' & Hcont & _)|(-> & Hbig & Hfull)].
    + simpl. specialize (IH q' Hok'). rewrite Hcont in IH.
      destruct (run ops q') as [[outs q'']|f|]; [done| |done].
      unfold fifo_push. destruct IH as [-> IH]. split; [done | lia].
    + simpl. split; [done|].
      pose proof (fifo_peak_ge ops (fifo_push (contents q) r)) as Hge.
      unfold fifo_push in *. rewrite length_app, length_contents in Hge. simpl in Hge.
      lia.
  - destruct (pop_spec q Hok) as [(_ & Hnil & ->)|(_ & x & q' & -> & Hcons & Hok' & _)].
    + simpl. specialize (IH q Hok). rewrite Hnil in *. simpl.
      destruct (run ops q) as [[outs q'']|f|]; simpl; [| |done].
      * destruct IH as (? & -> & ->). done.
      * destruct IH as [-> IH]. split; [done | lia].
    + simpl. specialize (IH q' Hok'). rewrite Hcons. simpl.
      destruct (run ops q') as [[outs q'']|f|]; simpl; [| |done].
      * destruct IH as (? & -> & ->). done.
      * destruct IH as [-> IH]. split; [done | lia].
Qed.

Lemma fifo_run_length (ops : list op) :
  forall l, (length (snd (fifo_run ops l)) + length (popped (fst (fifo_run ops l)))
             = length l + pushes ops)%nat.
Proof.
  induction ops as [|[r|] ops IH]; intros l; simpl.
  - lia.
  - rewrite IH. unfold fifo_push. rewrite length_app. simpl. lia.
  - destruct l as [|x l]; simpl.
    + apply IH.
    + specialize (IH l). lia.
Qed.

Lemma empty_iff (q : coroutines) :
  queue_ok q -> (start q = end_ q <-> contents q = []).
Proof.
  intros Hok. pose proof (length_contents q) as Hl.
  pose proof Hok as [Hb Hc Hi].
  split.
  - intros Heq. apply nil_length_inv. rewrite Hl. unfold count. rewrite Heq.
    rewrite Z.leb_refl. lia.
  - intros Hnil. rewrite Hnil in Hl. simpl in Hl. revert Hl. unfold count.
    zbool; lia.
Qed.

Lemma reachable_ok (q : coroutines) : reachable q -> queue_ok q.
Proof.
  induction 1 as [|q r q' _ IH Hpush|q x q' _ IH Hpop].
  - apply queue_ok_zero.
  - destruct (push_spec q r IH) as [(q2 & Heq & Hok & _)|(Heq & _)]; congruence.
  - destruct (pop_spec q IH) as [(_ & _ & Heq)|(_ & y & q2 & Heq & _ & Hok & _)];
      congruence.
Qed.

(** ** Claims about the coroutine queue *)

(** C3.  The circular buffer refines the list FIFO.  Whatever the sequence
    of pushes and pops applied to the zero-initialised queue, every pop
    returns what the list queue returns (the oldest handle not yet popped,
    or nothing when empty), the buffer holds the list queue's handles in
    order, the handles popped and those still queued add up to those
    pushed (so a queue that popped as many handles as were pushed has
    [start = end]), and a further push, growing or not, wrapped or not,
    keeps the queued handles in order and appends the new one.  The only
    runs excluded are those that queue 2^31 handles or more, where doubling
    the capacity wraps around 2^32 and the source writes outside its
    buffer. *)
Theorem queue_refines_fifo (ops : list op) :
  match run ops coroutines_zero with
  | Done (outs, q) =>
      outs = fst (fifo_run ops [])
      /\ contents q = snd (fifo_run ops [])
      /\ (length (popped outs) + length (contents q) = pushes ops)%nat
      /\ (start q = end_ q <-> contents q = [])
      /\ (length (popped outs) = pushes ops -> start q = end_ q)
      /\ forall r,
           match coroutines_push q r with
           | Done q' => contents q' = fifo_push (contents q) r
           | Fault f => 2^31 <= Z.of_nat (length (contents q)) + 1
           | OutOfFuel => False
           end
  | Fault f => f = OutOfBounds /\ 2^31 <= Z.of_nat (fifo_peak ops [])
  | OutOfFuel => False
  end.
Proof.
  pose proof (run_refines ops coroutines_zero queue_ok_zero) as H.
  change (contents coroutines_zero) with (@nil coroutine) in H.
  destruct (run ops coroutines_zero) as [[outs q]|f|]; [|done|done].
  destruct H as (Hok & -> & Hcont).
  split; [done|]. split; [done|]. split.
  { rewrite Hcont. pose proof (fifo_run_length ops []) as Hl. simpl in Hl. lia. }
  split; [by apply empty_iff|].
  split.
  { intros Hsame. apply empty_iff; [done|]. apply nil_length_inv.
    rewrite Hcont. pose proof (fifo_run_length ops []) as Hl. simpl in Hl. lia. }
  intros r.
  destruct (push_spec q r Hok) as [(q' & -> & _ & Hc & _)|(-> & Hbig & Hfull)].
  - done.
  - rewrite length_contents. pose proof (count_range q Hok). lia.
Qed.

(** C4.  Every state reached from the zero-initialised queue by pushes and
    pops satisfies the representation invariant: the buffer has [cap]
    elements, [start] and [end] are below a nonzero capacity, [start = end]
    exactly when no handle is queued, and the queued handles never fill
    the buffer (one slot stays free).  A push leaves the capacity alone or,
    finding the buffer full, replaces it by [max 10 (2 * cap)]; a pop
    leaves it alone; so the capacity never decreases.  A push can only fail
    once the capacity has reached 2^31, and a pop never fails. *)
Theorem queue_invariant (q : coroutines) :
  reachable q ->
  Z.of_nat (length (routines q)) = cap q
  /\ (cap q <> 0 -> 0 <= start q < cap q /\ 0 <= end_ q < cap q)
  /\ (start q = end_ q <-> contents q = [])
  /\ (cap q <> 0 -> Z.of_nat (length (contents q)) < cap q)
  /\ (forall r,
        match coroutines_push q r with
        | Done q' =>
            cap q <= cap q'
            /\ (cap q' = cap q
                \/ (Z.of_nat (length (contents q)) + 1 = Z.max 1 (cap q)
                    /\ cap q' = Z.max 10 (2 * cap q)))
        | Fault f => 2^31 <= cap q
        | OutOfFuel => False
        end)
  /\ match coroutines_pop q with
     | Done (x, q') => cap q' = cap q
     | _ => False
     end.
Proof.
  intros Hr. pose proof (reachable_ok q Hr) as Hok.
  pose proof Hok as [Hb Hc Hi]. pose proof (count_range q Hok) as Hcnt.
  split; [done|]. split; [lia|]. split; [by apply empty_iff|].
  rewrite length_contents. split; [lia|]. split.
  - intros r.
    destruct (push_spec q r Hok) as [(q' & -> & _ & _ & _ & _ & Hcap)|(-> & Hbig & _)];
      [|done].
    rewrite Z2Nat.id by lia. lia.
  - destruct (pop_spec q Hok) as [(_ & _ & ->)|(_ & x & q' & -> & _ & _ & _ & Hcap & _)];
      done.
Qed.

(** Nine pushes, two pops and three pushes: the last push finds the buffer
    full with [end < start] and grows it from 10 to 20 slots. *)
Example wrapping_run_result :
  run wrapping_run coroutines_zero = Done ([Some 1; Some 2], queue_after_wrap)
  /\ contents queue_after_wrap = [3; 4; 5; 6; 7; 8; 9; 10; 11; 12].
Proof. split; vm_compute; reflexivity. Qed.

Lemma queue_after_wrap_reachable : reachable queue_after_wrap.
Proof.
  assert (H : forall ops q outs q', reachable q -> run ops q = Done (outs, q') ->
                                    reachable q').
  { induction ops as [|[r|] ops IH]; simpl; intros q outs q' Hr Hrun.
    - congruence.
    - destruct (coroutines_push q r) as [q1|f|] eqn:E; simpl in Hrun; try done.
      eapply IH; [|exact Hrun]. eapply reach_push; eauto.
    - destruct (coroutines_pop q) as [[x q1]|f|] eqn:E; simpl in Hrun; try done.
      destruct (run ops q1) as [[outs1 q2]|f|] eqn:E2; simpl in Hrun; try done.
      injection Hrun as <- <-. eapply IH; [|exact E2]. eapply reach_pop; eauto. }
  eapply (H wrapping_run coroutines_zero); [apply reach_zero | vm_compute; reflexivity].
Qed.

Lemma queue_invariant_witness :
  reachable queue_after_wrap
  /\ (start queue_after_wrap = end_ queue_after_wrap <-> contents queue_after_wrap = [])
  /\ Z.of_nat (length (contents queue_after_wrap)) < cap queue_after_wrap.
Proof.
  pose proof (queue_invariant queue_after_wrap queue_after_wrap_reachable)
    as (_ & _ & Hempty & Hfree & _).
  split; [exact queue_after_wrap_reachable|].
  split; [exact Hempty|]. apply Hfree. discriminate.
Defined.

Arguments malloc_align : simpl never.
Arguments posix_memalign : simpl never.
Arguments free : simpl never.
Arguments memcpy : simpl never.
Arguments coroutines_push : simpl never.
Arguments coroutines_pop : simpl never.
Arguments int_check : simpl never.
Arguments u32 : simpl never.
Arguments s32 : simpl never.
Arguments usize : simpl never.

(** One step of a computation: sequencing and projections only. *)
Ltac step := cbn [bind fst snd].

(** ** Integer lemmas *)

Lemma in_int_true (z : Z) : INT_MIN <= z <= INT_MAX -> in_int z = true.
Proof. unfold in_int. intros. apply andb_true_intro. split; lia. Qed.

Lemma int_check_ok (z : Z) : INT_MIN <= z <= INT_MAX -> int_check z = Done z.
Proof. intros. unfold int_check. by rewrite in_int_true. Qed.

Lemma s32_small (z : Z) : INT_MIN <= z <= INT_MAX -> s32 z = z.
Proof.
  unfold INT_MIN, INT_MAX, s32. intros. rewrite Z.mod_small; lia.
Qed.

Lemma usize_small (z : Z) : 0 <= z < 2^64 -> usize z = z.
Proof. intros. unfold usize. by apply Z.mod_small. Qed.

Lemma land_round16 (x : Z) :
  0 <= x < 2^64 -> Z.land x (usize (Z.lnot (16 - 1))) = 16 * (x / 16).
Proof.
  intros Hx. unfold usize.
  rewrite <- (Z.land_ones (Z.lnot (16 - 1)) 64) by lia.
  rewrite (Z.land_comm (Z.lnot _)), Z.land_assoc.
  rewrite (Z.land_ones x 64), (Z.mod_small x) by lia.
  rewrite <- Z.ldiff_land. change (16 - 1) with (Z.ones 4).
  rewrite Z.ldiff_ones_r by lia.
  rewrite Z.shiftl_mul_pow2, Z.shiftr_div_pow2 by lia.
  change (2 ^ 4) with 16. lia.
Qed.

Lemma posix_memalign_aligned (h : heap) (alignment size : Z) :
  0 < alignment ->
  let '(ret, p, h') := posix_memalign h alignment size in
  ret = 0 /\ 0 < p /\ p mod alignment = 0 /\ brk h < p
  /\ blocks h' = <[p := replicate (Z.to_nat size) Byte.x00]> (blocks h).
Proof.
  intros Ha. unfold posix_memalign. split; [done|].
  assert (H : Z.max (brk h) 0 < (Z.max (brk h) 0 / alignment + 1) * alignment).
  { pose proof (Z.mod_pos_bound (Z.max (brk h) 0) alignment Ha).
    pose proof (Z.div_mod (Z.max (brk h) 0) alignment). lia. }
  split; [lia|]. split; [apply Z.mod_mul; lia|]. split; [lia | done].
Qed.

Lemma malloc_align_spec (h : heap) (alignment size : Z) :
  0 < alignment ->
  exists p h', malloc_align h alignment size = Done (p, h')
    /\ 0 < p /\ p mod alignment = 0
    /\ blocks h' = <[p := replicate (Z.to_nat size) Byte.x00]> (blocks h).
Proof.
  intros Ha. pose proof (posix_memalign_aligned h alignment size Ha) as H.
  unfold malloc_align. destruct (posix_memalign h alignment size) as [[ret p] h'].
  destruct H as (-> & Hp & Hal & _ & Hb). simpl. by exists p, h'.
Qed.

Lemma malloc_align_fresh (h h' : heap) (alignment size p : Z) :
  0 < alignment -> malloc_align h alignment size = Done (p, h') -> brk h < p.
Proof.
  intros Ha. pose proof (posix_memalign_aligned h alignment size Ha) as H.
  unfold malloc_align. destruct (posix_memalign h alignment size) as [[ret q] h2].
  destruct H as (-> & _ & _ & Hlt & _). simpl. by intros [= <- <-].
Qed.

(** ** Image allocation *)

Lemma alloc_image_rgba_done (h : heap) (w ht : Z) :
  0 <= w * ht * 4 <= INT_MAX ->
  INT_MIN <= w * 4 <= INT_MAX ->
  exists h' d, alloc_image_rgba h w ht = Done (h', d)
    /\ size_in_bytes d = s32 (16 * ((w * ht * 4 + 15) / 16))
    /\ ptr d mod 16 = 0
    /\ blocks h' !! ptr d
       = Some (replicate (Z.to_nat (16 * ((w * ht * 4 + 15) / 16))) Byte.x00)
    /\ width d = w /\ height d = ht
    /\ depth d = 1 /\ sample_count d = 1
    /\ row_pitch_bytes d = w * 4
    /\ slice_pitch_bytes d = size_in_bytes d
    /\ sample_pitch_bytes d = size_in_bytes d.
Proof.
  unfold INT_MIN, INT_MAX. intros Hsz Hrow. unfold alloc_image_rgba, int_mul.
  rewrite (int_check_ok (w * ht)) by (unfold INT_MIN, INT_MAX; lia). step.
  rewrite (int_check_ok (w * ht * 4)) by (unfold INT_MIN, INT_MAX; lia). step.
  rewrite (usize_small (w * ht * 4)) by lia.
  rewrite (usize_small (w * ht * 4 + 16)) by lia.
  rewrite (usize_small (w * ht * 4 + 16 - 1)) by lia.
  rewrite land_round16 by lia.
  replace (w * ht * 4 + 16 - 1) with (w * ht * 4 + 15) by lia.
  destruct (malloc_align_spec h REQUIRED_MEMORY_ALIGNMENT (16 * ((w * ht * 4 + 15) / 16)))
    as (p & h' & -> & Hp & Hal & Hb); [done|].
  step. rewrite (int_check_ok (w * 4)) by (unfold INT_MIN, INT_MAX; lia). step.
  eexists _, _. split; [reflexivity|]. cbn [size_in_bytes ptr width height depth
    sample_count row_pitch_bytes slice_pitch_bytes sample_pitch_bytes].
  repeat split; try done.
  rewrite Hb. by rewrite lookup_insert_eq.
Qed.

(** C9 (amended).  When [width * height * 4] is non-negative, its round-up
    to a multiple of 16 fits an [int] ([width * height * 4 + 15 <= INT_MAX])
    and [width * 4] fits an [int], [alloc_image_rgba] returns a descriptor
    whose [size_in_bytes] is the least multiple of 16 that is at least
    [width * height * 4], whose buffer is an allocation of that many bytes
    at a 16-byte aligned address, and whose fields are [depth = 1],
    [sample_count = 1], [row_pitch_bytes = width * 4] and
    [slice_pitch_bytes = sample_pitch_bytes = size_in_bytes]. *)
Theorem alloc_image_rgba_spec (h : heap) (w ht : Z) :
  0 <= w * ht * 4 ->
  w * ht * 4 + 15 <= INT_MAX ->
  INT_MIN <= w * 4 <= INT_MAX ->
  exists h' d, alloc_image_rgba h w ht = Done (h', d)
    /\ size_in_bytes d mod 16 = 0
    /\ w * ht * 4 <= size_in_bytes d < w * ht * 4 + 16
    /\ ptr d mod 16 = 0
    /\ (exists bs, blocks h' !! ptr d = Some bs
                   /\ Z.of_nat (length bs) = size_in_bytes d)
    /\ width d = w /\ height d = ht
    /\ depth d = 1 /\ sample_count d = 1
    /\ row_pitch_bytes d = w * 4
    /\ slice_pitch_bytes d = size_in_bytes d
    /\ sample_pitch_bytes d = size_in_bytes d.
Proof.
  intros Hpos Hsz Hrow.
  destruct (alloc_image_rgba_done h w ht) as (h' & d & -> & Hsize & Hal & Hb & Hrest);
    [unfold INT_MAX in *; lia | done |].
  exists h', d. split; [done|].
  assert (Hround : 16 * ((w * ht * 4 + 15) / 16) mod 16 = 0
                   /\ w * ht * 4 <= 16 * ((w * ht * 4 + 15) / 16) < w * ht * 4 + 16).
  { unfold INT_MAX in *. split.
    - rewrite Z.mul_comm. apply Z.mod_mul. lia.
    - pose proof (Z.div_mod (w * ht * 4 + 15) 16).
      pose proof (Z.mod_pos_bound (w * ht * 4 + 15) 16). lia. }
  rewrite s32_small in Hsize by (unfold INT_MIN, INT_MAX in *; lia).
  rewrite Hsize. destruct Hround as [Hm Hr].
  split; [exact Hm|]. split; [exact Hr|]. split; [exact Hal|]. split.
  - eexists. split; [exact Hb|]. rewrite length_replicate. lia.
  - rewrite <- Hsize. exact Hrest.
Qed.

Lemma alloc_image_rgba_spec_witness :
  exists h' d, alloc_image_rgba heap_empty 3 5 = Done (h', d)
    /\ size_in_bytes d mod 16 = 0
    /\ 3 * 5 * 4 <= size_in_bytes d < 3 * 5 * 4 + 16
    /\ ptr d mod 16 = 0
    /\ (exists bs, blocks h' !! ptr d = Some bs
                   /\ Z.of_nat (length bs) = size_in_bytes d)
    /\ width d = 3 /\ height d = 5
    /\ depth d = 1 /\ sample_count d = 1
    /\ row_pitch_bytes d = 3 * 4
    /\ slice_pitch_bytes d = size_in_bytes d
    /\ sample_pitch_bytes d = size_in_bytes d.
Proof.
  apply (alloc_image_rgba_spec heap_empty 3 5); unfold INT_MIN, INT_MAX; lia.
Defined.

(** C9 as stated fails at the edge of the range of [int].  For a
    536870911 x 1 image, [width * height * 4 = 2147483644] is representable
    but its round-up 2147483648 is not: [size_in_bytes], an [int], holds
    -2147483648.  For a 1073741824 x 0 image, [width * height * 4 = 0] but
    [width * 4] overflows. *)
Lemma alloc_image_rgba_counterexample :
  (0 <= 536870911 * 1 * 4 <= INT_MAX
   /\ exists h' d, alloc_image_rgba heap_empty 536870911 1 = Done (h', d)
        /\ size_in_bytes d = -2147483648
        /\ size_in_bytes d <> 16 * ((536870911 * 1 * 4 + 15) / 16))
  /\ (0 <= 1073741824 * 0 * 4 <= INT_MAX
      /\ alloc_image_rgba heap_empty 1073741824 0 = Fault IntOverflow).
Proof.
  split.
  - split; [unfold INT_MAX; lia|].
    destruct (alloc_image_rgba_done heap_empty 536870911 1)
      as (h' & d & Heq & Hsize & _); [unfold INT_MAX; lia | unfold INT_MIN, INT_MAX; lia |].
    exists h', d. split; [exact Heq|].
    assert (Hs : s32 (16 * ((536870911 * 1 * 4 + 15) / 16)) = -2147483648)
      by (vm_compute; reflexivity).
    rewrite Hs in Hsize. rewrite Hsize. split; [reflexivity|].
    vm_compute. discriminate.
  - split; [unfold INT_MAX; lia|]. vm_compute. reflexivity.
Qed.

(** ** Heap lemmas *)

Lemma bind_done {A B : Type} (m : outcome A) (k : A -> outcome B) (b : B) :
  bind m k = Done b -> exists a, m = Done a /\ k a = Done b.
Proof. destruct m as [a| |]; simpl; [eauto | done | done]. Qed.

Lemma free_live (h : heap) (p : Z) (bs : list Byte.byte) :
  blocks h !! p = Some bs -> p <> NULL ->
  free h p = Done {| blocks := delete p (blocks h); brk := brk h |}.
Proof.
  intros Hb Hp. unfold free. destruct (Z.eqb_spec p NULL); [done|]. by rewrite Hb.
Qed.

Lemma memcpy_zero (h : heap) (dst : Z) (src : list Byte.byte) :
  memcpy h dst src 0 = Done h.
Proof. done. Qed.

Lemma memcpy_null (h : heap) (src : list Byte.byte) (n : Z) :
  n <> 0 -> memcpy h NULL src n = Fault NullPointer.
Proof. intros Hn. unfold memcpy. by destruct (Z.eqb_spec n 0). Qed.

Lemma memcpy_live (h : heap) (dst : Z) (src bs : list Byte.byte) (n : Z) :
  dst <> NULL -> blocks h !! dst = Some bs ->
  n <= Z.of_nat (length bs) -> n <= Z.of_nat (length src) ->
  exists h', memcpy h dst src n = Done h'
    /\ brk h' = brk h
    /\ (n = 0 -> h' = h)
    /\ (n <> 0 ->
        blocks h' = <[dst := take (Z.to_nat n) src ++ drop (Z.to_nat n) bs]> (blocks h)).
Proof.
  intros Hd Hb Hn Hs. unfold memcpy.
  destruct (Z.eqb_spec n 0) as [->|Hn0]; [by exists h|].
  destruct (Z.eqb_spec dst NULL); [done|]. rewrite Hb.
  destruct (Z.leb_spec n (Z.of_nat (length bs))); [|lia].
  destruct (Z.leb_spec n (Z.of_nat (length src))); [|lia].
  simpl. eexists. split; [reflexivity|]. simpl. done.
Qed.

Lemma memcpy_done (h h' : heap) (dst : Z) (src : list Byte.byte) (n : Z) :
  memcpy h dst src n = Done h' ->
  brk h' = brk h
  /\ (n = 0 /\ h' = h
      \/ n <> 0 /\ dst <> NULL /\ exists bs,
           blocks h !! dst = Some bs
           /\ n <= Z.of_nat (length bs) /\ n <= Z.of_nat (length src)
           /\ blocks h' = <[dst := take (Z.to_nat n) src ++ drop (Z.to_nat n) bs]>
                            (blocks h)).
Proof.
  unfold memcpy. destruct (Z.eqb_spec n 0) as [->|Hn0].
  { intros [= <-]. split; [done | by left]. }
  destruct (Z.eqb_spec dst NULL); [done|].
  destruct (blocks h !! dst) as [bs|] eqn:Hb; [|done].
  destruct (Z.leb_spec n (Z.of_nat (length bs))); [|done].
  destruct (Z.leb_spec n (Z.of_nat (length src))); [|done].
  simpl. intros [= <-]. split; [done|]. right. eauto 10.
Qed.

Section Prepare.

Context {W : Type}.

Implicit Types (ctx : dispatch_context W) (info : program_info W).

Lemma desc_set_reserve_done h ctx info h' p size :
  desc_set_reserve h ctx info = Done (h', p, size) ->
  (usize (desc_set_size ctx) < info_desc_set_size info
   /\ size = s32 (info_desc_set_size info)
   /\ 0 < p /\ p mod 16 = 0
   /\ blocks h' !! p = Some (replicate (Z.to_nat (info_desc_set_size info)) Byte.x00))
  \/ (info_desc_set_size info <= usize (desc_set_size ctx)
      /\ h' = h /\ p = descriptor_set ctx /\ size = desc_set_size ctx).
Proof.
  unfold desc_set_reserve.
  destruct (Z.ltb_spec (usize (desc_set_size ctx)) (info_desc_set_size info)) as [Hlt|Hge].
  - intros H. apply bind_done in H as (h1 & _ & H).
    destruct (malloc_align_spec h1 16 (info_desc_set_size info))
      as (q & h2 & Hm & Hq & Hal & Hb); [lia|].
    rewrite Hm in H. simpl in H. injection H as <- <- <-.
    left. repeat split; try done. rewrite Hb. by rewrite lookup_insert_eq.
  - intros [= <- <- <-]. right. done.
Qed.

Lemma subgroup_counts_done info :
  let n := workgroup_size_x info * workgroup_size_y info * workgroup_size_z info in
  INT_MIN <= workgroup_size_x info * workgroup_size_y info <= INT_MAX ->
  INT_MIN <= n -> n + SIMD_WIDTH <= INT_MAX ->
  subgroup_counts info = Done (n, Z.quot (n + SIMD_WIDTH - 1) SIMD_WIDTH).
Proof.
  intros n Hxy Hlo Hhi. unfold subgroup_counts, int_mul, int_add, int_sub, int_div.
  unfold SIMD_WIDTH in *.
  rewrite int_check_ok by done. step. fold n.
  rewrite (int_check_ok n) by (unfold INT_MIN, INT_MAX in *; lia). step.
  rewrite int_check_ok by (unfold INT_MIN, INT_MAX in *; lia). step.
  rewrite int_check_ok by (unfold INT_MIN, INT_MAX in *; lia). step.
  simpl. rewrite int_check_ok; [done|].
  unfold INT_MIN, INT_MAX in *.
  pose proof (Z.quot_rem' (n + 4 - 1) 4).
  pose proof (Z.rem_bound_abs (n + 4 - 1) 4). lia.
Qed.

Lemma prepare_dispatch_done h ctx T info ds gx gy gz h' ctx' :
  prepare_dispatch h ctx T info ds gx gy gz = Done (h', ctx') ->
  exists h1 p size ipw spw,
    desc_set_reserve h ctx info = Done (h1, p, size)
    /\ memcpy h1 p ds (info_desc_set_size info) = Done h'
    /\ subgroup_counts info = Done (ipw, spw)
    /\ ctx' = prepared ctx T info gx gy gz p size ipw spw.
Proof.
  unfold prepare_dispatch. intros H.
  apply bind_done in H as ([[h1 p] size] & Hres & H).
  apply bind_done in H as (h2 & Hcpy & H).
  apply bind_done in H as ([ipw spw] & Hcnt & H).
  injection H as <- <-. by exists h1, p, size, ipw, spw.
Qed.

Lemma prepare_dispatch_compose h ctx T info ds gx gy gz h1 p size h' ipw spw :
  desc_set_reserve h ctx info = Done (h1, p, size) ->
  memcpy h1 p ds (info_desc_set_size info) = Done h' ->
  subgroup_counts info = Done (ipw, spw) ->
  prepare_dispatch h ctx T info ds gx gy gz
  = Done (h', prepared ctx T info gx gy gz p size ipw spw).
Proof.
  intros Hr Hc Hs. unfold prepare_dispatch. rewrite Hr. step. rewrite Hc. step.
  rewrite Hs. done.
Qed.

Lemma memcpy_twice (h h1 : heap) (p : Z) (ds : list Byte.byte) (n : Z) :
  0 <= n ->
  memcpy h p ds n = Done h1 ->
  exists h2, memcpy h1 p ds n = Done h2 /\ blocks h2 !! p = blocks h1 !! p.
Proof.
  intros Hn H. apply memcpy_done in H as [_ [[-> ->]|(Hn0 & Hp & bs & Hb & Hl & Hs & Hh1)]].
  { exists h. by rewrite memcpy_zero. }
  assert (Hb1 : blocks h1 !! p
                = Some (take (Z.to_nat n) ds ++ drop (Z.to_nat n) bs)).
  { rewrite Hh1. by rewrite lookup_insert_eq. }
  destruct (memcpy_live h1 p ds _ n Hp Hb1) as (h2 & -> & _ & _ & Hh2).
  { rewrite length_app, length_take, length_drop. lia. }
  { done. }
  exists h2. split; [done|]. rewrite Hh2 by done. rewrite lookup_insert_eq, Hb1.
  do 2 f_equal. apply drop_app_length'. rewrite length_take. lia.
Qed.

Lemma free_brk (h h' : heap) (p : Z) : free h p = Done h' -> brk h' = brk h.
Proof.
  unfold free. destruct (Z.eqb_spec p NULL); [by intros [= <-]|].
  destruct (blocks h !! p); [by intros [= <-] | done].
Qed.

Lemma desc_set_reserve_grow h ctx info :
  storage_ok h ctx ->
  desc_set_size ctx < info_desc_set_size info ->
  exists h1 p, desc_set_reserve h ctx info = Done (h1, p, s32 (info_desc_set_size info))
    /\ 0 < p /\ p mod 16 = 0 /\ brk h < p
    /\ blocks h1 !! p = Some (replicate (Z.to_nat (info_desc_set_size info)) Byte.x00).
Proof.
  intros [Hsz Hst] Hlt. unfold desc_set_reserve.
  rewrite usize_small by (unfold INT_MAX in *; lia).
  destruct (Z.ltb_spec (desc_set_size ctx) (info_desc_set_size info)); [|lia].
  assert (Hfree : exists h0, (if descriptor_set ctx =? NULL then Done h
                              else free h (descriptor_set ctx)) = Done h0
                             /\ brk h0 = brk h).
  { destruct Hst as [[-> _]|(Hp & bs & Hb & _)].
    - by exists h.
    - destruct (Z.eqb_spec (descriptor_set ctx) NULL); [done|].
      rewrite (free_live h _ _ Hb) by done. eexists. by split. }
  destruct Hfree as (h0 & -> & Hbrk). step.
  destruct (malloc_align_spec h0 16 (info_desc_set_size info))
    as (p & h1 & Hm & Hp & Hal & Hb); [lia|].
  pose proof (malloc_align_fresh h0 h1 16 _ p ltac:(lia) Hm) as Hfresh.
  rewrite Hm. step. exists h1, p. split; [done|].
  repeat split; try done; try lia. rewrite Hb. by rewrite lookup_insert_eq.
Qed.

Lemma desc_set_reserve_keep h ctx info :
  0 <= desc_set_size ctx <= INT_MAX ->
  info_desc_set_size info <= desc_set_size ctx ->
  desc_set_reserve h ctx info = Done (h, descriptor_set ctx, desc_set_size ctx).
Proof.
  intros Hsz Hle. unfold desc_set_reserve.
  rewrite usize_small by (unfold INT_MAX in *; lia).
  destruct (Z.ltb_spec (desc_set_size ctx) (info_desc_set_size info)); [lia | done].
Qed.

Lemma subgroup_counts_fits info :
  workgroup_fits info ->
  let n := workgroup_size_x info * workgroup_size_y info * workgroup_size_z info in
  subgroup_counts info = Done (n, (n + 3) / 4)
  /\ 0 <= n /\ 4 * ((n + 3) / 4 - 1) < n <= 4 * ((n + 3) / 4)
  /\ 0 <= (n + 3) / 4 <= INT_MAX.
Proof.
  intros (Hx & Hy & Hz & Hxy & Hn) n. unfold SIMD_WIDTH in *.
  assert (Hn0 : 0 <= n) by (subst n; apply Z.mul_nonneg_nonneg; lia).
  rewrite subgroup_counts_done; fold n; unfold SIMD_WIDTH, INT_MIN, INT_MAX in *;
    try lia.
  replace (n + 4 - 1) with (n + 3) by lia.
  rewrite Z.quot_div_nonneg by lia.
  pose proof (Z.div_mod (n + 3) 4). pose proof (Z.mod_pos_bound (n + 3) 4).
  repeat split; lia.
Qed.

(** C6 (amended).  On a context whose storage is well formed, with a
    descriptor-set size that fits the context's [int] field (at most
    [INT_MAX]) and a caller buffer holding that many bytes,
    [prepare_dispatch] returns.  It allocates only when
    the program's [desc_set_size] strictly exceeds the recorded capacity
    (the new capacity is then that size); otherwise the buffer, the
    capacity and the allocator's state are left alone.  So the recorded
    capacity never decreases and is at least the size asked for; and in
    both cases the first [desc_set_size] bytes of the context's storage are
    the caller's bytes. *)
Theorem prepare_dispatch_storage h ctx T info ds gx gy gz :
  storage_ok h ctx ->
  0 <= info_desc_set_size info <= INT_MAX ->
  info_desc_set_size info <= Z.of_nat (length ds) ->
  workgroup_fits info ->
  exists h' ctx',
    prepare_dispatch h ctx T info ds gx gy gz = Done (h', ctx')
    /\ storage_ok h' ctx'
    /\ (desc_set_size ctx < info_desc_set_size info ->
        desc_set_size ctx' = info_desc_set_size info
        /\ brk h < descriptor_set ctx')
    /\ (info_desc_set_size info <= desc_set_size ctx ->
        descriptor_set ctx' = descriptor_set ctx
        /\ desc_set_size ctx' = desc_set_size ctx
        /\ brk h' = brk h)
    /\ desc_set_size ctx <= desc_set_size ctx'
    /\ info_desc_set_size info <= desc_set_size ctx'
    /\ (0 < info_desc_set_size info ->
        exists bs, blocks h' !! descriptor_set ctx' = Some bs
          /\ take (Z.to_nat (info_desc_set_size info)) bs
             = take (Z.to_nat (info_desc_set_size info)) ds).
Proof.
  intros Hok Hn Hds Hfit. set (n := info_desc_set_size info) in *.
  destruct (subgroup_counts_fits info Hfit) as (Hcnt & _).
  destruct (Z.lt_ge_cases (desc_set_size ctx) n) as [Hlt|Hge].
  - destruct (desc_set_reserve_grow h ctx info Hok Hlt)
      as (h1 & p & Hres & Hp & Hal & Hfresh & Hb).
    fold n in Hres, Hb.
    destruct (memcpy_live h1 p ds _ n ltac:(unfold NULL; lia) Hb)
      as (h' & Hcpy & Hbrk & _ & Hh'); [rewrite length_replicate; lia | done |].
    eexists _, _. split; [exact (prepare_dispatch_compose _ _ _ _ _ _ _ _ _ _ _ _ _ _
                                   Hres Hcpy Hcnt)|].
    destruct Hok as [Hsz _]. rewrite s32_small by (unfold INT_MIN, INT_MAX in *; lia).
    assert (Hn0 : n <> 0) by lia.
    assert (Hb' : blocks h' !! p
              = Some (take (Z.to_nat n) ds
                      ++ drop (Z.to_nat n) (replicate (Z.to_nat n) Byte.x00))).
    { rewrite Hh' by done. by rewrite lookup_insert_eq. }
    unfold storage_ok. cbn [prepared descriptor_set desc_set_size].
    split; [|split; [done|split; [lia|split; [lia|split; [lia|]]]]].
    + split; [done|]. right. split; [unfold NULL; lia|].
      eexists. split; [exact Hb'|].
      rewrite length_app, length_take, length_drop, length_replicate. lia.
    + intros _. eexists. split; [exact Hb'|].
      rewrite take_app_le by (rewrite length_take; lia).
      rewrite take_take. f_equal. lia.
  - pose proof Hok as [Hsz Hst].
    pose proof (desc_set_reserve_keep h ctx info Hsz Hge) as Hres.
    assert (Hcpy : exists h', memcpy h (descriptor_set ctx) ds n = Done h'
              /\ brk h' = brk h
              /\ storage_ok h' ctx
              /\ (0 < n -> exists bs, blocks h' !! descriptor_set ctx = Some bs
                     /\ take (Z.to_nat n) bs = take (Z.to_nat n) ds)).
    { destruct Hst as [[Hnull H0]|(Hp & bs & Hb & Hlen)].
      - assert (n = 0) as -> by lia. exists h. rewrite memcpy_zero.
        split; [done|]. split; [done|]. split; [|lia]. split; [done | by left].
      - destruct (memcpy_live h _ ds bs n Hp Hb) as (h' & -> & Hbrk & Hz & Hh');
          [lia | done |].
        exists h'. split; [done|]. split; [done|].
        destruct (Z.eq_dec n 0) as [H0|H0].
        + rewrite (Hz H0). split; [done | lia].
        + assert (Hb' : blocks h' !! descriptor_set ctx
                    = Some (take (Z.to_nat n) ds ++ drop (Z.to_nat n) bs)).
          { rewrite Hh' by done. by rewrite lookup_insert_eq. }
          split.
          * split; [done|]. right. split; [done|]. eexists. split; [exact Hb'|].
            rewrite length_app, length_take, length_drop. lia.
          * intros _. eexists. split; [exact Hb'|].
            rewrite take_app_le by (rewrite length_take; lia).
            rewrite take_take. f_equal. lia. }
    destruct Hcpy as (h' & Hcpy & Hbrk & Hok' & Hbytes).
    eexists _, _. split; [exact (prepare_dispatch_compose _ _ _ _ _ _ _ _ _ _ _ _ _ _
                                   Hres Hcpy Hcnt)|].
    cbn [prepared descriptor_set desc_set_size].
    split; [exact Hok'|]. split; [lia|]. split; [done|].
    split; [lia|]. split; [lia | exact Hbytes].
Qed.

Lemma same_dispatch_prepared ctx T info gx gy gz p1 p2 size ipw spw h1 h2 :
  blocks h1 !! p1 = blocks h2 !! p2 ->
  same_dispatch
    (h1, prepared ctx T info gx gy gz p1 size ipw spw)
    (h2, prepared (prepared ctx T info gx gy gz p1 size ipw spw)
                  T info gx gy gz p2 size ipw spw).
Proof. intros Hb. unfold same_dispatch, prepared. simpl. repeat split; done. Qed.

(** C7.  [prepare_dispatch] is idempotent: after a call that returns, a
    second call with the same thread count, program, descriptor-set bytes
    and grid returns as well, and leaves a context that differs from the
    first at most in the address of the descriptor-set buffer. *)
Theorem prepare_dispatch_idempotent h ctx T info ds gx gy gz h1 ctx1 :
  0 <= info_desc_set_size info ->
  prepare_dispatch h ctx T info ds gx gy gz = Done (h1, ctx1) ->
  exists h2 ctx2,
    prepare_dispatch h1 ctx1 T info ds gx gy gz = Done (h2, ctx2)
    /\ same_dispatch (h1, ctx1) (h2, ctx2).
Proof.
  intros Hn H.
  apply prepare_dispatch_done in H
    as (ha & p & size & ipw & spw & Hres & Hcpy & Hcnt & ->).
  set (ctx1 := prepared ctx T info gx gy gz p size ipw spw).
  assert (Hsz : desc_set_size ctx1 = size) by reflexivity.
  destruct (Z.ltb_spec (usize (desc_set_size ctx1)) (info_desc_set_size info))
    as [Hlt|Hge].
  - (* the second call reallocates: only after a first call that did *)
    rewrite Hsz in Hlt.
    apply desc_set_reserve_done in Hres
      as [(_ & -> & Hp & Hal & Hb)|(Hle & -> & -> & ->)]; [|lia].
    assert (Hpos : 0 < info_desc_set_size info).
    { unfold usize in Hlt.
      pose proof (Z.mod_pos_bound (s32 (info_desc_set_size info)) (2^64)). lia. }
    apply memcpy_done in Hcpy
      as [_ [[H0 _]|(Hn0 & _ & bs & Hbs & _ & Hs & Hh1)]]; [lia|].
    rewrite Hb in Hbs. injection Hbs as <-.
    assert (Hb1 : blocks h1 !! p
              = Some (take (Z.to_nat (info_desc_set_size info)) ds
                      ++ drop (Z.to_nat (info_desc_set_size info))
                           (replicate (Z.to_nat (info_desc_set_size info)) Byte.x00))).
    { rewrite Hh1. by rewrite lookup_insert_eq. }
    destruct (malloc_align_spec
                {| blocks := delete p (blocks h1); brk := brk h1 |}
                16 (info_desc_set_size info))
      as (p2 & hb & Hm & Hp2 & Hal2 & Hbb); [lia|].
    assert (Hbb2 : blocks hb !! p2
              = Some (replicate (Z.to_nat (info_desc_set_size info)) Byte.x00)).
    { rewrite Hbb. by rewrite lookup_insert_eq. }
    destruct (memcpy_live hb p2 ds _ (info_desc_set_size info) ltac:(unfold NULL; lia) Hbb2)
      as (h2 & Hc2 & _ & _ & Hh2); [rewrite length_replicate; lia | done |].
    exists h2, (prepared ctx1 T info gx gy gz p2 (s32 (info_desc_set_size info)) ipw spw).
    split.
    + apply prepare_dispatch_compose with (h1 := hb); try done.
      unfold desc_set_reserve. rewrite Hsz.
      destruct (Z.ltb_spec (usize (s32 (info_desc_set_size info)))
                  (info_desc_set_size info)); [|lia].
      change (descriptor_set ctx1) with p.
      destruct (Z.eqb_spec p NULL); [unfold NULL in *; lia|].
      rewrite (free_live h1 p _ Hb1) by done. step. rewrite Hm. done.
    + apply same_dispatch_prepared. rewrite Hb1, Hh2 by done.
      by rewrite lookup_insert_eq.
  - (* the second call keeps the buffer and copies the same bytes again *)
    destruct (memcpy_twice ha h1 p ds _ Hn Hcpy) as (h2 & Hc2 & Hb2).
    exists h2, (prepared ctx1 T info gx gy gz p size ipw spw).
    split.
    + apply prepare_dispatch_compose with (h1 := h1); try done.
      unfold desc_set_reserve.
      destruct (Z.ltb_spec (usize (desc_set_size ctx1)) (info_desc_set_size info));
        [lia | done].
    + apply same_dispatch_prepared. done.
Qed.

Lemma desc_set_bound_alloc : desc_set_bound (@alloc_dispatch_context W).
Proof. unfold desc_set_bound. simpl. lia. Qed.

Lemma desc_set_bound_prepare h ctx T info ds gx gy gz h' ctx' :
  desc_set_bound ctx ->
  prepare_dispatch h ctx T info ds gx gy gz = Done (h', ctx') ->
  desc_set_bound ctx'.
Proof.
  intros Hb H.
  apply prepare_dispatch_done in H
    as (ha & p & size & ipw & spw & Hres & _ & _ & ->).
  unfold desc_set_bound in *. cbn [prepared descriptor_set desc_set_size].
  apply desc_set_reserve_done in Hres as [(_ & _ & Hp & _)|(_ & _ & -> & ->)].
  - unfold NULL. lia.
  - done.
Qed.

(** C10.  [free_dispatch_context] frees the descriptor-set buffer and
    nulls the pointer but keeps [desc_set_size].  The invariant
    [desc_set_bound], which [alloc_dispatch_context] establishes and
    [prepare_dispatch] preserves, therefore fails after freeing a context
    with a positive recorded capacity; and every later [prepare_dispatch]
    on that context for a program whose [desc_set_size] is positive and at
    most the stale capacity skips the allocation and copies the descriptor
    set to the null pointer. *)
Theorem free_dispatch_context_stale h ctx h' ctx' :
  desc_set_bound ctx ->
  0 < desc_set_size ctx <= INT_MAX ->
  free_dispatch_context h ctx = Done (h', ctx') ->
  descriptor_set ctx' = NULL
  /\ desc_set_size ctx' = desc_set_size ctx
  /\ blocks h' !! descriptor_set ctx = None
  /\ ~ desc_set_bound ctx'
  /\ (forall T info ds gx gy gz,
        0 < info_desc_set_size info <= desc_set_size ctx' ->
        desc_set_reserve h' ctx' info = Done (h', NULL, desc_set_size ctx')
        /\ prepare_dispatch h' ctx' T info ds gx gy gz = Fault NullPointer)
  /\ desc_set_bound (@alloc_dispatch_context W)
  /\ (forall h0 c0 T info ds gx gy gz h1 c1,
        desc_set_bound c0 ->
        prepare_dispatch h0 c0 T info ds gx gy gz = Done (h1, c1) ->
        desc_set_bound c1).
Proof.
  intros Hb Hsz Hfree. unfold free_dispatch_context in Hfree.
  pose proof (Hb ltac:(lia)) as Hp.
  destruct (Z.eqb_spec (descriptor_set ctx) NULL); [done|].
  apply bind_done in Hfree as (h1 & Hf & Hfree). injection Hfree as <- <-.
  cbn [descriptor_set desc_set_size].
  split; [done|]. split; [done|]. split.
  { unfold free in Hf. destruct (Z.eqb_spec (descriptor_set ctx) NULL); [done|].
    destruct (blocks h !! descriptor_set ctx); [|done].
    injection Hf as <-. simpl. by rewrite lookup_delete_eq. }
  split.
  { unfold desc_set_bound. cbn [descriptor_set desc_set_size]. intros H.
    by apply H; [lia|]. }
  split; [|split; [exact desc_set_bound_alloc | exact desc_set_bound_prepare]].
  intros T info ds gx gy gz Hn.
  set (freed := {| descriptor_set := NULL; desc_set_size := desc_set_size ctx;
                   nthreads := nthreads ctx; has_cbarriers := has_cbarriers ctx;
                   memory_size := memory_size ctx; begin := begin ctx;
                   await := await ctx; destroy := destroy ctx; data := data ctx |}).
  assert (Hres : desc_set_reserve h1 freed info = Done (h1, NULL, desc_set_size ctx)).
  { apply (desc_set_reserve_keep h1 freed info); cbn [freed desc_set_size]; lia. }
  split; [exact Hres|].
  unfold prepare_dispatch. rewrite Hres. step.
  rewrite memcpy_null by lia. done.
Qed.

End Prepare.

Lemma storage_ok_alloc (h : heap) :
  storage_ok h (@alloc_dispatch_context test_world).
Proof. split; [unfold INT_MAX; simpl; lia | by left]. Qed.

Lemma workgroup_fits_sized (n : Z) : workgroup_fits (sized_info n).
Proof. unfold workgroup_fits, SIMD_WIDTH, INT_MAX. simpl. lia. Qed.

(** Sizes 64 then 32 keep the buffer and the capacity 64; sizes 64 then
    128 replace the buffer and record 128. *)
Example prepare_dispatch_64_32_128 :
  (p1 <- prepare_dispatch heap_empty alloc_dispatch_context 1 (sized_info 64)
           (bytes_of 64) 1 1 1 ;;
   p2 <- prepare_dispatch (fst p1) (snd p1) 1 (sized_info 32) (bytes_of 32) 1 1 1 ;;
   p3 <- prepare_dispatch (fst p1) (snd p1) 1 (sized_info 128) (bytes_of 128) 1 1 1 ;;
   Done (desc_set_size (snd p1), descriptor_set (snd p1),
         desc_set_size (snd p2), descriptor_set (snd p2),
         desc_set_size (snd p3), descriptor_set (snd p3)))
  = Done (64, 16, 64, 16, 128, 96).
Proof. vm_compute. reflexivity. Qed.

Lemma prepare_dispatch_storage_witness :
  exists h' ctx',
    prepare_dispatch heap_empty alloc_dispatch_context 1 (sized_info 64)
      (bytes_of 64) 1 1 1 = Done (h', ctx')
    /\ desc_set_size ctx' = 64
    /\ exists bs, blocks h' !! descriptor_set ctx' = Some bs
                  /\ take 64 bs = take 64 (bytes_of 64).
Proof.
  destruct (prepare_dispatch_storage heap_empty alloc_dispatch_context 1
              (sized_info 64) (bytes_of 64) 1 1 1)
    as (h' & ctx' & Heq & _ & Hgrow & _ & _ & _ & Hbytes).
  - apply storage_ok_alloc.
  - unfold INT_MAX. simpl. lia.
  - simpl. lia.
  - apply workgroup_fits_sized.
  - exists h', ctx'. split; [exact Heq|]. split.
    + apply Hgrow. simpl. lia.
    + apply Hbytes. simpl. lia.
Defined.

(** C6 as stated fails for sizes beyond the context's [int] field.  After
    a dispatch with a 64-byte descriptor set, a program whose descriptor
    set has 2^31 bytes makes [prepare_dispatch] allocate 2^31 bytes and
    record the capacity -2^31: the recorded capacity has decreased. *)
Lemma prepare_dispatch_capacity_counterexample :
  exists h1 c1 h2 c2,
    prepare_dispatch heap_empty alloc_dispatch_context 1 (sized_info 64)
      (bytes_of 64) 1 1 1 = Done (h1, c1)
    /\ desc_set_size c1 = 64
    /\ prepare_dispatch h1 c1 1 (sized_info 2147483648)
         (bytes_of (Z.to_nat 2147483648)) 1 1 1 = Done (h2, c2)
    /\ desc_set_size c2 = -2147483648
    /\ desc_set_size c2 < desc_set_size c1.
Proof.
  destruct (prepare_dispatch heap_empty alloc_dispatch_context 1 (sized_info 64)
              (bytes_of 64) 1 1 1) as [[h1 c1]|f|] eqn:Heq;
    [|vm_compute in Heq; discriminate..].
  assert (Hsz : desc_set_size c1 = 64).
  { vm_compute in Heq. by injection Heq as <- <-. }
  assert (Hok : storage_ok h1 c1).
  { vm_compute in Heq. injection Heq as <- <-. split.
    - unfold INT_MAX. simpl. lia.
    - right. split; [discriminate|]. eexists. split; [vm_compute; reflexivity|].
      reflexivity. }
  set (n := 2147483648) in *.
  assert (Hn : info_desc_set_size (sized_info n) = n) by reflexivity.
  destruct (desc_set_reserve_grow h1 c1 (sized_info n) Hok)
    as (ha & p & Hres & Hp & _ & _ & Hb); [rewrite Hsz, Hn; subst n; lia|].
  rewrite Hn in Hres, Hb.
  destruct (memcpy_live ha p (bytes_of (Z.to_nat n)) _ n ltac:(unfold NULL; lia) Hb)
    as (h2 & Hcpy & _).
  { rewrite length_replicate. subst n. lia. }
  { unfold bytes_of. rewrite length_replicate. subst n. lia. }
  destruct (subgroup_counts_fits (sized_info n) (workgroup_fits_sized n)) as (Hcnt & _).
  rewrite <- Hn in Hcpy at 2.
  pose proof (prepare_dispatch_compose h1 c1 1 (sized_info n)
                (bytes_of (Z.to_nat n)) 1 1 1 _ _ _ _ _ _ Hres Hcpy Hcnt) as H2.
  eexists h1, c1, h2, _. split; [reflexivity|]. split; [exact Hsz|].
  split; [exact H2|].
  cbn [prepared desc_set_size]. rewrite Hsz.
  assert (Hs : s32 n = -2147483648) by (subst n; vm_compute; reflexivity).
  rewrite Hs. split; [reflexivity | lia].
Qed.

Lemma prepare_dispatch_idempotent_witness :
  exists h1 ctx1 h2 ctx2,
    prepare_dispatch heap_empty alloc_dispatch_context 2 (test_info false 4 1 1)
      test_desc_set 2 1 1 = Done (h1, ctx1)
    /\ prepare_dispatch h1 ctx1 2 (test_info false 4 1 1) test_desc_set 2 1 1
       = Done (h2, ctx2)
    /\ same_dispatch (h1, ctx1) (h2, ctx2).
Proof.
  destruct (prepare_dispatch heap_empty alloc_dispatch_context 2
              (test_info false 4 1 1) test_desc_set 2 1 1)
    as [[h1 ctx1]|f|] eqn:Heq; [|vm_compute in Heq; discriminate..].
  destruct (prepare_dispatch_idempotent heap_empty alloc_dispatch_context 2
              (test_info false 4 1 1) test_desc_set 2 1 1 h1 ctx1)
    as (h2 & ctx2 & H2 & Hsame); [simpl; lia | exact Heq |].
  exists h1, ctx1, h2, ctx2. done.
Defined.

Lemma free_dispatch_context_stale_witness :
  exists h1 c1 h2 c2,
    prepare_dispatch heap_empty alloc_dispatch_context 2 (test_info false 4 1 1)
      test_desc_set 2 1 1 = Done (h1, c1)
    /\ free_dispatch_context h1 c1 = Done (h2, c2)
    /\ ~ desc_set_bound c2
    /\ prepare_dispatch h2 c2 2 (test_info false 4 1 1) test_desc_set 2 1 1
       = Fault NullPointer.
Proof.
  destruct (prepare_dispatch heap_empty alloc_dispatch_context 2
              (test_info false 4 1 1) test_desc_set 2 1 1)
    as [[h1 c1]|f|] eqn:Heq; [|vm_compute in Heq; discriminate..].
  assert (Hb : desc_set_bound c1).
  { eapply desc_set_bound_prepare; [apply desc_set_bound_alloc | exact Heq]. }
  assert (Hsz : desc_set_size c1 = 4).
  { vm_compute in Heq. by injection Heq as <- <-. }
  destruct (free_dispatch_context h1 c1) as [[h2 c2]|f|] eqn:Hfree.
  - destruct (free_dispatch_context_stale h1 c1 h2 c2 Hb)
      as (_ & Hsame & _ & Hnot & Hlater & _);
      [rewrite Hsz; unfold INT_MAX; lia | exact Hfree |].
    exists h1, c1, h2, c2. repeat split; try done.
    apply Hlater. rewrite Hsame, Hsz. simpl. lia.
  - vm_compute in Heq. injection Heq as <- <-. vm_compute in Hfree. discriminate.
  - vm_compute in Heq. injection Heq as <- <-. vm_compute in Hfree. discriminate.
Defined.

Lemma begun_app (a b : list event) : begun (a ++ b) = begun a ++ begun b.
Proof. induction a as [|[] a IH]; simpl; by rewrite ?IH. Qed.

Lemma destroyed_app (a b : list event) :
  destroyed (a ++ b) = destroyed a ++ destroyed b.
Proof. induction a as [|[] a IH]; simpl; by rewrite ?IH. Qed.

Lemma begin_args_app (a b : list event) :
  begin_args (a ++ b) = begin_args a ++ begin_args b.
Proof. induction a as [|[] a IH]; simpl; by rewrite ?IH. Qed.

Lemma drained_begun (l : list coroutine) (tr : list event) :
  drained l tr -> begun tr = [] /\ begin_args tr = [].
Proof. induction 1; simpl; done. Qed.

Lemma drained_destroyed (l : list coroutine) (tr : list event) :
  drained l tr -> Permutation (destroyed tr) l.
Proof.
  induction 1 as [|r l tr _ IH|r l tr _ IH]; simpl.
  - done.
  - rewrite IH. by rewrite Permutation_app_comm.
  - by rewrite IH.
Qed.

(** ** The scratch memory of a thread *)

Lemma thread_memory_reserve_spec {W : Type} (h : heap) (ctx : dispatch_context W)
    (thread : thread_context) :
  scratch_ok h thread ->
  0 <= memory_size ctx ->
  exists h' thread',
    thread_memory_reserve h ctx thread = Done (h', thread')
    /\ scratch_ok h' thread'
    /\ thread_routines thread' = thread_routines thread
    /\ memory_size ctx <= thread_memory_size thread'
    /\ thread_memory_size thread <= thread_memory_size thread'
    /\ (thread_memory_size thread < memory_size ctx ->
        thread_memory_size thread' = memory_size ctx
        /\ brk h < thread_memory thread')
    /\ (memory_size ctx <= thread_memory_size thread ->
        thread' = thread /\ h' = h).
Proof.
  intros (Hsz & Hal & Hst) Hm. unfold thread_memory_reserve.
  destruct (Z.ltb_spec (thread_memory_size thread) (memory_size ctx)) as [Hlt|Hge].
  - assert (Hfree : exists h0, (if thread_memory thread =? NULL then Done h
                                else free h (thread_memory thread)) = Done h0
                               /\ brk h0 = brk h).
    { destruct Hst as [[-> _]|(Hp & bs & Hb & _)].
      - by exists h.
      - destruct (Z.eqb_spec (thread_memory thread) NULL); [done|].
        rewrite (free_live h _ _ Hb) by done. eexists. by split. }
    destruct Hfree as (h0 & -> & Hbrk). step.
    destruct (malloc_align_spec h0 16 (memory_size ctx))
      as (p & h1 & Hma & Hp & Hpal & Hb); [lia|].
    pose proof (malloc_align_fresh h0 h1 16 _ p ltac:(lia) Hma) as Hfresh.
    rewrite Hma. step. eexists _, _. split; [reflexivity|].
    cbn [thread_memory thread_memory_size thread_routines].
    split.
    { unfold scratch_ok. cbn [thread_memory thread_memory_size].
      split; [lia|]. split; [done|]. right. split; [unfold NULL; lia|].
      eexists. split; [rewrite Hb; by rewrite lookup_insert_eq|].
      rewrite length_replicate. lia. }
    split; [done|]. split; [lia|]. split; [lia|]. split; [lia|]. lia.
  - exists h, thread. split; [done|]. split; [done|]. split; [done|].
    split; [lia|]. split; [lia|]. split; [lia | done].
Qed.

(** ** The loops of [dispatch_thread] *)

(** *** The workgroup memory passed to [begin] *)

Section Memory.

Context {W : Type}.
Variable ctx : dispatch_context W.
Variable memory : Z.

Implicit Types (st : run_state W).

Lemma extends_refl st : extends_with_memory memory st st.
Proof. exists []. by rewrite app_nil_r. Qed.

Lemma extends_trans st1 st2 st3 :
  extends_with_memory memory st1 st2 -> extends_with_memory memory st2 st3 ->
  extends_with_memory memory st1 st3.
Proof.
  intros (e1 & H1 & F1) (e2 & H2 & F2). exists (e1 ++ e2). split.
  - by rewrite H2, H1, app_assoc.
  - by apply Forall_app.
Qed.

Lemma spawn_memory x y z first cnt st st' :
  spawn ctx memory x y z first cnt st = Done st' -> extends_with_memory memory st st'.
Proof.
  unfold spawn. intros H. apply bind_done in H as (f & _ & H).
  destruct (f (data ctx) x y z memory first cnt (rs_world st)) as [r w].
  apply bind_done in H as (q & _ & H). injection H as <-.
  eexists. split; [reflexivity|]. by repeat constructor.
Qed.

Lemma spawn_subgroups_memory x y z (fuel : nat) :
  forall s st st',
  spawn_subgroups fuel ctx memory x y z s st = Done st' ->
  extends_with_memory memory st st'.
Proof.
  induction fuel as [|fuel IH]; intros s st st'; simpl; [done|].
  destruct (u32 s <? subgroups_per_workgroup (data ctx)).
  - intros H. apply bind_done in H as (st1 & H1 & H).
    apply bind_done in H as (s' & _ & H).
    eapply extends_trans; [eapply spawn_memory; exact H1 | eapply IH; exact H].
  - intros [= <-]. apply extends_refl.
Qed.

Lemma drain_memory (fuel : nat) :
  forall st st', drain fuel ctx st = Done st' -> extends_with_memory memory st st'.
Proof.
  induction fuel as [|fuel IH]; intros st st'; simpl; [done|].
  intros H. apply bind_done in H as ([r q] & _ & H). cbn [fst snd] in H.
  destruct r as [r|].
  - apply bind_done in H as (f & _ & H).
    destruct (f r (rs_world st)) as [running w]. destruct running.
    + apply bind_done in H as (q' & _ & H). apply IH in H.
      eapply extends_trans; [|exact H].
      eexists. split; [reflexivity|]. by repeat constructor.
    + apply bind_done in H as (g & _ & H). apply IH in H.
      eapply extends_trans; [|exact H].
      eexists. split; [reflexivity|]. by repeat constructor.
  - injection H as <-. exists []. simpl. by rewrite app_nil_r.
Qed.

Lemma dispatch_group_memory fuel sx sy i st st' :
  dispatch_group fuel ctx memory sx sy i st = Done st' ->
  extends_with_memory memory st st'.
Proof.
  unfold dispatch_group. intros H. apply bind_done in H as ([[x y] z] & _ & H).
  apply bind_done in H as (st1 & H1 & H). apply drain_memory in H.
  eapply extends_trans; [|exact H].
  destruct (has_cbarriers ctx).
  - eapply spawn_subgroups_memory; exact H1.
  - eapply spawn_memory; exact H1.
Qed.

Lemma groups_loop_memory fuel sx sy ngroups (n : nat) :
  forall i st st',
  groups_loop n fuel ctx memory sx sy ngroups i st = Done st' ->
  extends_with_memory memory st st'.
Proof.
  induction n as [|n IH]; intros i st st'; simpl; [done|].
  destruct (i <? ngroups).
  - intros H. apply bind_done in H as (st1 & H1 & H).
    apply bind_done in H as (i' & _ & H).
    eapply extends_trans; [eapply dispatch_group_memory; exact H1 | eapply IH; exact H].
  - intros [= <-]. apply extends_refl.
Qed.

End Memory.

Lemma dispatch_thread_memory {W : Type} fuel h (ctx : dispatch_context W) t thread
    (w : W) h2 thread2 w2 tr :
  dispatch_thread fuel h ctx t thread w = Done (h2, thread2, w2, tr) ->
  exists thread1,
    thread_memory_reserve h ctx thread = Done (h2, thread1)
    /\ thread_memory thread2 = thread_memory thread1
    /\ thread_memory_size thread2 = thread_memory_size thread1
    /\ Forall (begin_memory_is (thread_memory thread1)) tr.
Proof.
  unfold dispatch_thread. intros H.
  apply bind_done in H as ([h1 thread1] & Hres & H).
  apply bind_done in H as (sxy & _ & H). apply bind_done in H as (ngroups & _ & H).
  apply bind_done in H as (st & Hloop & H). injection H as <- <- <- <-.
  exists thread1. split; [done|]. split; [done|]. split; [done|].
  apply groups_loop_memory in Hloop as (evs & Ht & Hf). simpl in Ht. by rewrite Ht.
Qed.

Lemma group_coords_spec (sx sy i : Z) :
  0 < sx -> 0 < sy -> sx * sy <= INT_MAX -> 0 <= i <= INT_MAX ->
  group_coords sx sy i = Done (coords_of sx sy i)
  /\ 0 <= i mod sx < sx /\ 0 <= (i / sx) mod sy < sy /\ 0 <= i / (sx * sy)
  /\ i mod sx + sx * ((i / sx) mod sy) + sx * sy * (i / (sx * sy)) = i.
Proof.
  intros Hsx Hsy Hxy Hi. unfold INT_MAX in *.
  assert (Hp : 0 < sx * sy) by lia.
  pose proof (Z.div_mod i (sx * sy) ltac:(lia)) as Hdm.
  pose proof (Z.mod_pos_bound i (sx * sy) Hp) as Hmb.
  pose proof (Z.rem_mul_r i sx sy ltac:(lia) Hsy) as Hrem.
  pose proof (Z.mod_pos_bound i sx Hsx) as Hx.
  pose proof (Z.mod_pos_bound (i / sx) sy Hsy) as Hy.
  set (z := i / (sx * sy)) in *. set (x := i mod sx) in *.
  set (y := (i / sx) mod sy) in *.
  assert (Hz : 0 <= z) by (subst z; apply Z.div_pos; lia).
  assert (Hzs : 0 <= z * sx <= i) by nia.
  assert (Hzss : 0 <= z * sx * sy <= i) by nia.
  assert (Hg : i - z * sx * sy = x + sx * y) by lia.
  assert (Hyq : (x + sx * y) / sx = y).
  { symmetry. apply (Z.div_unique_pos _ _ y x); lia. }
  assert (Hys : 0 <= y * sx <= x + sx * y) by nia.
  split; [|repeat split; lia].
  unfold group_coords, coords_of, int_mul, int_sub, int_div. fold z x y.
  rewrite (int_check_ok (sx * sy)) by (unfold INT_MIN, INT_MAX; lia). step.
  destruct (Z.eqb_spec (sx * sy) 0); [lia|].
  rewrite Z.quot_div_nonneg by lia. fold z.
  rewrite (int_check_ok z) by (unfold INT_MIN, INT_MAX; nia). step.
  rewrite (int_check_ok (z * sx)) by (unfold INT_MIN, INT_MAX; lia). step.
  rewrite (int_check_ok (z * sx * sy)) by (unfold INT_MIN, INT_MAX; lia). step.
  rewrite (int_check_ok (i - z * sx * sy)) by (unfold INT_MIN, INT_MAX; lia). step.
  destruct (Z.eqb_spec sx 0); [lia|].
  rewrite Hg. rewrite Z.quot_div_nonneg by lia. rewrite Hyq.
  rewrite (int_check_ok y) by (unfold INT_MIN, INT_MAX; lia). step.
  rewrite (int_check_ok (y * sx)) by (unfold INT_MIN, INT_MAX; lia). step.
  rewrite (int_check_ok (x + sx * y - y * sx)) by (unfold INT_MIN, INT_MAX; lia). step.
  do 3 f_equal. lia.
Qed.

Section Dispatch.

Context {W : Type}.

(** A prepared context: the three entry points are bound. *)
Variable ctx : dispatch_context W.
Variable fb : routine_begin W.
Variable fa : routine_await W.
Variable fd : routine_destroy W.
Hypothesis ctx_begin : begin ctx = Some fb.
Hypothesis ctx_await : await ctx = Some fa.
Hypothesis ctx_destroy : destroy ctx = Some fd.

Variable budget : W -> coroutine -> nat.
Hypothesis program_finishes : finishes fa fd budget.

Implicit Types (st : run_state W) (q : coroutines) (tr : list event).

Lemma budget_sum_app w (l1 l2 : list coroutine) :
  budget_sum budget w (l1 ++ l2)
  = (budget_sum budget w l1 + budget_sum budget w l2)%nat.
Proof. induction l1 as [|r l1 IH]; simpl; [done|]. rewrite IH. lia. Qed.

Lemma budget_sum_mono w w' (l : list coroutine) :
  (forall r, (budget w' r <= budget w r)%nat) ->
  (budget_sum budget w' l <= budget_sum budget w l)%nat.
Proof.
  intros H. induction l as [|r l IH]; simpl; [done|]. specialize (H r). lia.
Qed.

Lemma push_bounded q r :
  queue_ok q -> Z.of_nat (length (contents q)) + 1 < 2^31 ->
  exists q', coroutines_push q r = Done q'
    /\ queue_ok q' /\ contents q' = contents q ++ [r].
Proof.
  intros Hok Hlen.
  destruct (push_spec q r Hok) as [(q' & Hp & Hok' & Hc & _)|(_ & Hbig & Hfull)].
  - by exists q'.
  - rewrite length_contents in Hlen. pose proof (count_range q Hok). lia.
Qed.

Lemma spawn_spec memory x y z first cnt st :
  queue_ok (rs_routines st) ->
  Z.of_nat (length (contents (rs_routines st))) + 1 < 2^31 ->
  exists st',
    spawn ctx memory x y z first cnt st = Done st'
    /\ queue_ok (rs_routines st')
    /\ contents (rs_routines st')
       = contents (rs_routines st)
         ++ [fst (fb (data ctx) x y z memory first cnt (rs_world st))]
    /\ rs_world st' = snd (fb (data ctx) x y z memory first cnt (rs_world st))
    /\ rs_trace st'
       = rs_trace st
         ++ [EvBegin x y z memory first cnt
               (fst (fb (data ctx) x y z memory first cnt (rs_world st)))].
Proof.
  intros Hok Hlen. unfold spawn. rewrite ctx_begin. cbn [call]. step.
  destruct (fb (data ctx) x y z memory first cnt (rs_world st)) as [r w].
  destruct (push_bounded _ r Hok Hlen) as (q' & -> & Hok' & Hc).
  step. eexists. split; [reflexivity|]. done.
Qed.

Lemma spawn_subgroups_spec memory x y z (n : nat) :
  forall s st,
  0 <= s ->
  s + Z.of_nat n = subgroups_per_workgroup (data ctx) ->
  subgroups_per_workgroup (data ctx) <= INT_MAX ->
  queue_ok (rs_routines st) ->
  Z.of_nat (length (contents (rs_routines st))) + Z.of_nat n < 2^31 ->
  exists st' evs,
    (forall fuel, (n < fuel)%nat ->
       spawn_subgroups fuel ctx memory x y z s st = Done st')
    /\ queue_ok (rs_routines st')
    /\ contents (rs_routines st') = contents (rs_routines st) ++ begun evs
    /\ rs_trace st' = rs_trace st ++ evs
    /\ begin_args evs = map (fun k => (x, y, z, k, 1)) (seqZ s (Z.of_nat n))
    /\ destroyed evs = []
    /\ Forall (begin_memory_is memory) evs.
Proof.
  induction n as [|n IH]; intros s st Hs Hspw Hmax Hok Hlen.
  - exists st, []. split.
    + intros [|fuel] Hf; [lia|]. simpl.
      rewrite u32_small by (unfold INT_MAX in *; lia).
      destruct (Z.ltb_spec s (subgroups_per_workgroup (data ctx))); [lia | done].
    + rewrite !app_nil_r. done.
  - destruct (spawn_spec memory x y z s 1 st Hok) as (st1 & Hsp & Hok1 & Hc1 & Hw1 & Ht1);
      [lia|].
    destruct (IH (s + 1) st1) as (st' & evs & Hrun & Hok' & Hc' & Ht' & Ha & Hd & Hm);
      try lia; try done.
    { rewrite Hc1, length_app. simpl. lia. }
    exists st', (EvBegin x y z memory s 1
                   (fst (fb (data ctx) x y z memory s 1 (rs_world st))) :: evs).
    split.
    + intros [|fuel] Hf; [lia|]. simpl.
      rewrite u32_small by (unfold INT_MAX in *; lia).
      destruct (Z.ltb_spec s (subgroups_per_workgroup (data ctx))); [|lia].
      rewrite Hsp. step. unfold int_add.
      rewrite int_check_ok by (unfold INT_MIN, INT_MAX in *; lia). step.
      apply Hrun. lia.
    + split; [done|]. split.
      { rewrite Hc', Hc1. simpl. by rewrite <- app_assoc. }
      split.
      { rewrite Ht', Ht1. by rewrite <- app_assoc. }
      split.
      { simpl. rewrite Ha. rewrite (seqZ_cons s) by lia. simpl.
        do 3 f_equal; lia. }
      split; [done|]. constructor; done.
Qed.

Lemma drain_spec (m : nat) :
  forall st,
  queue_ok (rs_routines st) ->
  (budget_sum budget (rs_world st) (contents (rs_routines st))
   + length (contents (rs_routines st)) <= m)%nat ->
  Z.of_nat (length (contents (rs_routines st))) < 2^31 ->
  exists st' evs,
    (forall fuel, (m < fuel)%nat -> drain fuel ctx st = Done st')
    /\ queue_ok (rs_routines st')
    /\ contents (rs_routines st') = []
    /\ rs_trace st' = rs_trace st ++ evs
    /\ drained (contents (rs_routines st)) evs.
Proof.
  induction m as [m IH] using lt_wf_ind. intros st Hok Hm Hlen.
  destruct (pop_spec _ Hok) as [(_ & Hnil & Hpop)|(_ & r & q1 & Hpop & Hcons & Hok1 & _)].
  - exists {| rs_routines := rs_routines st; rs_world := rs_world st;
              rs_trace := rs_trace st |}, [].
    split.
    + intros [|fuel] Hf; [lia|]. simpl. rewrite Hpop. done.
    + simpl. rewrite Hnil, app_nil_r.
      split; [done|]. split; [done|]. split; [done|]. constructor.
  - rewrite Hcons in Hm, Hlen. simpl in Hm, Hlen.
    destruct (fa r (rs_world st)) as [running w1] eqn:Hfa.
    destruct running.
    + (* still running: back to the queue *)
      destruct program_finishes as (Hrunning & Hawait & _).
      pose proof (Hrunning r (rs_world st)) as Hmu. rewrite Hfa in Hmu.
      simpl in Hmu. specialize (Hmu eq_refl).
      assert (Hsum : (budget_sum budget w1 (contents q1)
                      <= budget_sum budget (rs_world st) (contents q1))%nat).
      { apply budget_sum_mono. intros r'. specialize (Hawait r (rs_world st) r').
        by rewrite Hfa in Hawait. }
      destruct (push_bounded q1 r Hok1) as (q2 & Hpush & Hok2 & Hc2); [lia|].
      destruct (IH (m - 1)%nat ltac:(lia)
                  {| rs_routines := q2; rs_world := w1;
                     rs_trace := rs_trace st ++ [EvAwait r true] |})
        as (st' & evs & Hrun & Hok' & Hc' & Ht' & Hd); simpl.
      { done. }
      { rewrite Hc2, budget_sum_app, length_app. simpl. lia. }
      { rewrite Hc2, length_app. simpl. lia. }
      exists st', (EvAwait r true :: evs). split.
      * intros [|fuel] Hf; [lia|]. simpl. rewrite Hpop. step.
        rewrite ctx_await. cbn [call]. step. rewrite Hfa. rewrite Hpush. step.
        apply Hrun. lia.
      * split; [done|]. split; [done|]. split.
        { rewrite Ht'. simpl. by rewrite <- app_assoc. }
        rewrite Hcons. constructor. simpl in Hd. by rewrite Hc2 in Hd.
    + (* finished: destroyed *)
      destruct program_finishes as (_ & Hawait & Hdestroy).
      assert (Hsum : (budget_sum budget (fd r w1) (contents q1)
                      <= budget_sum budget (rs_world st) (contents q1))%nat).
      { apply budget_sum_mono. intros r'. specialize (Hawait r (rs_world st) r').
        rewrite Hfa in Hawait. specialize (Hdestroy r w1 r'). simpl in Hawait. lia. }
      destruct (IH (m - 1)%nat ltac:(lia)
                  {| rs_routines := q1; rs_world := fd r w1;
                     rs_trace := rs_trace st ++ [EvAwait r false; EvDestroy r] |})
        as (st' & evs & Hrun & Hok' & Hc' & Ht' & Hd); simpl.
      { done. }
      { lia. }
      { lia. }
      exists st', (EvAwait r false :: EvDestroy r :: evs). split.
      * intros [|fuel] Hf; [lia|]. simpl. rewrite Hpop. step.
        rewrite ctx_await. cbn [call]. step. rewrite Hfa.
        rewrite ctx_destroy. cbn [call]. step. apply Hrun. lia.
      * split; [done|]. split; [done|]. split.
        { rewrite Ht'. simpl. by rewrite <- app_assoc. }
        rewrite Hcons. constructor. exact Hd.
Qed.

Lemma dispatch_group_spec memory sx sy i st :
  0 < sx -> 0 < sy -> sx * sy <= INT_MAX -> 0 <= i <= INT_MAX ->
  0 <= subgroups_per_workgroup (data ctx) <= INT_MAX ->
  queue_ok (rs_routines st) ->
  contents (rs_routines st) = [] ->
  exists st' seg F,
    (forall fuel, (F <= fuel)%nat ->
       dispatch_group fuel ctx memory sx sy i st = Done st')
    /\ queue_ok (rs_routines st')
    /\ contents (rs_routines st') = []
    /\ rs_trace st' = rs_trace st ++ seg
    /\ group_segment (has_cbarriers ctx) (subgroups_per_workgroup (data ctx))
         memory sx sy i seg.
Proof.
  intros Hsx Hsy Hxy Hi Hspw Hok Hnil.
  destruct (group_coords_spec sx sy i Hsx Hsy Hxy Hi) as [Hco _].
  unfold coords_of in Hco.
  set (x := i mod sx) in *. set (y := (i / sx) mod sy) in *.
  set (z := i / (sx * sy)) in *.
  set (spw := subgroups_per_workgroup (data ctx)) in *.
  assert (Hspawn : exists st1 sp n,
    (forall fuel, (n <= fuel)%nat ->
       (if has_cbarriers ctx then spawn_subgroups fuel ctx memory x y z 0 st
        else spawn ctx memory x y z 0 (s32 spw) st) = Done st1)
    /\ queue_ok (rs_routines st1)
    /\ contents (rs_routines st1) = begun sp
    /\ rs_trace st1 = rs_trace st ++ sp
    /\ begin_args sp = expected_begins (has_cbarriers ctx) spw (x, y, z)
    /\ destroyed sp = []
    /\ Forall (begin_memory_is memory) sp
    /\ Z.of_nat (length (begun sp)) < 2^31).
  { destruct (has_cbarriers ctx).
    - destruct (spawn_subgroups_spec memory x y z (Z.to_nat spw) 0 st)
        as (st1 & sp & Hrun & Hok1 & Hc1 & Ht1 & Ha & Hd & Hm);
        try fold spw; try lia; try done.
      { rewrite Hnil. simpl. unfold INT_MAX in *. lia. }
      exists st1, sp, (S (Z.to_nat spw)). split; [intros; apply Hrun; lia|].
      rewrite Hnil in Hc1. simpl in Hc1.
      split; [done|]. split; [done|]. split; [done|]. split.
      { rewrite Ha. simpl. by rewrite Z2Nat.id by lia. }
      split; [done|]. split; [done|].
      assert (Hl : length (begun sp) = length (begin_args sp)).
      { clear. induction sp as [|[] sp IH]; simpl; by rewrite ?IH. }
      rewrite Hl, Ha, length_map, length_seqZ. unfold INT_MAX in *. lia.
    - destruct (spawn_spec memory x y z 0 (s32 spw) st Hok)
        as (st1 & Hsp & Hok1 & Hc1 & Hw1 & Ht1).
      { rewrite Hnil. simpl. lia. }
      rewrite Hnil in Hc1. simpl in Hc1.
      exists st1, [EvBegin x y z memory 0 (s32 spw)
                    (fst (fb (data ctx) x y z memory 0 (s32 spw) (rs_world st)))], O.
      split; [intros; exact Hsp|].
      split; [done|]. split; [exact Hc1|]. split; [exact Ht1|].
      simpl. rewrite s32_small by (unfold INT_MIN, INT_MAX in *; lia).
      split; [done|]. split; [done|]. split; [by constructor | lia]. }
  destruct Hspawn as (st1 & sp & n & Hrun1 & Hok1 & Hc1 & Ht1 & Ha & Hd & Hm & Hlen).
  destruct (drain_spec (budget_sum budget (rs_world st1) (contents (rs_routines st1))
                        + length (contents (rs_routines st1)))%nat
              st1 Hok1)
    as (st' & dr & Hrun2 & Hok' & Hc' & Ht' & Hdr); [lia | by rewrite Hc1 |].
  exists st', (sp ++ dr),
    (Nat.max n (S (budget_sum budget (rs_world st1) (contents (rs_routines st1))
                   + length (contents (rs_routines st1))))).
  split.
  - intros fuel Hf. unfold dispatch_group. rewrite Hco. step.
    rewrite Hrun1 by lia. step. apply Hrun2. lia.
  - split; [done|]. split; [done|]. split.
    { rewrite Ht', Ht1. by rewrite <- app_assoc. }
    exists sp, dr. rewrite Hc1 in Hdr. done.
Qed.

Lemma groups_loop_spec memory sx sy ngroups (k : nat) :
  forall i st,
  (0 < ngroups -> 0 < sx /\ 0 < sy /\ sx * sy <= INT_MAX) ->
  1 <= nthreads ctx ->
  ngroups + nthreads ctx <= 2^31 ->
  0 <= subgroups_per_workgroup (data ctx) <= INT_MAX ->
  0 <= i ->
  ngroups - i <= Z.of_nat k ->
  queue_ok (rs_routines st) ->
  contents (rs_routines st) = [] ->
  exists st' segs F,
    (forall fuel m, (F <= fuel)%nat -> (k < m)%nat ->
       groups_loop m fuel ctx memory sx sy ngroups i st = Done st')
    /\ queue_ok (rs_routines st')
    /\ contents (rs_routines st') = []
    /\ rs_trace st' = rs_trace st ++ concat segs
    /\ Forall2 (group_segment (has_cbarriers ctx)
                  (subgroups_per_workgroup (data ctx)) memory sx sy)
         (strided k i (nthreads ctx) ngroups) segs.
Proof.
  induction k as [|k IH]; intros i st Hgrid HT Hn Hspw Hi Hk Hok Hnil.
  - exists st, [], O. split.
    + intros fuel [|m] _ Hm; [lia|]. simpl.
      destruct (Z.ltb_spec i ngroups); [lia | done].
    + simpl. rewrite app_nil_r. split; [done|]. split; [done|]. split; [done|].
      constructor.
  - destruct (Z.ltb_spec i ngroups) as [Hlt|Hge].
    + destruct (Hgrid ltac:(lia)) as (Hsx & Hsy & Hxy).
      destruct (dispatch_group_spec memory sx sy i st Hsx Hsy Hxy)
        as (st1 & seg & F1 & Hrun1 & Hok1 & Hnil1 & Ht1 & Hseg);
        try done; [unfold INT_MAX; lia|].
      destruct (IH (i + nthreads ctx) st1)
        as (st' & segs & F2 & Hrun2 & Hok' & Hnil' & Ht' & Hsegs);
        try done; try lia.
      exists st', (seg :: segs), (Nat.max F1 F2). split.
      * intros fuel [|m] Hf Hm; [lia|]. simpl.
        destruct (Z.ltb_spec i ngroups); [|lia].
        rewrite Hrun1 by lia. step. unfold int_add.
        rewrite int_check_ok by (unfold INT_MIN, INT_MAX; lia). step.
        apply Hrun2; lia.
      * split; [done|]. split; [done|]. split.
        { rewrite Ht', Ht1. simpl. by rewrite <- app_assoc. }
        simpl. destruct (Z.ltb_spec i ngroups); [|lia]. by constructor.
    + exists st, [], O. split.
      * intros fuel [|m] _ Hm; [lia|]. simpl.
        destruct (Z.ltb_spec i ngroups); [lia | done].
      * simpl. rewrite app_nil_r. split; [done|]. split; [done|]. split; [done|].
        destruct (Z.ltb_spec i ngroups); [lia|]. constructor.
Qed.

Hypothesis ctx_ready : dispatch_ready ctx.

Lemma dispatch_thread_spec h t thread w :
  0 <= t ->
  scratch_ok h thread ->
  queue_ok (thread_routines thread) ->
  contents (thread_routines thread) = [] ->
  exists F h' thread' w' segs,
    (forall fuel, (F <= fuel)%nat ->
       dispatch_thread fuel h ctx t thread w = Done (h', thread', w', concat segs))
    /\ queue_ok (thread_routines thread')
    /\ contents (thread_routines thread') = []
    /\ scratch_ok h' thread'
    /\ Forall2 (group_segment (has_cbarriers ctx)
                  (subgroups_per_workgroup (data ctx))
                  (thread_memory thread') (grid_x ctx) (grid_y ctx))
         (thread_groups t (nthreads ctx) (ngroups_of ctx)) segs.
Proof.
  intros Ht Hscr Hok Hnil.
  destruct ctx_ready as (Hx & Hy & Hz & Hxy & Hn & HT & Hspw & Hmem).
  unfold ngroups_of in *.
  destruct (thread_memory_reserve_spec h ctx thread Hscr Hmem)
    as (h' & thread1 & Hres & Hscr1 & Hq1 & _).
  assert (Hnn : 0 <= grid_x ctx * grid_y ctx * grid_z ctx) by nia.
  destruct (groups_loop_spec (thread_memory thread1) (grid_x ctx) (grid_y ctx)
              (grid_x ctx * grid_y ctx * grid_z ctx)
              (Z.to_nat (grid_x ctx * grid_y ctx * grid_z ctx)) t
              {| rs_routines := thread_routines thread1; rs_world := w;
                 rs_trace := [] |})
    as (st' & segs & F & Hrun & Hok' & Hnil' & Htr & Hsegs);
    try done; try lia; try (intros Hpos; nia).
  { simpl. by rewrite Hq1. }
  { simpl. by rewrite Hq1. }
  exists (Nat.max F (S (Z.to_nat (grid_x ctx * grid_y ctx * grid_z ctx)))), h',
    {| thread_routines := rs_routines st';
       thread_memory_size := thread_memory_size thread1;
       thread_memory := thread_memory thread1 |}, (rs_world st'), segs.
  split.
  - intros fuel Hf. unfold dispatch_thread. rewrite Hres. step.
    fold (grid_x ctx) (grid_y ctx) (grid_z ctx). unfold int_mul.
    rewrite int_check_ok by (unfold INT_MIN, INT_MAX in *; lia). step.
    rewrite int_check_ok by (unfold INT_MIN, INT_MAX in *; lia). step.
    rewrite Hrun by lia. step. simpl in Htr. by rewrite Htr.
  - simpl. split; [done|]. split; [done|]. split; [exact Hscr1 | exact Hsegs].
Qed.

End Dispatch.

(** ** The partition of the workgroups among the threads *)

Lemma strided_lower (k : nat) :
  forall i T n x, 1 <= T -> In x (strided k i T n) -> i <= x < n.
Proof.
  induction k as [|k IH]; intros i T n x HT; simpl; [done|].
  destruct (Z.ltb_spec i n); [|done].
  intros [<-|Hin]; [lia|]. apply IH in Hin; lia.
Qed.

Lemma strided_In (k : nat) :
  forall i T n x, 1 <= T -> n - i <= Z.of_nat k ->
  In x (strided k i T n) <-> i <= x < n /\ (x - i) mod T = 0.
Proof.
  induction k as [|k IH]; intros i T n x HT Hk; simpl.
  - split; [done | lia].
  - destruct (Z.ltb_spec i n) as [Hlt|Hge]; [|split; [done | lia]].
    simpl. rewrite IH by lia. rewrite !Z.mod_divide by lia. split.
    + intros [<-|[Hr Hd]].
      * split; [lia|]. rewrite Z.sub_diag. apply Z.divide_0_r.
      * split; [lia|]. replace (x - i) with (x - (i + T) + T) by lia.
        apply Z.divide_add_r; [done | apply Z.divide_refl].
    + intros [Hr [q Hq]]. destruct (Z.eq_dec i x) as [->|Hne]; [by left|].
      assert (Hq1 : 1 <= q).
      { destruct (Z.le_gt_cases q 0); [|lia].
        assert (q * T <= 0) by (apply Z.mul_nonpos_nonneg; lia). lia. }
      assert (0 <= (q - 1) * T) by (apply Z.mul_nonneg_nonneg; lia).
      right. split; [lia|]. exists (q - 1). lia.
Qed.

Lemma strided_sorted (k : nat) :
  forall i T n, 1 <= T -> StronglySorted Z.lt (strided k i T n).
Proof.
  induction k as [|k IH]; intros i T n HT; simpl; [constructor|].
  destruct (Z.ltb_spec i n); [|constructor].
  constructor; [by apply IH|].
  apply Forall_forall. intros x Hx. apply list_elem_of_In in Hx.
  apply strided_lower in Hx; lia.
Qed.

Lemma thread_groups_In (t T n x : Z) :
  1 <= T -> 0 <= t ->
  In x (thread_groups t T n) <-> t <= x < n /\ (x - t) mod T = 0.
Proof. intros HT Ht. unfold thread_groups. apply strided_In; lia. Qed.

Lemma thread_groups_owner (t T n x : Z) :
  1 <= T -> 0 <= t < T -> 0 <= x ->
  In x (thread_groups t T n) <-> x < n /\ t = x mod T.
Proof.
  intros HT Ht Hx. rewrite thread_groups_In by lia.
  rewrite Z.mod_divide by lia. split.
  - intros [Hr [q Hq]]. split; [lia|].
    apply (Z.mod_unique_pos x T q t); lia.
  - intros [Hn ->]. pose proof (Z.mod_pos_bound x T ltac:(lia)).
    pose proof (Z.div_mod x T ltac:(lia)).
    pose proof (Z.mod_le x T ltac:(lia) ltac:(lia)). split; [lia|].
    exists (x / T). lia.
Qed.

Lemma NoDup_flat_map_disjoint {A B : Type} (f : A -> list B) (l : list A) :
  NoDup l ->
  (forall a, In a l -> NoDup (f a)) ->
  (forall a b x, In a l -> In b l -> In x (f a) -> In x (f b) -> a = b) ->
  NoDup (flat_map f l).
Proof.
  induction 1 as [|a l Ha Hl IH]; intros Hf Hdis; simpl; [constructor|].
  apply NoDup_app. split; [apply Hf; by left|]. split.
  - intros x Hx Hx'. apply list_elem_of_In in Hx, Hx'.
    apply in_flat_map in Hx' as (b & Hb & Hxb).
    assert (a = b) by (eapply Hdis; eauto; [by left | by right]).
    subst b. apply Ha. by apply list_elem_of_In.
  - apply IH.
    + intros b Hb. apply Hf. by right.
    + intros b c x Hb Hc. apply Hdis; by right.
Qed.

Lemma thread_groups_NoDup (t T n : Z) : 1 <= T -> NoDup (thread_groups t T n).
Proof.
  intros HT. pose proof (strided_sorted (Z.to_nat n) t T n HT) as Hs.
  unfold thread_groups. induction Hs as [|x l _ IH Hall]; constructor; [|done].
  intros Hin. rewrite Forall_forall in Hall. specialize (Hall x Hin). lia.
Qed.

(** Every workgroup belongs to exactly one thread. *)
Lemma thread_groups_partition (T n : Z) :
  1 <= T ->
  Permutation (flat_map (fun t => thread_groups t T n) (seqZ 0 T)) (seqZ 0 n).
Proof.
  intros HT. apply NoDup_Permutation.
  - apply NoDup_flat_map_disjoint.
    + apply NoDup_seqZ.
    + intros t _. by apply thread_groups_NoDup.
    + intros a b x Ha Hb Hxa Hxb.
      apply list_elem_of_In, elem_of_seqZ in Ha, Hb.
      assert (0 <= x).
      { apply thread_groups_In in Hxa; lia. }
      apply thread_groups_owner in Hxa, Hxb; lia.
  - apply NoDup_seqZ.
  - intros x. rewrite elem_of_seqZ, list_elem_of_In, in_flat_map. split.
    + intros (t & Ht & Hx). apply list_elem_of_In, elem_of_seqZ in Ht.
      apply thread_groups_In in Hx; lia.
    + intros Hx. exists (x mod T).
      pose proof (Z.mod_pos_bound x T ltac:(lia)). split.
      * apply list_elem_of_In, elem_of_seqZ. lia.
      * apply thread_groups_owner; lia.
Qed.

Lemma flat_map_flat_map {A B C : Type} (f : A -> list B) (g : B -> list C)
    (l : list A) :
  flat_map g (flat_map f l) = flat_map (fun a => flat_map g (f a)) l.
Proof.
  induction l as [|a l IH]; simpl; [done|]. by rewrite flat_map_app, IH.
Qed.

Lemma flat_map_length_const {A B : Type} (g : A -> list B) (l : list A) (c : nat) :
  (forall a, length (g a) = c) -> length (flat_map g l) = (length l * c)%nat.
Proof.
  intros Hg. induction l as [|a l IH]; simpl; [done|].
  rewrite length_app, Hg, IH. lia.
Qed.

(** ** Traces of whole dispatches *)

Lemma drained_memory (m : Z) (l : list coroutine) (tr : list event) :
  drained l tr -> Forall (begin_memory_is m) tr.
Proof. induction 1; repeat constructor; done. Qed.

Lemma drained_awaited (l : list coroutine) (tr : list event) :
  drained l tr -> forall r b, In (EvAwait r b) tr -> In r l.
Proof.
  induction 1 as [|r0 l tr _ IH|r0 l tr _ IH]; intros r b; simpl.
  - done.
  - intros [[= -> _]|Hin]; [by left|].
    apply IH, in_app_or in Hin as [Hin|[->|[]]]; [by right | by left].
  - intros [[= -> _]|[[=]|Hin]]; [by left|]. right. by eapply IH.
Qed.

(** With distinct handles, a handle is not awaited again once destroyed,
    and no handle is destroyed twice. *)
Lemma drained_once (l : list coroutine) (tr : list event) :
  drained l tr -> NoDup l ->
  NoDup (destroyed tr)
  /\ forall a r b, tr = a ++ EvDestroy r :: b ->
       forall running, ~ In (EvAwait r running) b.
Proof.
  induction 1 as [|r0 l tr Hd IH|r0 l tr Hd IH]; intros Hnd.
  - split; [constructor|]. intros [|? ?] ? ? [=].
  - destruct IH as [IH1 IH2].
    { by rewrite <- Permutation_cons_append. }
    split; [exact IH1|].
    intros [|e a] r b Heq running; simpl in Heq; [done|].
    injection Heq as _ Heq. by eapply IH2.
  - apply NoDup_cons in Hnd as [Hnotin Hnd]. destruct (IH Hnd) as [IH1 IH2].
    split.
    + simpl. apply NoDup_cons. split; [|done].
      intros Hin. apply Hnotin.
      apply list_elem_of_In. apply list_elem_of_In in Hin.
      eapply Permutation_in; [apply drained_destroyed; exact Hd | exact Hin].
    + intros [|e [|e' a]] r b Heq running; simpl in Heq; [done| |].
      * injection Heq as _ -> ->. intros Hin.
        apply Hnotin, list_elem_of_In. by eapply drained_awaited.
      * injection Heq as _ _ Heq. by eapply IH2.
Qed.

Lemma group_segment_facts cb spw mem sx sy i seg :
  group_segment cb spw mem sx sy i seg ->
  begin_args seg = expected_begins cb spw (coords_of sx sy i)
  /\ Permutation (begun seg) (destroyed seg)
  /\ Forall (begin_memory_is mem) seg.
Proof.
  intros (sp & dr & -> & Ha & Hd & Hm & Hdr).
  destruct (drained_begun _ _ Hdr) as [Hb1 Hb2].
  rewrite begin_args_app, begun_app, destroyed_app, Ha, Hb1, Hb2, Hd, !app_nil_r.
  split; [done|]. split.
  - symmetry. by apply drained_destroyed.
  - apply Forall_app. split; [done|]. by eapply drained_memory.
Qed.

Lemma group_segments_facts cb spw mem sx sy idxs segs :
  Forall2 (group_segment cb spw mem sx sy) idxs segs ->
  begin_args (concat segs)
  = flat_map (fun i => expected_begins cb spw (coords_of sx sy i)) idxs
  /\ Permutation (begun (concat segs)) (destroyed (concat segs))
  /\ Forall (begin_memory_is mem) (concat segs).
Proof.
  induction 1 as [|i seg idxs segs Hseg _ IH]; simpl; [done|].
  destruct IH as (IH1 & IH2 & IH3).
  destruct (group_segment_facts _ _ _ _ _ _ _ Hseg) as (H1 & H2 & H3).
  rewrite begin_args_app, begun_app, destroyed_app, H1, IH1.
  split; [done|]. split; [by apply Permutation_app | by apply Forall_app].
Qed.

Lemma s32_u32 (z : Z) : 0 <= z <= INT_MAX -> s32 (u32 z) = z.
Proof.
  unfold INT_MAX. intros Hz. rewrite u32_small by lia.
  apply s32_small. unfold INT_MIN, INT_MAX. lia.
Qed.

Lemma prepare_dispatch_ready {W : Type} h0 (ctx0 : dispatch_context W) T info ds
    gx gy gz h ctx :
  prepare_dispatch h0 ctx0 T info ds gx gy gz = Done (h, ctx) ->
  grid_fits T gx gy gz ->
  workgroup_fits info ->
  0 <= min_memory_size info ->
  let ipw := workgroup_size_x info * workgroup_size_y info * workgroup_size_z info in
  dispatch_ready ctx
  /\ grid_x ctx = gx /\ grid_y ctx = gy /\ grid_z ctx = gz
  /\ nthreads ctx = T
  /\ has_cbarriers ctx = info_has_cbarriers info
  /\ begin ctx = info_begin info
  /\ await ctx = info_await info
  /\ destroy ctx = info_destroy info
  /\ memory_size ctx = min_memory_size info
  /\ invocations_per_subgroup (data ctx) = 4
  /\ invocations_per_workgroup (data ctx) = ipw
  /\ subgroups_per_workgroup (data ctx) = (ipw + 3) / 4
  /\ 4 * (subgroups_per_workgroup (data ctx) - 1) < ipw
     <= 4 * subgroups_per_workgroup (data ctx).
Proof.
  intros H (Hx & Hy & Hz & Hxy & Hn & HT) Hfit Hmem ipw.
  apply prepare_dispatch_done in H
    as (ha & p & size & ipw' & spw & _ & _ & Hcnt & ->).
  destruct (subgroup_counts_fits info Hfit) as (Hcnt' & Hipw & Hceil & Hspw).
  fold ipw in Hcnt', Hipw, Hceil, Hspw. rewrite Hcnt' in Hcnt.
  injection Hcnt as <- <-.
  unfold dispatch_ready, ngroups_of, grid_x, grid_y, grid_z.
  cbn [prepared data num_workgroups at0 at1 at2 set0 set1 set2 nthreads
       has_cbarriers begin await destroy memory_size invocations_per_subgroup
       invocations_per_workgroup subgroups_per_workgroup].
  rewrite !s32_u32 by done.
  destruct Hfit as (_ & _ & _ & _ & Hi). unfold SIMD_WIDTH in Hi.
  rewrite (u32_small ((ipw + 3) / 4)) by (unfold INT_MAX in *; lia).
  rewrite (u32_small ipw) by (unfold INT_MAX in *; fold ipw in Hi; lia).
  repeat split; try done; try lia.
Qed.

(** ** Claims about [dispatch_thread] *)

Section Claims.

Context {W : Type}.

Variable ctx : dispatch_context W.
Variable fb : routine_begin W.
Variable fa : routine_await W.
Variable fd : routine_destroy W.
Hypothesis ctx_begin : begin ctx = Some fb.
Hypothesis ctx_await : await ctx = Some fa.
Hypothesis ctx_destroy : destroy ctx = Some fd.

Variable budget : W -> coroutine -> nat.
Hypothesis program_finishes : finishes fa fd budget.

Hypothesis ctx_ready : dispatch_ready ctx.

(** C1.  Let the program finish: every coroutine reports "running" a
    bounded number of times ([finishes]).  Then, for every workgroup
    index, the body of the loop over workgroups returns, given
    enough fuel: the calls it makes are the calls of [begin] followed by
    the round-robin retirement of the handles these returned, so that the
    handles destroyed are, with multiplicity, the handles begun (and, the
    handles being distinct, none is destroyed twice or awaited again after
    its [destroy]); and it leaves the queue empty, [start = end], for the
    next workgroup.  The same holds of a whole call of [dispatch_thread]. *)
Theorem dispatch_thread_retires :
  (forall memory i st,
     0 <= i < ngroups_of ctx ->
     queue_ok (rs_routines st) ->
     start (rs_routines st) = end_ (rs_routines st) ->
     exists st' sp dr F,
       (forall fuel, (F <= fuel)%nat ->
          dispatch_group fuel ctx memory (grid_x ctx) (grid_y ctx) i st = Done st')
       /\ queue_ok (rs_routines st')
       /\ start (rs_routines st') = end_ (rs_routines st')
       /\ rs_trace st' = rs_trace st ++ sp ++ dr
       /\ destroyed sp = [] /\ begun dr = []
       /\ drained (begun sp) dr
       /\ Permutation (begun (sp ++ dr)) (destroyed (sp ++ dr))
       /\ (NoDup (begun sp) ->
           NoDup (destroyed dr)
           /\ forall a r b, dr = a ++ EvDestroy r :: b ->
                forall running, ~ In (EvAwait r running) b))
  /\ (forall h t thread w,
        0 <= t ->
        scratch_ok h thread ->
        queue_ok (thread_routines thread) ->
        start (thread_routines thread) = end_ (thread_routines thread) ->
        exists F h' thread' w' tr,
          (forall fuel, (F <= fuel)%nat ->
             dispatch_thread fuel h ctx t thread w = Done (h', thread', w', tr))
          /\ queue_ok (thread_routines thread')
          /\ start (thread_routines thread') = end_ (thread_routines thread')
          /\ Permutation (begun tr) (destroyed tr)).
Proof.
  pose proof ctx_ready as (Hx & Hy & Hz & Hxy & Hn & HT & Hspw & Hmem).
  split.
  - intros memory i st Hi Hok Hempty. unfold ngroups_of in *.
    apply (empty_iff _ Hok) in Hempty.
    destruct (dispatch_group_spec ctx fb fa fd ctx_begin ctx_await ctx_destroy budget
                program_finishes memory (grid_x ctx) (grid_y ctx) i st)
      as (st' & seg & F & Hrun & Hok' & Hnil' & Htr & sp & dr & -> & _ & Hd & _ & Hdr);
      try done; try nia; [unfold INT_MAX; lia|].
    exists st', sp, dr, F. split; [exact Hrun|]. split; [exact Hok'|].
    split; [by apply empty_iff|]. split; [exact Htr|]. split; [exact Hd|].
    destruct (drained_begun _ _ Hdr) as [Hb _].
    split; [exact Hb|]. split; [exact Hdr|]. split.
    + rewrite begun_app, destroyed_app, Hb, Hd, app_nil_r. simpl.
      symmetry. by apply drained_destroyed.
    + intros Hnd. exact (drained_once _ _ Hdr Hnd).
  - intros h t thread w Ht Hscr Hok Hempty.
    apply (empty_iff _ Hok) in Hempty.
    destruct (dispatch_thread_spec ctx fb fa fd ctx_begin ctx_await ctx_destroy budget
                program_finishes ctx_ready h t thread w)
      as (F & h' & thread' & w' & segs & Hrun & Hok' & Hnil' & _ & Hsegs); try done.
    exists F, h', thread', w', (concat segs). split; [exact Hrun|].
    split; [exact Hok'|]. split; [by apply empty_iff|].
    by apply group_segments_facts in Hsegs as (_ & Hperm & _).
Qed.

(** C5.  Thread [t] of [T = nthreads], with [0 <= t < T], handles the
    workgroups [thread_groups t T n] of the [n = sx * sy * sz] workgroups of
    the grid, in this order: its calls are the concatenation of one
    segment per index of that list.  The list is increasing and holds
    exactly the indices [i] in [0, n) with [i mod T = t], that is [t],
    [t + T], [t + 2T], ...  Index [i] is decomposed into [x = i mod sx],
    [y = (i / sx) mod sy], [z = i / (sx * sy)], within the grid and with
    [x + sx * y + sx * sy * z = i].  The lists of two different threads
    share no index, and every index below [n] is in the list of a
    thread. *)
Theorem workgroup_partition (t : Z) :
  0 <= t < nthreads ctx ->
  let T := nthreads ctx in
  let n := ngroups_of ctx in
  (forall h thread w,
     scratch_ok h thread ->
     queue_ok (thread_routines thread) ->
     start (thread_routines thread) = end_ (thread_routines thread) ->
     exists F h' thread' w' segs,
       (forall fuel, (F <= fuel)%nat ->
          dispatch_thread fuel h ctx t thread w
          = Done (h', thread', w', concat segs))
       /\ Forall2 (group_segment (has_cbarriers ctx)
                     (subgroups_per_workgroup (data ctx))
                     (thread_memory thread') (grid_x ctx) (grid_y ctx))
            (thread_groups t T n) segs)
  /\ StronglySorted Z.lt (thread_groups t T n)
  /\ (forall i, In i (thread_groups t T n) <-> 0 <= i < n /\ i mod T = t)
  /\ (forall i, In i (thread_groups t T n) <->
                exists k, 0 <= k /\ i = t + k * T /\ i < n)
  /\ (forall i, 0 <= i < n ->
        group_coords (grid_x ctx) (grid_y ctx) i
        = Done (i mod grid_x ctx, (i / grid_x ctx) mod grid_y ctx,
                i / (grid_x ctx * grid_y ctx))
        /\ 0 <= i mod grid_x ctx < grid_x ctx
        /\ 0 <= (i / grid_x ctx) mod grid_y ctx < grid_y ctx
        /\ 0 <= i / (grid_x ctx * grid_y ctx) < grid_z ctx
        /\ i mod grid_x ctx + grid_x ctx * ((i / grid_x ctx) mod grid_y ctx)
           + grid_x ctx * grid_y ctx * (i / (grid_x ctx * grid_y ctx)) = i)
  /\ (forall t1 t2 i,
        0 <= t1 < T -> 0 <= t2 < T ->
        In i (thread_groups t1 T n) -> In i (thread_groups t2 T n) -> t1 = t2)
  /\ (forall i, 0 <= i < n <->
                exists t', 0 <= t' < T /\ In i (thread_groups t' T n)).
Proof.
  intros Ht T n.
  pose proof ctx_ready as (Hx & Hy & Hz & Hxy & Hn & HT & Hspw & Hmem).
  fold T n in Hn, HT.
  split.
  { intros h thread w Hscr Hok Hempty. apply (empty_iff _ Hok) in Hempty.
    destruct (dispatch_thread_spec ctx fb fa fd ctx_begin ctx_await ctx_destroy budget
                program_finishes ctx_ready h t thread w)
      as (F & h' & thread' & w' & segs & Hrun & _ & _ & _ & Hsegs);
      try done; try lia.
    by exists F, h', thread', w', segs. }
  split; [apply strided_sorted; lia|].
  split.
  { intros i. split.
    - intros Hin. assert (0 <= i) by (apply thread_groups_In in Hin; lia).
      apply thread_groups_owner in Hin; lia.
    - intros [Hi Hm]. apply thread_groups_owner; lia. }
  split.
  { intros i. rewrite thread_groups_In by lia. rewrite Z.mod_divide by lia. split.
    - intros [Hr [k Hk]]. exists k. split; [|lia].
      destruct (Z.le_gt_cases 0 k); [done|].
      assert (k * T <= (-1) * T) by (apply Z.mul_le_mono_nonneg_r; lia). lia.
    - intros (k & Hk & -> & Hlt).
      assert (0 <= k * T) by (apply Z.mul_nonneg_nonneg; lia).
      split; [lia|]. exists k. lia. }
  split.
  { intros i Hi. unfold n, ngroups_of in Hi.
    assert (Hsx : 0 < grid_x ctx) by nia. assert (Hsy : 0 < grid_y ctx) by nia.
    destruct (group_coords_spec (grid_x ctx) (grid_y ctx) i Hsx Hsy Hxy)
      as (Hco & Hbx & Hby & Hbz & Hsum); [unfold INT_MAX; unfold n, ngroups_of in Hn; lia|].
    split; [exact Hco|]. split; [exact Hbx|]. split; [exact Hby|].
    split; [|exact Hsum]. split; [exact Hbz|].
    apply Z.div_lt_upper_bound; lia. }
  split.
  { intros t1 t2 i Ht1 Ht2 H1 H2.
    assert (0 <= i) by (apply thread_groups_In in H1; lia).
    apply thread_groups_owner in H1, H2; lia. }
  intros i. split.
  - intros Hi. exists (i mod T). pose proof (Z.mod_pos_bound i T ltac:(lia)).
    split; [lia|]. apply thread_groups_owner; lia.
  - intros (t' & Ht' & Hin). apply thread_groups_In in Hin; lia.
Qed.

End Claims.

(** C2.  Let [prepare_dispatch] have prepared [ctx] for [T] threads, a
    program of workgroup shape [wx, wy, wz] and the grid [gx, gy, gz], and
    let the program finish.  Then [subgroups_per_workgroup] is
    [wx * wy * wz / 4] rounded up, with 4 invocations per subgroup; every
    call [dispatch_thread ctx t] returns, and its calls of [begin] are, for
    each workgroup of thread [t] in turn, one call with first subgroup 0
    and subgroup count [subgroups_per_workgroup] when the program has no
    control barriers, and one call per subgroup index below
    [subgroups_per_workgroup] with subgroup count 1 when it has.  Over the
    thread indices [0 .. T-1] these calls are, up to their order, the calls
    for the workgroups [0 .. gx*gy*gz-1]: [gx*gy*gz] calls without control
    barriers, [gx*gy*gz*subgroups_per_workgroup] with. *)
Theorem begin_calls_per_dispatch {W : Type} h0 (ctx0 : dispatch_context W) T info
    ds gx gy gz h1 ctx (fb : routine_begin W) fa fd
    (budget : W -> coroutine -> nat) :
  prepare_dispatch h0 ctx0 T info ds gx gy gz = Done (h1, ctx) ->
  grid_fits T gx gy gz ->
  workgroup_fits info ->
  0 <= min_memory_size info ->
  info_begin info = Some fb ->
  info_await info = Some fa ->
  info_destroy info = Some fd ->
  finishes fa fd budget ->
  let n := gx * gy * gz in
  let ipw := workgroup_size_x info * workgroup_size_y info * workgroup_size_z info in
  let spw := subgroups_per_workgroup (data ctx) in
  let calls := fun i =>
    expected_begins (info_has_cbarriers info) spw (coords_of gx gy i) in
  invocations_per_subgroup (data ctx) = 4
  /\ 4 * (spw - 1) < ipw <= 4 * spw
  /\ (forall t h thread w,
        0 <= t ->
        scratch_ok h thread ->
        queue_ok (thread_routines thread) ->
        start (thread_routines thread) = end_ (thread_routines thread) ->
        exists F h' thread' w' tr,
          (forall fuel, (F <= fuel)%nat ->
             dispatch_thread fuel h ctx t thread w = Done (h', thread', w', tr))
          /\ begin_args tr = flat_map calls (thread_groups t T n))
  /\ Permutation
       (flat_map (fun t => flat_map calls (thread_groups t T n)) (seqZ 0 T))
       (flat_map calls (seqZ 0 n))
  /\ Z.of_nat (length (flat_map calls (seqZ 0 n)))
     = if info_has_cbarriers info then n * spw else n.
Proof.
  intros Hprep Hgrid Hfit Hmem Hb Ha Hd Hfin n ipw spw calls.
  destruct (prepare_dispatch_ready _ _ _ _ _ _ _ _ _ _ Hprep Hgrid Hfit Hmem)
    as (Hready & Hgx & Hgy & Hgz & HT & Hcb & Hbegin & Hawait & Hdestroy & _
        & Hips & _ & Hspw & Hceil).
  fold ipw spw in Hspw, Hceil.
  pose proof Hgrid as (Hx & Hy & Hz & Hxy & Hn & HT1).
  pose proof Hready as (_ & _ & _ & _ & _ & _ & Hspw0 & _). fold spw in Hspw0.
  split; [exact Hips|]. split; [exact Hceil|]. split.
  { intros t h thread w Ht Hscr Hok Hempty. apply (empty_iff _ Hok) in Hempty.
    rewrite Hb in Hbegin. rewrite Ha in Hawait. rewrite Hd in Hdestroy.
    destruct (dispatch_thread_spec ctx fb fa fd Hbegin Hawait Hdestroy budget
                Hfin Hready h t thread w)
      as (F & h' & thread' & w' & segs & Hdone & _ & _ & _ & Hsegs); try done.
    exists F, h', thread', w', (concat segs). split; [exact Hdone|].
    apply group_segments_facts in Hsegs as (Hargs & _).
    rewrite Hargs. unfold ngroups_of. by rewrite HT, Hcb, Hgx, Hgy, Hgz. }
  split.
  { rewrite <- flat_map_flat_map. apply Permutation_flat_map.
    by apply thread_groups_partition. }
  assert (Hn0 : 0 <= n) by (subst n; nia).
  unfold calls, expected_begins, coords_of.
  destruct (info_has_cbarriers info).
  - rewrite (flat_map_length_const _ _ (Z.to_nat spw)).
    + rewrite length_seqZ. nia.
    + intros i. by rewrite length_map, length_seqZ.
  - rewrite (flat_map_length_const _ _ 1%nat).
    + rewrite length_seqZ. lia.
    + done.
Qed.

(** C8.  On a thread context with well-formed scratch memory, the first
    statement of [dispatch_thread] leaves a 16-byte aligned buffer of at
    least [ctx->memory_size] bytes (an allocation of exactly the recorded
    size).  The buffer is replaced only when [ctx->memory_size] strictly
    exceeds the recorded size, which then becomes [ctx->memory_size];
    otherwise the thread context and the heap are left alone.  Every call
    of [dispatch_thread] that returns passes this buffer to each call of
    [begin], and hands back a thread context with this buffer and recorded
    size, again well formed: the recorded size never decreases from call
    to call. *)
Theorem dispatch_thread_scratch {W : Type} h (ctx : dispatch_context W) thread :
  scratch_ok h thread ->
  0 <= memory_size ctx ->
  exists h' thread',
    thread_memory_reserve h ctx thread = Done (h', thread')
    /\ thread_memory thread' mod 16 = 0
    /\ memory_size ctx <= thread_memory_size thread'
    /\ (0 < thread_memory_size thread' ->
        exists bs, blocks h' !! thread_memory thread' = Some bs
                   /\ Z.of_nat (length bs) = thread_memory_size thread')
    /\ (thread_memory_size thread < memory_size ctx ->
        thread_memory_size thread' = memory_size ctx
        /\ brk h < thread_memory thread')
    /\ (memory_size ctx <= thread_memory_size thread ->
        thread' = thread /\ h' = h)
    /\ thread_memory_size thread <= thread_memory_size thread'
    /\ forall fuel t w h2 thread2 w2 tr,
         dispatch_thread fuel h ctx t thread w = Done (h2, thread2, w2, tr) ->
         h2 = h'
         /\ thread_memory thread2 = thread_memory thread'
         /\ thread_memory_size thread2 = thread_memory_size thread'
         /\ scratch_ok h2 thread2
         /\ Forall (begin_memory_is (thread_memory thread')) tr.
Proof.
  intros Hscr Hmem.
  destruct (thread_memory_reserve_spec h ctx thread Hscr Hmem)
    as (h' & thread' & Hres & Hscr' & _ & Hge & Hmono & Hgrow & Hkeep).
  exists h', thread'. split; [exact Hres|].
  pose proof Hscr' as (Hsz & Hal & Hst).
  split; [exact Hal|]. split; [exact Hge|]. split.
  { intros Hpos. destruct Hst as [[_ H0]|(_ & bs & Hb & Hl)]; [lia|]. by exists bs. }
  split; [exact Hgrow|]. split; [exact Hkeep|]. split; [exact Hmono|].
  intros fuel t w h2 thread2 w2 tr Hrun.
  apply dispatch_thread_memory in Hrun as (thread1 & Hres1 & Hm & Hs & Hall).
  rewrite Hres in Hres1. injection Hres1 as <- <-.
  split; [done|]. split; [done|]. split; [done|]. split; [|done].
  unfold scratch_ok. by rewrite Hm, Hs.
Qed.

Example test_ctx_prepared :
  exists h,
    prepare_dispatch heap_empty alloc_dispatch_context 2 (test_info true 3 3 1)
      test_desc_set 2 2 1 = Done (h, test_ctx).
Proof. eexists. vm_compute. reflexivity. Qed.

Lemma test_finishes : finishes test_await test_destroy left.
Proof.
  split; [|split].
  - intros r w. unfold test_await. destruct (left w r) eqn:Hl; simpl; [discriminate|].
    intros _. rewrite Z.eqb_refl. lia.
  - intros r w r'. unfold test_await. destruct (left w r) eqn:Hl; simpl; [lia|].
    destruct (Z.eqb_spec r' r) as [->|]; lia.
  - intros r w r'. unfold test_destroy. lia.
Qed.

Lemma test_ctx_ready : dispatch_ready test_ctx.
Proof.
  unfold dispatch_ready, ngroups_of, grid_x, grid_y, grid_z, test_ctx, prepared.
  cbn [data num_workgroups at0 at1 at2 set0 set1 set2 nthreads memory_size
       subgroups_per_workgroup test_info min_memory_size].
  rewrite !s32_u32 by (unfold INT_MAX; lia).
  rewrite u32_small by lia. unfold INT_MAX. lia.
Qed.

Lemma scratch_ok_alloc (h : heap) : scratch_ok h alloc_thread_context.
Proof. split; [simpl; lia|]. split; [done | by left]. Qed.

Lemma dispatch_thread_retires_witness :
  exists F h' thread' w' tr,
    (forall fuel, (F <= fuel)%nat ->
       dispatch_thread fuel heap_empty test_ctx 0 alloc_thread_context
         test_world_zero
       = Done (h', thread', w', tr))
    /\ queue_ok (thread_routines thread')
    /\ start (thread_routines thread') = end_ (thread_routines thread')
    /\ Permutation (begun tr) (destroyed tr).
Proof.
  destruct (dispatch_thread_retires test_ctx test_begin test_await test_destroy
              eq_refl eq_refl eq_refl left test_finishes test_ctx_ready)
    as [_ Hthread].
  apply Hthread.
  - lia.
  - apply scratch_ok_alloc.
  - apply queue_ok_zero.
  - reflexivity.
Defined.

Lemma workgroup_partition_witness :
  0 <= 1 < nthreads test_ctx
  /\ forall i,
       In i (thread_groups 1 (nthreads test_ctx) (ngroups_of test_ctx))
       <-> 0 <= i < ngroups_of test_ctx /\ i mod nthreads test_ctx = 1.
Proof.
  assert (Ht : 0 <= 1 < nthreads test_ctx) by (simpl; lia).
  split; [exact Ht|].
  destruct (workgroup_partition test_ctx test_begin test_await test_destroy
              eq_refl eq_refl eq_refl left test_finishes test_ctx_ready 1 Ht)
    as (_ & _ & Hin & _).
  exact Hin.
Defined.

Lemma begin_calls_per_dispatch_witness :
  exists h ctx,
    prepare_dispatch heap_empty alloc_dispatch_context 2 (test_info true 3 3 1)
      test_desc_set 2 2 1 = Done (h, ctx)
    /\ Z.of_nat
         (length
            (flat_map
               (fun i => expected_begins true (subgroups_per_workgroup (data ctx))
                           (coords_of 2 2 i))
               (seqZ 0 (2 * 2 * 1))))
       = 2 * 2 * 1 * subgroups_per_workgroup (data ctx).
Proof.
  destruct (prepare_dispatch heap_empty alloc_dispatch_context 2
              (test_info true 3 3 1) test_desc_set 2 2 1)
    as [[h ctx]|f|] eqn:Heq; [|vm_compute in Heq; discriminate..].
  exists h, ctx. split; [reflexivity|].
  destruct (begin_calls_per_dispatch heap_empty alloc_dispatch_context 2
              (test_info true 3 3 1) test_desc_set 2 2 1 h ctx
              test_begin test_await test_destroy left Heq)
    as (_ & _ & _ & _ & Hlen); try reflexivity.
  - unfold grid_fits, INT_MAX. lia.
  - unfold workgroup_fits, SIMD_WIDTH, INT_MAX. simpl. lia.
  - simpl. lia.
  - exact test_finishes.
  - exact Hlen.
Defined.

Lemma dispatch_thread_scratch_witness :
  exists h' thread',
    thread_memory_reserve heap_empty test_ctx alloc_thread_context = Done (h', thread')
    /\ thread_memory thread' mod 16 = 0
    /\ memory_size test_ctx <= thread_memory_size thread'.
Proof.
  destruct (dispatch_thread_scratch heap_empty test_ctx alloc_thread_context)
    as (h' & thread' & Hres & Hal & Hge & _).
  - apply scratch_ok_alloc.
  - simpl. lia.
  - by exists h', thread'.
Defined.

(** The scenario of the specification: workgroups of 4 x 1 x 1
    invocations without control barriers, a grid of 2 x 1 x 1 workgroups
    and 2 threads.  [subgroups_per_workgroup] is 1, and each thread begins
    and destroys one coroutine, for its one workgroup. *)
Example end_to_end :
  (p <- prepare_dispatch heap_empty alloc_dispatch_context 2 (test_info false 4 1 1)
          test_desc_set 2 1 1 ;;
   r0 <- dispatch_thread 10 (fst p) (snd p) 0 alloc_thread_context test_world_zero ;;
   r1 <- dispatch_thread 10 (fst p) (snd p) 1 alloc_thread_context test_world_zero ;;
   Done (subgroups_per_workgroup (data (snd p)), snd r0, snd r1))
  = Done (1,
          [EvBegin 0 0 0 32 0 1 4104; EvAwait 4104 true; EvAwait 4104 false;
           EvDestroy 4104],
          [EvBegin 1 0 0 32 0 1 4104; EvAwait 4104 true; EvAwait 4104 false;
           EvDestroy 4104]).
Proof. vm_compute. reflexivity. Qed.

(** Thread 1 of [test_ctx] handles the workgroups 1 and 3, at (1, 0, 0) and
    (1, 1, 0).  The three subgroups of each are begun in turn and retired
    round-robin; the coroutine of subgroup [k] finishes at its
    [k + 2]-th [await]. *)
Example barrier_workgroups :
  (r <- dispatch_thread 20 heap_empty test_ctx 1 alloc_thread_context
          test_world_zero ;;
   Done (snd r))
  = Done
      [EvBegin 1 0 0 16 0 1 4104; EvBegin 1 0 0 16 1 1 4112;
       EvBegin 1 0 0 16 2 1 4120;
       EvAwait 4104 true; EvAwait 4112 true; EvAwait 4120 true;
       EvAwait 4104 false; EvDestroy 4104;
       EvAwait 4112 true; EvAwait 4120 true;
       EvAwait 4112 false; EvDestroy 4112;
       EvAwait 4120 true; EvAwait 4120 false; EvDestroy 4120;
       EvBegin 1 1 0 16 0 1 4128; EvBegin 1 1 0 16 1 1 4136;
       EvBegin 1 1 0 16 2 1 4144;
       EvAwait 4128 true; EvAwait 4136 true; EvAwait 4144 true;
       EvAwait 4128 false; EvDestroy 4128;
       EvAwait 4136 true; EvAwait 4144 true;
       EvAwait 4136 false; EvDestroy 4136;
       EvAwait 4144 true; EvAwait 4144 false; EvDestroy 4144].
Proof. vm_compute. reflexivity. Qed.

(** ** [coroutines_dump] *)

Lemma dump_loop_spec (q : coroutines) :
  queue_ok q ->
  forall (n : nat) (i : Z) (out : list dump_item),
  (cap q = 0 /\ i = 0) \/ 0 <= i < cap q ->
  (if i <=? end_ q then end_ q - i else end_ q - i + cap q) = Z.of_nat n ->
  forall fuel, (n < fuel)%nat ->
  dump_loop fuel q i out = Done (out ++ replicate n (DumpHandle (at_slot q 0))).
Proof.
  intros Hok. pose proof Hok as [Hb Hc Hi].
  induction n as [|n IH]; intros i out Hrange Hd [|fuel] Hf; try lia.
  - simpl. destruct (Z.eqb_spec i (end_ q)) as [_|Hne].
    + by rewrite app_nil_r.
    + revert Hd. zbool; lia.
  - cbn [dump_loop]. destruct (Z.eqb_spec i (end_ q)) as [->|Hne].
    { rewrite Z.leb_refl in Hd. lia. }
    assert (Hcap : 0 < cap q) by lia.
    rewrite load_spec by lia. step.
    destruct (Z.eqb_spec (cap q) 0); [lia|].
    rewrite (u32_small (i + 1)) by lia. rewrite succ_mod_wrap by lia.
    rewrite IH; try lia.
    + rewrite <- app_assoc. simpl. do 3 f_equal.
      unfold at_slot, slot. rewrite Z.add_0_r.
      destruct (Z.ltb_spec (start q) (cap q)); [done | lia].
    + revert Hd. zbool; lia.
    + revert Hd. zbool; lia.
Qed.

(** X1.  [coroutines_dump] of a queue reached from the zero queue returns,
    and writes the header, one pointer per queued handle and the closing
    bracket; but every pointer it writes is that of the oldest queued
    handle ([routines[start]]), not that of the handle at the position
    reached. *)
Theorem coroutines_dump_output (q : coroutines) :
  reachable q ->
  exists F, forall fuel, (F <= fuel)%nat ->
    coroutines_dump fuel q
    = Done (DumpHeader (s32 (start q)) (s32 (end_ q)) (s32 (cap q))
            :: replicate (length (contents q)) (DumpHandle (hd NULL (contents q)))
            ++ [DumpEnd]).
Proof.
  intros Hr. pose proof (reachable_ok q Hr) as Hok.
  pose proof Hok as [Hb Hc Hi]. pose proof (count_range q Hok) as Hcnt.
  exists (S (length (contents q))). intros fuel Hf. unfold coroutines_dump.
  rewrite (dump_loop_spec q Hok (length (contents q))); try lia.
  - step. simpl. do 3 f_equal.
    destruct (contents q) as [|x l] eqn:Hcont; [done|]. simpl.
    unfold contents in Hcont.
    destruct (Z.to_nat (count q)) as [|k]; [done|]. simpl in Hcont.
    by injection Hcont as <- _.
  - rewrite length_contents. unfold count in *. revert Hcnt. zbool; lia.
Qed.

Lemma coroutines_dump_output_witness :
  exists F, forall fuel, (F <= fuel)%nat ->
    coroutines_dump fuel queue_after_wrap
    = Done (DumpHeader 2 12 20 :: replicate 10 (DumpHandle 3) ++ [DumpEnd]).
Proof.
  destruct (coroutines_dump_output queue_after_wrap queue_after_wrap_reachable)
    as [F HF].
  exists F. intros fuel Hf. rewrite (HF fuel Hf). vm_compute. reflexivity.
Defined.

(** ** The capacity of the queue *)

Lemma reachable_cap (q : coroutines) :
  reachable q -> cap q = 0 \/ exists k, 0 <= k <= 28 /\ cap q = 10 * 2^k.
Proof.
  induction 1 as [|q r q' Hr IH Hpush|q x q' Hr IH Hpop].
  - by left.
  - pose proof (reachable_ok q Hr) as Hok.
    destruct (push_spec q r Hok)
      as [(q2 & Heq & Hok2 & _ & _ & _ & Hcap)|(Heq & _)]; [|congruence].
    rewrite Hpush in Heq. injection Heq as <-.
    destruct Hcap as [->|[_ Hcap]]; [done|]. right.
    pose proof Hok2 as [_ Hlt _]. rewrite Hcap in Hlt.
    destruct IH as [H0|(k & Hk & Hk2)].
    + exists 0. rewrite Hcap, H0. split; [lia | reflexivity].
    + exists (k + 1). rewrite Hcap, Hk2.
      rewrite Z.pow_add_r by lia. change (2 ^ 1) with 2.
      assert (H1 : 1 <= 2 ^ k) by (apply Z.lt_pred_le, Z.pow_pos_nonneg; lia).
      split; [|lia].
      destruct (Z.le_gt_cases k 27) as [|Hbig]; [lia|].
      assert (k = 28) as -> by lia. rewrite Hk2 in Hlt. vm_compute in Hlt.
      discriminate.
  - pose proof (reachable_ok q Hr) as Hok.
    destruct (pop_spec q Hok) as [(_ & _ & Heq)|(_ & y & q2 & Heq & _ & _ & _ & Hcap & _)];
      rewrite Hpop in Heq; injection Heq as -> ->; [done|].
    by rewrite Hcap.
Qed.

(** X2.  The capacity of a queue reached from the zero queue is 0 or
    [10 * 2^k] with [k <= 28].  The queue therefore holds at most
    [10 * 2^28 - 1 = 2684354559] handles: a push succeeds while fewer are
    queued, and fails (the doubled capacity has wrapped around 2^32 and the
    store is out of bounds) exactly when that many are. *)
Theorem queue_capacity (q : coroutines) :
  reachable q ->
  (cap q = 0 \/ exists k, 0 <= k <= 28 /\ cap q = 10 * 2^k)
  /\ Z.of_nat (length (contents q)) <= 2684354559
  /\ forall r,
       match coroutines_push q r with
       | Done q' => Z.of_nat (length (contents q)) < 2684354559
       | Fault f => f = OutOfBounds /\ Z.of_nat (length (contents q)) = 2684354559
       | OutOfFuel => False
       end.
Proof.
  intros Hr. pose proof (reachable_ok q Hr) as Hok.
  pose proof (reachable_cap q Hr) as Hcap.
  pose proof (count_range q Hok) as Hcnt. rewrite length_contents.
  assert (Hmax : cap q <= 2684354560).
  { destruct Hcap as [->|(k & Hk & ->)]; [lia|].
    pose proof (Z.pow_le_mono_r 2 k 28 ltac:(lia) ltac:(lia)) as Hle.
    change (2 ^ 28) with 268435456 in Hle. lia. }
  split; [done|]. split; [lia|]. intros r.
  destruct (push_spec q r Hok)
    as [(q' & -> & Hok' & _ & Hcnt' & _ & Hc)|(-> & Hbig & Hfull)].
  - pose proof (count_range q' Hok') as Hr'. pose proof Hok' as [_ Hlt _].
    destruct (Z.eq_dec (count q) 2684354559) as [Heq|]; [|lia].
    exfalso. destruct Hc as [Hc|[_ Hc]]; lia.
  - split; [done|].
    destruct Hcap as [H0|(k & Hk & Hk2)]; [lia|].
    destruct (Z.le_gt_cases k 27) as [Hle|Hgt].
    + pose proof (Z.pow_le_mono_r 2 k 27 ltac:(lia) ltac:(lia)) as Hp.
      change (2 ^ 27) with 134217728 in Hp. lia.
    + assert (k = 28) as -> by lia. change (2 ^ 28) with 268435456 in Hk2. lia.
Qed.

Lemma queue_capacity_witness :
  (cap queue_after_wrap = 0
   \/ exists k, 0 <= k <= 28 /\ cap queue_after_wrap = 10 * 2^k)
  /\ Z.of_nat (length (contents queue_after_wrap)) <= 2684354559.
Proof.
  pose proof (queue_capacity queue_after_wrap queue_after_wrap_reachable)
    as (Hcap & Hlen & _).
  split; [exact Hcap | exact Hlen].
Defined.

(** ** Heaps *)

Lemma heap_ok_empty : heap_ok heap_empty.
Proof. intros p bs. simpl. by rewrite lookup_empty. Qed.

Lemma malloc_align_heap (h : heap) (alignment size : Z) :
  0 < alignment -> 0 <= size -> heap_ok h ->
  exists p h', malloc_align h alignment size = Done (p, h')
    /\ 0 < p /\ p mod alignment = 0
    /\ blocks h !! p = None
    /\ blocks h' = <[p := replicate (Z.to_nat size) Byte.x00]> (blocks h)
    /\ heap_ok h'.
Proof.
  intros Ha Hs Hok. pose proof (posix_memalign_aligned h alignment size Ha) as H.
  unfold malloc_align. unfold posix_memalign in *.
  destruct H as (_ & Hp & Hal & Hlt & Hb). cbn [fst snd] in *.
  simpl. eexists _, _. split; [reflexivity|].
  split; [done|]. split; [done|]. split.
  { destruct (blocks h !! _) as [bs|] eqn:E; [|done].
    apply Hok in E. lia. }
  split; [done|].
  intros p' bs'. simpl. intros Hl. apply lookup_insert_Some in Hl as [[<- _]|[_ Hl]].
  - lia.
  - apply Hok in Hl. lia.
Qed.

Lemma free_heap_ok (h h' : heap) (p : Z) :
  heap_ok h -> free h p = Done h' -> heap_ok h'.
Proof.
  intros Hok. unfold free. destruct (Z.eqb_spec p NULL); [by intros [= <-]|].
  destruct (blocks h !! p); [|done]. intros [= <-] p' bs'. simpl.
  intros Hl. apply lookup_delete_Some in Hl as [_ Hl]. by apply Hok in Hl.
Qed.

(** ** [alloc_buffer] *)



(** ** Coroutine frames (support.c) *)

(** X4.  [coroutine_alloc_frame] returns a new allocation of [size] bytes
    at a nonzero address that is a multiple of 16; [coroutine_free_frame]
    of that address releases it, so that the live allocations are those
    of before, and a second [coroutine_free_frame] of the same address is
    an invalid free. *)
Theorem coroutine_frame_round_trip (h : heap) (size : Z) :
  heap_ok h ->
  0 <= size ->
  exists p h1 h2,
    coroutine_alloc_frame h size = Done (p, h1)
    /\ p <> NULL /\ p mod 16 = 0
    /\ blocks h !! p = None
    /\ blocks h1 = <[p := replicate (Z.to_nat size) Byte.x00]> (blocks h)
    /\ coroutine_free_frame h1 p = Done h2
    /\ blocks h2 = blocks h
    /\ coroutine_free_frame h2 p = Fault InvalidFree.
Proof.
  intros Hok Hs. unfold coroutine_alloc_frame, coroutine_free_frame.
  destruct (malloc_align_heap h 16 size) as (p & h1 & -> & Hp & Hal & Hfresh & Hb & _);
    [lia | lia | done |].
  step. assert (Hnull : p <> NULL) by (unfold NULL; lia).
  assert (Hlive : blocks h1 !! p = Some (replicate (Z.to_nat size) Byte.x00)).
  { rewrite Hb. by rewrite lookup_insert_eq. }
  eexists p, h1, _. split; [reflexivity|]. split; [done|]. split; [done|].
  split; [done|]. split; [done|].
  split; [exact (free_live h1 p _ Hlive Hnull)|]. cbn [blocks].
  split; [rewrite Hb; by apply delete_insert_id|].
  unfold free. destruct (Z.eqb_spec p NULL); [done|]. cbn [blocks].
  by rewrite lookup_delete_eq.
Qed.

Lemma coroutine_frame_round_trip_witness :
  exists p h1 h2,
    coroutine_alloc_frame heap_empty 48 = Done (p, h1)
    /\ p mod 16 = 0
    /\ coroutine_free_frame h1 p = Done h2
    /\ blocks h2 = blocks heap_empty.
Proof.
  destruct (coroutine_frame_round_trip heap_empty 48 heap_ok_empty ltac:(lia))
    as (p & h1 & h2 & Ha & _ & Hal & _ & _ & Hf & Hb & _).
  exists p, h1, h2. split; [exact Ha|]. split; [exact Hal|].
  split; [exact Hf | exact Hb].
Defined.

(** ** The allocations of a context *)


Lemma owns_release base h p :
  owns base h p ->
  exists h', (if p =? NULL then Done h else free h p) = Done h'
    /\ blocks h' = base /\ brk h' = brk h.
Proof.
  intros [[-> Hb]|(Hp & Hnone & bs & Hb)].
  - by exists h.
  - destruct (Z.eqb_spec p NULL); [done|].
    rewrite (free_live h p bs); [|by rewrite Hb, lookup_insert_eq|done].
    eexists. split; [reflexivity|]. simpl. split; [|done].
    rewrite Hb. by apply delete_insert_id.
Qed.

Lemma owns_acquire base h h0 p size :
  heap_ok h -> owns base h p ->
  (if p =? NULL then Done h else free h p) = Done h0 ->
  0 <= size ->
  exists q h1, malloc_align h0 16 size = Done (q, h1)
    /\ heap_ok h1 /\ owns base h1 q
    /\ blocks h1 !! q = Some (replicate (Z.to_nat size) Byte.x00).
Proof.
  intros Hok Hown Hfree Hs.
  destruct (owns_release base h p Hown) as (h0' & Hfree' & Hb0 & Hbrk).
  rewrite Hfree in Hfree'. injection Hfree' as <-.
  assert (Hok0 : heap_ok h0).
  { intros k bs Hk. rewrite Hbrk. rewrite Hb0 in Hk.
    destruct Hown as [[_ Hb]|(_ & Hnone & bs' & Hb)].
    - apply (Hok k bs). by rewrite Hb.
    - apply (Hok k bs). rewrite Hb. rewrite lookup_insert_ne; [done|].
      intros <-. congruence. }
  destruct (malloc_align_heap h0 16 size) as (q & h1 & -> & Hq & _ & Hfresh & Hb1 & Hok1);
    [lia | done | done |].
  exists q, h1. split; [done|]. split; [done|]. split.
  - right. split; [unfold NULL; lia|]. rewrite <- Hb0. split; [done|]. eauto.
  - rewrite Hb1. by rewrite lookup_insert_eq.
Qed.

Lemma memcpy_owns base h h' p src n :
  heap_ok h -> owns base h p -> memcpy h p src n = Done h' ->
  heap_ok h' /\ owns base h' p.
Proof.
  intros Hok Hown H.
  apply memcpy_done in H as [Hbrk [[_ ->]|(_ & Hp & bs & Hb & _ & _ & Hh')]]; [done|].
  destruct Hown as [[-> _]|(_ & Hnone & bs' & Hb')]; [done|].
  split.
  - intros k bs2. rewrite Hbrk, Hh'. intros Hk.
    apply lookup_insert_Some in Hk as [[<- _]|[_ Hk]]; by eapply Hok.
  - right. split; [done|]. split; [done|]. eexists.
    rewrite Hh', Hb'. by rewrite insert_insert_eq.
Qed.

Section ContextLife.

Context {W : Type}.

Implicit Types (ctx : dispatch_context W).

Lemma prepare_dispatch_owns base h ctx T info ds gx gy gz h' ctx' :
  heap_ok h -> owns base h (descriptor_set ctx) ->
  prepare_dispatch h ctx T info ds gx gy gz = Done (h', ctx') ->
  heap_ok h' /\ owns base h' (descriptor_set ctx').
Proof.
  intros Hok Hown H.
  apply prepare_dispatch_done in H as (h1 & p & size & ipw & spw & Hres & Hcpy & _ & ->).
  cbn [prepared descriptor_set].
  assert (H1 : heap_ok h1 /\ owns base h1 p).
  { revert Hres. unfold desc_set_reserve.
    destruct (Z.ltb_spec (usize (desc_set_size ctx)) (info_desc_set_size info)) as [Hlt|].
    - intros H. apply bind_done in H as (h0 & Hfree & H).
      assert (Hs : 0 <= info_desc_set_size info).
      { pose proof (Z.mod_pos_bound (desc_set_size ctx) (2^64) ltac:(lia)).
        unfold usize in Hlt. lia. }
      destruct (owns_acquire base h h0 _ _ Hok Hown Hfree Hs)
        as (q & h2 & Hm & Hok2 & Hown2 & _).
      rewrite Hm in H. simpl in H. by injection H as <- <- _.
    - by intros [= <- <- _]. }
  destruct H1 as [Hok1 Hown1]. by eapply memcpy_owns.
Qed.

Lemma free_dispatch_context_owns base h ctx :
  owns base h (descriptor_set ctx) ->
  exists h' ctx', free_dispatch_context h ctx = Done (h', ctx')
    /\ descriptor_set ctx' = NULL /\ blocks h' = base /\ brk h' = brk h
    /\ free_dispatch_context h' ctx' = Done (h', ctx').
Proof.
  intros Hown. destruct (owns_release base h _ Hown) as (h' & Hfree & Hb & Hbrk).
  unfold free_dispatch_context.
  destruct (Z.eqb_spec (descriptor_set ctx) NULL) as [Hnull|Hnn].
  - injection Hfree as <-. exists h, ctx. rewrite Hnull. done.
  - rewrite Hfree. step. eexists _, _. split; [reflexivity|]. done.
Qed.

Lemma context_life_owns (h0 h : heap) ctx :
  heap_ok h0 -> context_life h0 h ctx ->
  heap_ok h /\ owns (blocks h0) h (descriptor_set ctx).
Proof.
  intros Hok0. induction 1 as [|h ctx T info ds gx gy gz h' ctx' _ IH Hprep
                                |h ctx h' ctx' _ IH Hfree].
  - split; [done|]. by left.
  - destruct IH as [Hok Hown]. by eapply prepare_dispatch_owns.
  - destruct IH as [Hok Hown].
    destruct (free_dispatch_context_owns _ h ctx Hown)
      as (h2 & ctx2 & Heq & Hnull & Hb & Hbrk & _).
    rewrite Hfree in Heq. injection Heq as <- <-. split.
    + intros k bs Hk. rewrite Hbrk. rewrite Hb in Hk.
      destruct Hown as [[_ Hb']|(_ & Hnone & bs' & Hb')].
      * apply (Hok k bs). by rewrite Hb'.
      * apply (Hok k bs). rewrite Hb'. rewrite lookup_insert_ne; [done|].
        intros <-. congruence.
    + left. done.
Qed.

(** X5.  The descriptor-set storage of a dispatch context is never leaked
    or freed twice.  (The heap of the model holds the buffers; the context
    structures themselves are values.)  At every point of the life of a
    context (allocated, then prepared for dispatches and freed in any
    order, every call returning), the live allocations are those of before
    the context plus, when [descriptor_set] is not null, the one it points
    to; [free_dispatch_context] then returns, nulls [descriptor_set],
    leaves exactly the allocations of before the context, and calling it
    again changes nothing. *)
Theorem context_life_heap (h0 h : heap) ctx :
  heap_ok h0 ->
  context_life h0 h ctx ->
  ((descriptor_set ctx = NULL /\ blocks h = blocks h0)
   \/ (descriptor_set ctx <> NULL
       /\ blocks h0 !! descriptor_set ctx = None
       /\ exists bs, blocks h = <[descriptor_set ctx := bs]> (blocks h0)))
  /\ exists h' ctx',
       free_dispatch_context h ctx = Done (h', ctx')
       /\ descriptor_set ctx' = NULL
       /\ blocks h' = blocks h0
       /\ free_dispatch_context h' ctx' = Done (h', ctx').
Proof.
  intros Hok0 Hlife.
  destruct (context_life_owns h0 h ctx Hok0 Hlife) as [Hok Hown].
  split; [exact Hown|].
  destruct (free_dispatch_context_owns _ h ctx Hown)
    as (h' & ctx' & Heq & Hnull & Hb & _ & Hagain).
  by exists h', ctx'.
Qed.

End ContextLife.

Lemma context_life_example :
  exists h1 c1 h2 c2,
    prepare_dispatch heap_empty alloc_dispatch_context 1 (sized_info 64)
      (bytes_of 64) 1 1 1 = Done (h1, c1)
    /\ prepare_dispatch h1 c1 1 (sized_info 128) (bytes_of 128) 1 1 1 = Done (h2, c2)
    /\ context_life heap_empty h2 c2.
Proof.
  destruct (prepare_dispatch heap_empty alloc_dispatch_context 1 (sized_info 64)
              (bytes_of 64) 1 1 1) as [[h1 c1]|f|] eqn:H1;
    [|vm_compute in H1; discriminate..].
  destruct (prepare_dispatch h1 c1 1 (sized_info 128) (bytes_of 128) 1 1 1)
    as [[h2 c2]|f|] eqn:H2.
  - exists h1, c1, h2, c2. split; [done|]. split; [done|].
    eapply life_prepare; [|exact H2]. eapply life_prepare; [|exact H1].
    apply life_alloc.
  - vm_compute in H1. injection H1 as <- <-. vm_compute in H2. discriminate.
  - vm_compute in H1. injection H1 as <- <-. vm_compute in H2. discriminate.
Qed.

Lemma context_life_heap_witness :
  exists h1 c1 h2 c2 h3 c3,
    prepare_dispatch heap_empty alloc_dispatch_context 1 (sized_info 64)
      (bytes_of 64) 1 1 1 = Done (h1, c1)
    /\ prepare_dispatch h1 c1 1 (sized_info 128) (bytes_of 128) 1 1 1 = Done (h2, c2)
    /\ free_dispatch_context h2 c2 = Done (h3, c3)
    /\ blocks h3 = blocks heap_empty.
Proof.
  destruct context_life_example as (h1 & c1 & h2 & c2 & H1 & H2 & Hlife).
  destruct (context_life_heap heap_empty h2 c2 heap_ok_empty Hlife)
    as (_ & h3 & c3 & Hfree & _ & Hb & _).
  exists h1, c1, h2, c2, h3, c3. done.
Defined.

(** ** The allocations of a thread context *)

Lemma thread_memory_reserve_owns {W : Type} base h (ctx : dispatch_context W)
    thread h' thread' :
  heap_ok h -> owns base h (thread_memory thread) ->
  0 <= thread_memory_size thread ->
  thread_memory_reserve h ctx thread = Done (h', thread') ->
  heap_ok h' /\ owns base h' (thread_memory thread')
  /\ 0 <= thread_memory_size thread'.
Proof.
  intros Hok Hown Hsz. unfold thread_memory_reserve.
  destruct (Z.ltb_spec (thread_memory_size thread) (memory_size ctx)) as [Hlt|].
  - intros H. apply bind_done in H as (h0 & Hfree & H).
    destruct (owns_acquire base h h0 _ (memory_size ctx) Hok Hown Hfree ltac:(lia))
      as (q & h2 & Hm & Hok2 & Hown2 & _).
    rewrite Hm in H. simpl in H. injection H as <- <-. simpl.
    split; [done|]. split; [done | lia].
  - by intros [= <- <-].
Qed.

Lemma free_thread_context_owns base h thread :
  owns base h (thread_memory thread) ->
  exists h', free_thread_context h thread = Done (h', alloc_thread_context)
    /\ blocks h' = base /\ brk h' = brk h.
Proof.
  intros Hown. destruct (owns_release base h _ Hown) as (h' & Hfree & Hb & Hbrk).
  unfold free_thread_context. rewrite Hfree. step. by exists h'.
Qed.

Lemma thread_life_owns {W : Type} (h0 h : heap) (thread : thread_context) :
  heap_ok h0 -> thread_life (W := W) h0 h thread ->
  heap_ok h /\ owns (blocks h0) h (thread_memory thread)
  /\ 0 <= thread_memory_size thread.
Proof.
  intros Hok0.
  induction 1 as [|h thread fuel ctx t w h' thread' w' tr _ IH Hrun
                  |h thread h' thread' _ IH Hfree].
  - split; [done|]. split; [by left | done].
  - destruct IH as (Hok & Hown & Hsz).
    apply dispatch_thread_memory in Hrun as (thread1 & Hres & -> & -> & _).
    by eapply thread_memory_reserve_owns.
  - destruct IH as (Hok & Hown & Hsz).
    destruct (free_thread_context_owns _ h thread Hown) as (h2 & Heq & Hb & Hbrk).
    rewrite Hfree in Heq. injection Heq as <- ->. split.
    + intros k bs Hk. rewrite Hbrk. rewrite Hb in Hk.
      destruct Hown as [[_ Hb']|(_ & Hnone & bs' & Hb')].
      * apply (Hok k bs). by rewrite Hb'.
      * apply (Hok k bs). rewrite Hb'. rewrite lookup_insert_ne; [done|].
        intros <-. congruence.
    + split; [by left | done].
Qed.

(** X6.  The scratch memory of a thread context is never leaked or freed
    twice.  (The heap of the model holds the buffers; the context
    structures and the array of the queue are values.)  At every point of
    the life of a thread context (allocated, then used by dispatches and
    freed in any order, every call returning), the live allocations are
    those of before the context plus, when [memory] is not null, the one it
    points to.  [free_thread_context] then returns, leaves exactly the
    allocations of before the context, and resets the context to the state
    that [alloc_thread_context] gives, so that the context can be used
    again; freeing it a second time changes nothing. *)
Theorem thread_life_heap {W : Type} (h0 h : heap) (thread : thread_context) :
  heap_ok h0 ->
  thread_life (W := W) h0 h thread ->
  ((thread_memory thread = NULL /\ blocks h = blocks h0)
   \/ (thread_memory thread <> NULL
       /\ blocks h0 !! thread_memory thread = None
       /\ exists bs, blocks h = <[thread_memory thread := bs]> (blocks h0)))
  /\ exists h',
       free_thread_context h thread = Done (h', alloc_thread_context)
       /\ blocks h' = blocks h0
       /\ free_thread_context h' alloc_thread_context = Done (h', alloc_thread_context).
Proof.
  intros Hok0 Hlife.
  destruct (thread_life_owns h0 h thread Hok0 Hlife) as (Hok & Hown & _).
  split; [exact Hown|].
  destruct (free_thread_context_owns _ h thread Hown) as (h' & Heq & Hb & _).
  exists h'. done.
Qed.

Lemma thread_life_example :
  exists h thread w tr,
    dispatch_thread 20 heap_empty test_ctx 1 alloc_thread_context test_world_zero
    = Done (h, thread, w, tr)
    /\ thread_life (W := test_world) heap_empty h thread.
Proof.
  destruct (dispatch_thread 20 heap_empty test_ctx 1 alloc_thread_context
              test_world_zero) as [[[[h thread] w] tr]|f|] eqn:H;
    [|vm_compute in H; discriminate..].
  exists h, thread, w, tr. split; [reflexivity|].
  eapply tlife_dispatch; [apply tlife_alloc | exact H].
Qed.

Lemma thread_life_heap_witness :
  exists h thread w tr h',
    dispatch_thread 20 heap_empty test_ctx 1 alloc_thread_context test_world_zero
    = Done (h, thread, w, tr)
    /\ free_thread_context h thread = Done (h', alloc_thread_context)
    /\ blocks h' = blocks heap_empty.
Proof.
  destruct thread_life_example as (h & thread & w & tr & Hrun & Hlife).
  destruct (thread_life_heap heap_empty h thread heap_ok_empty Hlife)
    as (_ & h' & Hfree & Hb & _).
  exists h, thread, w, tr, h'.
  split; [exact Hrun|]. split; [exact Hfree | exact Hb].
Defined.

(** ** A freed dispatch context prepared again *)

Section Reuse.

Context {W : Type}.

Implicit Types (ctx : dispatch_context W) (info : program_info W).

(** X7.  What a freed dispatch context can still be prepared for.
    [free_dispatch_context] keeps the recorded capacity; a later
    [prepare_dispatch] for a program that needs more than that capacity
    allocates anew, returns, and leaves well-formed storage that holds the
    caller's bytes; one for a program with an empty descriptor set returns
    as well, with a null [descriptor_set]. *)
Theorem prepare_after_free h ctx h1 ctx1 T info ds gx gy gz :
  storage_ok h ctx ->
  free_dispatch_context h ctx = Done (h1, ctx1) ->
  workgroup_fits info ->
  info_desc_set_size info <= Z.of_nat (length ds) ->
  (desc_set_size ctx < info_desc_set_size info <= INT_MAX ->
   exists h2 ctx2,
     prepare_dispatch h1 ctx1 T info ds gx gy gz = Done (h2, ctx2)
     /\ storage_ok h2 ctx2
     /\ desc_set_size ctx2 = info_desc_set_size info
     /\ exists bs, blocks h2 !! descriptor_set ctx2 = Some bs
          /\ take (Z.to_nat (info_desc_set_size info)) bs
             = take (Z.to_nat (info_desc_set_size info)) ds)
  /\ (info_desc_set_size info = 0 ->
      exists ctx2,
        prepare_dispatch h1 ctx1 T info ds gx gy gz = Done (h1, ctx2)
        /\ descriptor_set ctx2 = NULL
        /\ desc_set_size ctx2 = desc_set_size ctx).
Proof.
  intros [Hsz Hst] Hfree Hfit Hds.
  destruct (subgroup_counts_fits info Hfit) as (Hcnt & _).
  assert (Hc1 : descriptor_set ctx1 = NULL /\ desc_set_size ctx1 = desc_set_size ctx).
  { revert Hfree. unfold free_dispatch_context.
    destruct (Z.eqb_spec (descriptor_set ctx) NULL) as [Hnull|Hnn].
    - by intros [= <- <-].
    - intros H. apply bind_done in H as (h' & _ & H). by injection H as <- <-. }
  destruct Hc1 as [Hnull Hsize]. set (n := info_desc_set_size info) in *.
  split.
  - intros Hn.
    destruct (malloc_align_spec h1 16 n) as (p & h2 & Hm & Hp & Hal & Hb); [lia|].
    assert (Hres : desc_set_reserve h1 ctx1 info = Done (h2, p, s32 n)).
    { unfold desc_set_reserve. fold n. rewrite Hsize, Hnull.
      rewrite usize_small by (unfold INT_MAX in *; lia).
      destruct (Z.ltb_spec (desc_set_size ctx) n); [|lia].
      cbn [Z.eqb NULL]. step. rewrite Hm. done. }
    assert (Hlive : blocks h2 !! p = Some (replicate (Z.to_nat n) Byte.x00)).
    { rewrite Hb. by rewrite lookup_insert_eq. }
    destruct (memcpy_live h2 p ds _ n ltac:(unfold NULL; lia) Hlive)
      as (h3 & Hcpy & _ & _ & Hh3); [rewrite length_replicate; lia | done |].
    exists h3. eexists. split.
    { exact (prepare_dispatch_compose _ _ _ _ _ _ _ _ _ _ _ _ _ _ Hres Hcpy Hcnt). }
    rewrite s32_small by (unfold INT_MIN, INT_MAX in *; lia).
    unfold storage_ok. cbn [prepared descriptor_set desc_set_size].
    rewrite Hh3 by lia.
    split.
    { split; [unfold INT_MAX in *; lia|]. right. split; [unfold NULL; lia|]. eexists.
      split; [by rewrite lookup_insert_eq|].
      rewrite length_app, length_take, length_drop, length_replicate. lia. }
    split; [done|]. eexists. split; [by rewrite lookup_insert_eq|].
    rewrite take_app_le by (rewrite length_take; lia).
    rewrite take_take. f_equal. lia.
  - intros H0.
    assert (Hres : desc_set_reserve h1 ctx1 info
                   = Done (h1, descriptor_set ctx1, desc_set_size ctx1)).
    { apply desc_set_reserve_keep; fold n; lia. }
    eexists. split.
    { refine (prepare_dispatch_compose _ _ _ _ _ _ _ _ _ _ _ _ _ _ Hres _ Hcnt).
      fold n. rewrite H0. apply memcpy_zero. }
    done.
Qed.

End Reuse.

Lemma prepare_after_free_witness :
  exists h c h1 c1 h2 c2,
    prepare_dispatch heap_empty alloc_dispatch_context 1 (sized_info 64)
      (bytes_of 64) 1 1 1 = Done (h, c)
    /\ free_dispatch_context h c = Done (h1, c1)
    /\ prepare_dispatch h1 c1 1 (sized_info 128) (bytes_of 128) 1 1 1 = Done (h2, c2)
    /\ storage_ok h2 c2
    /\ desc_set_size c2 = 128.
Proof.
  destruct (prepare_dispatch heap_empty alloc_dispatch_context 1 (sized_info 64)
              (bytes_of 64) 1 1 1) as [[h c]|f|] eqn:H0;
    [|vm_compute in H0; discriminate..].
  assert (Hc : desc_set_size c = 64 /\ storage_ok h c).
  { vm_compute in H0. injection H0 as <- <-. split; [reflexivity|]. split.
    - unfold INT_MAX. simpl. lia.
    - right. split; [discriminate|]. eexists. split; [vm_compute; reflexivity|].
      reflexivity. }
  destruct Hc as [Hsz Hok].
  destruct (free_dispatch_context h c) as [[h1 c1]|f|] eqn:H1.
  2,3: vm_compute in H0; injection H0 as <- <-; vm_compute in H1; discriminate.
  destruct (prepare_after_free h c h1 c1 1 (sized_info 128) (bytes_of 128) 1 1 1
              Hok H1 (workgroup_fits_sized 128)) as [Hgrow _].
  { simpl. lia. }
  destruct Hgrow as (h2 & c2 & H2 & Hok2 & Hsz2 & _).
  { rewrite Hsz. unfold INT_MAX. simpl. lia. }
  exists h, c, h1, c1, h2, c2.
  split; [reflexivity|]. split; [exact H1|]. split; [exact H2|].
  split; [exact Hok2 | exact Hsz2].
Defined.

(** ** Threads without work *)

(** X8.  A thread whose index is not below the number of workgroups has
    nothing to run: [dispatch_thread] reserves the scratch memory and
    returns without calling an entry point (they need not even be bound),
    leaving the program state and the queue as they were. *)
Theorem dispatch_thread_idle {W : Type} (h : heap) (ctx : dispatch_context W)
    (t : Z) (thread : thread_context) (w : W) :
  scratch_ok h thread ->
  0 <= memory_size ctx ->
  INT_MIN <= grid_x ctx * grid_y ctx <= INT_MAX ->
  INT_MIN <= ngroups_of ctx <= INT_MAX ->
  ngroups_of ctx <= t ->
  exists h' thread',
    thread_memory_reserve h ctx thread = Done (h', thread')
    /\ thread_routines thread' = thread_routines thread
    /\ forall fuel, (1 <= fuel)%nat ->
         dispatch_thread fuel h ctx t thread w = Done (h', thread', w, []).
Proof.
  intros Hscr Hmem Hxy Hn Ht.
  destruct (thread_memory_reserve_spec h ctx thread Hscr Hmem)
    as (h' & thread' & Hres & _ & Hq & _).
  exists h', thread'. split; [done|]. split; [done|].
  intros [|fuel] Hf; [lia|]. unfold dispatch_thread. rewrite Hres. step.
  fold (grid_x ctx) (grid_y ctx) (grid_z ctx). unfold int_mul.
  rewrite int_check_ok by done. step.
  unfold ngroups_of in *. rewrite int_check_ok by done. step.
  cbn [groups_loop]. destruct (Z.ltb_spec t (grid_x ctx * grid_y ctx * grid_z ctx)); [lia|].
  step. cbn [rs_routines rs_world rs_trace]. by destruct thread'.
Qed.

Lemma dispatch_thread_idle_witness :
  exists h' thread',
    thread_memory_reserve heap_empty test_ctx alloc_thread_context = Done (h', thread')
    /\ forall fuel, (1 <= fuel)%nat ->
         dispatch_thread fuel heap_empty test_ctx 4 alloc_thread_context test_world_zero
         = Done (h', thread', test_world_zero, []).
Proof.
  destruct (dispatch_thread_idle heap_empty test_ctx 4 alloc_thread_context
              test_world_zero (scratch_ok_alloc _))
    as (h' & thread' & Hres & _ & Hrun).
  - simpl. lia.
  - vm_compute. split; discriminate.
  - vm_compute. split; discriminate.
  - vm_compute. discriminate.
  - exists h', thread'. split; [exact Hres | exact Hrun].
Defined.

(** ** More fuel changes no result *)

Section Fuel.

Context {W : Type}.
Variable ctx : dispatch_context W.

Implicit Types (st : run_state W).

Lemma spawn_subgroups_S memory x y z (fuel : nat) s st :
  spawn_subgroups (S fuel) ctx memory x y z s st
  = if u32 s <? subgroups_per_workgroup (data ctx) then
      st <- spawn ctx memory x y z s 1 st ;;
      subgroup <- int_add s 1 ;;
      spawn_subgroups fuel ctx memory x y z subgroup st
    else Done st.
Proof. reflexivity. Qed.

Lemma spawn_subgroups_fuel memory x y z (fuel : nat) :
  forall s st,
  spawn_subgroups fuel ctx memory x y z s st <> OutOfFuel ->
  spawn_subgroups (S fuel) ctx memory x y z s st
  = spawn_subgroups fuel ctx memory x y z s st.
Proof.
  induction fuel as [|fuel IH]; intros s st H; [done|].
  rewrite spawn_subgroups_S. rewrite (spawn_subgroups_S _ _ _ _ fuel) in H |- *.
  destruct (u32 s <? subgroups_per_workgroup (data ctx)); [|done].
  destruct (spawn ctx memory x y z s 1 st) as [st1|f|]; cbn [bind] in *; try done.
  destruct (int_add s 1) as [s'|f|]; cbn [bind] in *; try done.
  by apply IH.
Qed.

Lemma drain_S (fuel : nat) st :
  drain (S fuel) ctx st
  = (p <- coroutines_pop (rs_routines st) ;;
     match fst p with
     | None =>
         Done {| rs_routines := snd p;
                 rs_world := rs_world st;
                 rs_trace := rs_trace st |}
     | Some r =>
         f <- call (await ctx) ;;
         let '(running, w) := f r (rs_world st) in
         if running then
           q <- coroutines_push (snd p) r ;;
           drain fuel ctx {| rs_routines := q;
                             rs_world := w;
                             rs_trace := rs_trace st ++ [EvAwait r true] |}
         else
           g <- call (destroy ctx) ;;
           drain fuel ctx {| rs_routines := snd p;
                             rs_world := g r w;
                             rs_trace := rs_trace st
                                         ++ [EvAwait r false; EvDestroy r] |}
     end).
Proof. reflexivity. Qed.

Lemma drain_fuel (fuel : nat) :
  forall st,
  drain fuel ctx st <> OutOfFuel -> drain (S fuel) ctx st = drain fuel ctx st.
Proof.
  induction fuel as [|fuel IH]; intros st H; [done|].
  rewrite drain_S. rewrite (drain_S fuel) in H |- *.
  destruct (coroutines_pop (rs_routines st)) as [[[r|] q]|f|]; cbn [bind fst snd] in *;
    try done.
  destruct (call (await ctx)) as [fa|f|]; cbn [bind] in *; try done.
  destruct (fa r (rs_world st)) as [[|] w1].
  - destruct (coroutines_push q r) as [q2|f|]; cbn [bind] in *; try done.
    by apply IH.
  - destruct (call (destroy ctx)) as [fd|f|]; cbn [bind] in *; try done.
    by apply IH.
Qed.

Lemma dispatch_group_fuel memory sx sy i st (fuel : nat) :
  dispatch_group fuel ctx memory sx sy i st <> OutOfFuel ->
  dispatch_group (S fuel) ctx memory sx sy i st
  = dispatch_group fuel ctx memory sx sy i st.
Proof.
  unfold dispatch_group.
  destruct (group_coords sx sy i) as [[[x y] z]|f|]; cbn [bind]; try done.
  destruct (has_cbarriers ctx).
  - intros H.
    destruct (spawn_subgroups fuel ctx memory x y z 0 st) as [st1|f|] eqn:E;
      cbn [bind] in H; try done.
    + rewrite spawn_subgroups_fuel, E by (by rewrite E). cbn [bind].
      by apply drain_fuel.
    + by rewrite spawn_subgroups_fuel, E by (by rewrite E).
  - destruct (spawn ctx memory x y z 0 _ st) as [st1|f|]; cbn [bind]; try done.
    apply drain_fuel.
Qed.

Lemma dispatch_group_fuel_le memory sx sy i st (fuel fuel' : nat) :
  (fuel <= fuel')%nat ->
  dispatch_group fuel ctx memory sx sy i st <> OutOfFuel ->
  dispatch_group fuel' ctx memory sx sy i st
  = dispatch_group fuel ctx memory sx sy i st.
Proof.
  induction 1 as [|fuel' _ IH]; intros H; [done|].
  rewrite dispatch_group_fuel; [by apply IH|]. by rewrite IH.
Qed.

End Fuel.

(** ** A dispatch for no thread *)

Section ZeroThreads.

Context {W : Type}.
Variable ctx : dispatch_context W.
Variable fb : routine_begin W.
Variable fa : routine_await W.
Variable fd : routine_destroy W.
Hypothesis ctx_begin : begin ctx = Some fb.
Hypothesis ctx_await : await ctx = Some fa.
Hypothesis ctx_destroy : destroy ctx = Some fd.
Variable budget : W -> coroutine -> nat.
Hypothesis program_finishes : finishes fa fd budget.
Hypothesis no_thread : nthreads ctx = 0.

Lemma groups_loop_stuck memory sx sy ngroups i (fuel : nat) :
  0 < sx -> 0 < sy -> sx * sy <= INT_MAX -> 0 <= i <= INT_MAX ->
  0 <= subgroups_per_workgroup (data ctx) <= INT_MAX ->
  i < ngroups ->
  forall (n : nat) (st : run_state W),
  queue_ok (rs_routines st) ->
  contents (rs_routines st) = [] ->
  groups_loop n fuel ctx memory sx sy ngroups i st = OutOfFuel.
Proof.
  intros Hsx Hsy Hxy Hi Hspw Hlt.
  induction n as [|n IH]; intros st Hok Hnil; [done|].
  cbn [groups_loop]. destruct (Z.ltb_spec i ngroups); [|lia].
  destruct (dispatch_group_spec ctx fb fa fd ctx_begin ctx_await ctx_destroy budget
              program_finishes memory sx sy i st Hsx Hsy Hxy Hi Hspw Hok Hnil)
    as (st' & seg & F & Hrun & Hok' & Hnil' & _).
  destruct (dispatch_group fuel ctx memory sx sy i st) as [st1|f|] eqn:E;
    cbn [bind]; [| |done].
  - pose proof (dispatch_group_fuel_le ctx memory sx sy i st fuel (Nat.max fuel F)
                  ltac:(lia) ltac:(by rewrite E)) as Hmono.
    rewrite Hrun, E in Hmono by lia. injection Hmono as ->.
    unfold int_add. rewrite no_thread, Z.add_0_r.
    rewrite int_check_ok by (unfold INT_MIN, INT_MAX in *; lia). cbn [bind].
    by apply IH.
  - pose proof (dispatch_group_fuel_le ctx memory sx sy i st fuel (Nat.max fuel F)
                  ltac:(lia) ltac:(by rewrite E)) as Hmono.
    rewrite Hrun, E in Hmono by lia. discriminate.
Qed.

End ZeroThreads.

(** X9.  [prepare_dispatch] takes any number of threads, also 0.  On the
    context it then builds, [dispatch_thread] for a thread index that has a
    workgroup to run makes no progress: the loop over workgroups advances
    by [nthreads = 0], so that the call never returns and never fails, it
    runs the same workgroup again and again. *)
Theorem dispatch_thread_zero_threads {W : Type} h0 (ctx0 : dispatch_context W)
    info ds gx gy gz h ctx fb fa fd budget h1 t thread w :
  prepare_dispatch h0 ctx0 0 info ds gx gy gz = Done (h, ctx) ->
  grid_fits 1 gx gy gz ->
  workgroup_fits info ->
  0 <= min_memory_size info ->
  info_begin info = Some fb ->
  info_await info = Some fa ->
  info_destroy info = Some fd ->
  finishes fa fd budget ->
  0 <= t < gx * gy * gz ->
  scratch_ok h1 thread ->
  queue_ok (thread_routines thread) ->
  start (thread_routines thread) = end_ (thread_routines thread) ->
  nthreads ctx = 0
  /\ forall fuel, dispatch_thread fuel h1 ctx t thread w = OutOfFuel.
Proof.
  intros Hprep (Hx & Hy & Hz & Hxy & Hn & _) Hfit Hmem Hb Ha Hd Hfin Ht Hscr Hok Hempty.
  apply (empty_iff _ Hok) in Hempty.
  apply prepare_dispatch_done in Hprep
    as (ha & p & size & ipw' & spw & _ & _ & Hcnt & ->).
  destruct (subgroup_counts_fits info Hfit) as (Hcnt' & Hipw & Hceil & Hspw).
  rewrite Hcnt' in Hcnt. injection Hcnt as <- <-.
  set (ctx := prepared ctx0 0 info gx gy gz p size _ _).
  assert (Hgx : grid_x ctx = gx) by (apply s32_u32; lia).
  assert (Hgy : grid_y ctx = gy) by (apply s32_u32; lia).
  assert (Hgz : grid_z ctx = gz) by (apply s32_u32; lia).
  assert (Hs : 0 <= subgroups_per_workgroup (data ctx) <= INT_MAX).
  { subst ctx. cbn [prepared data subgroups_per_workgroup].
    rewrite u32_small by (unfold INT_MAX in *; lia). done. }
  split; [done|]. intros fuel.
  destruct (thread_memory_reserve_spec h1 ctx thread Hscr Hmem)
    as (h' & thread1 & Hres & _ & Hq1 & _).
  unfold dispatch_thread. rewrite Hres. step.
  fold (grid_x ctx) (grid_y ctx) (grid_z ctx). rewrite Hgx, Hgy, Hgz.
  unfold int_mul.
  rewrite int_check_ok by (unfold INT_MIN, INT_MAX in *; lia). step.
  rewrite int_check_ok by (unfold INT_MIN, INT_MAX in *; lia). step.
  assert (Hpos : 0 < gx /\ 0 < gy) by nia.
  rewrite (groups_loop_stuck ctx fb fa fd Hb Ha Hd budget Hfin eq_refl);
    try done; try lia.
  - unfold INT_MAX in *. lia.
  - cbn [rs_routines]. by rewrite Hq1.
  - cbn [rs_routines]. by rewrite Hq1.
Qed.

Lemma dispatch_thread_zero_threads_witness :
  exists h ctx,
    prepare_dispatch heap_empty alloc_dispatch_context 0 (test_info false 4 1 1)
      test_desc_set 2 1 1 = Done (h, ctx)
    /\ nthreads ctx = 0
    /\ forall fuel,
         dispatch_thread fuel h ctx 0 alloc_thread_context test_world_zero = OutOfFuel.
Proof.
  destruct (prepare_dispatch heap_empty alloc_dispatch_context 0
              (test_info false 4 1 1) test_desc_set 2 1 1)
    as [[h ctx]|f|] eqn:Heq; [|vm_compute in Heq; discriminate..].
  exists h, ctx. split; [reflexivity|].
  apply (dispatch_thread_zero_threads heap_empty alloc_dispatch_context
           (test_info false 4 1 1) test_desc_set 2 1 1 h ctx
           test_begin test_await test_destroy left h 0 alloc_thread_context
           test_world_zero Heq); try reflexivity.
  - unfold grid_fits, INT_MAX. lia.
  - unfold workgroup_fits, SIMD_WIDTH, INT_MAX. simpl. lia.
  - simpl. lia.
  - exact test_finishes.
  - lia.
  - apply scratch_ok_alloc.
  - apply queue_ok_zero.
Defined.

(** ** The size of a thread's queue *)



Section QueueBound.

Context {W : Type}.
Variable ctx : dispatch_context W.
Variables B M : Z.
Hypothesis M_bound : Z.max 10 (2 * B) <= M.

Implicit Types (st : run_state W).




Hypothesis B_bound :
  (if has_cbarriers ctx then subgroups_per_workgroup (data ctx) else 1) <= B.
Hypothesis B_nonneg : 0 <= B.



End QueueBound.



(** ** How often a coroutine is polled *)

Lemma queued_app (r : coroutine) (l1 l2 : list coroutine) :
  queued r (l1 ++ l2) = (queued r l1 + queued r l2)%nat.
Proof. induction l1 as [|x l1 IH]; simpl; [done|]. rewrite IH. lia. Qed.

Section Polling.

Context {W : Type}.
Variable ctx : dispatch_context W.
Variable fa : routine_await W.
Variable fd : routine_destroy W.
Hypothesis ctx_await : await ctx = Some fa.
Hypothesis ctx_destroy : destroy ctx = Some fd.
Variable budget : W -> coroutine -> nat.
Hypothesis program_finishes : finishes fa fd budget.

(** X11.  The loop that retires the queued coroutines polls no coroutine
    more often than it has to.  Whenever the loop returns, each handle has
    been passed to [await] at most once per time it was queued plus once
    per suspension that its budget has lost ([budget] being the bound on
    the suspensions of a finishing program), and a handle that was not
    queued has not been passed to [await] at all. *)
Theorem drain_await_bound (fuel : nat) :
  forall st st',
  drain fuel ctx st = Done st' ->
  queue_ok (rs_routines st) ->
  exists evs,
    rs_trace st' = rs_trace st ++ evs
    /\ (forall r,
          (awaits r evs + budget (rs_world st') r
           <= budget (rs_world st) r + queued r (contents (rs_routines st)))%nat)
    /\ (forall r, ~ In r (contents (rs_routines st)) -> awaits r evs = 0%nat).
Proof.
  destruct program_finishes as (Hrunning & Hawait & Hdestroy).
  induction fuel as [|fuel IH]; intros st st'; [done|].
  rewrite drain_S. intros H Hok.
  destruct (pop_spec _ Hok)
    as [(_ & Hnil & Hpop)|(_ & r0 & q1 & Hpop & Hcons & Hok1 & _)];
    rewrite Hpop in H; cbn [bind fst snd] in H.
  - injection H as <-. exists []. cbn [rs_trace rs_world].
    rewrite app_nil_r. split; [done|]. split; [intros r; simpl; lia | done].
  - rewrite ctx_await in H. cbn [call bind] in H.
    destruct (fa r0 (rs_world st)) as [[|] w1] eqn:Hfa.
    + apply bind_done in H as (q2 & Hpush & H).
      destruct (push_spec q1 r0 Hok1)
        as [(q2' & Heq & Hok2 & Hc2 & _)|(Heq & _)]; [|congruence].
      rewrite Hpush in Heq. injection Heq as <-.
      apply IH in H as (evs & Htr & Hb & Hnot); [|done].
      cbn [rs_trace rs_world rs_routines] in *.
      exists (EvAwait r0 true :: evs). split; [by rewrite Htr, <- app_assoc|].
      pose proof (Hrunning r0 (rs_world st)) as Hlt. rewrite Hfa in Hlt.
      specialize (Hlt eq_refl). cbn [snd] in Hlt.
      split.
      * intros r. specialize (Hb r). rewrite Hc2, queued_app in Hb.
        rewrite Hcons. simpl in *.
        pose proof (Hawait r0 (rs_world st) r) as Hle. rewrite Hfa in Hle.
        cbn [snd] in Hle.
        destruct (Z.eqb_spec r0 r) as [->|]; lia.
      * intros r Hin. rewrite Hcons in Hin. simpl in *.
        destruct (Z.eqb_spec r0 r) as [->|Hne]; [tauto|]. apply Hnot.
        rewrite Hc2. rewrite in_app_iff. simpl. tauto.
    + rewrite ctx_destroy in H. cbn [call bind] in H.
      apply IH in H as (evs & Htr & Hb & Hnot); [|done].
      cbn [rs_trace rs_world rs_routines] in *.
      exists (EvAwait r0 false :: EvDestroy r0 :: evs).
      split; [by rewrite Htr, <- app_assoc|]. split.
      * intros r. specialize (Hb r). rewrite Hcons. simpl.
        pose proof (Hawait r0 (rs_world st) r) as Hle. rewrite Hfa in Hle.
        cbn [snd] in Hle. pose proof (Hdestroy r0 w1 r) as Hle2.
        destruct (Z.eqb_spec r0 r) as [->|]; lia.
      * intros r Hin. rewrite Hcons in Hin. simpl in *.
        destruct (Z.eqb_spec r0 r) as [->|Hne]; [tauto|]. apply Hnot. tauto.
Qed.

End Polling.

Lemma drain_await_bound_witness :
  exists st1 st2 evs,
    spawn test_ctx 16 0 0 0 1 1
      {| rs_routines := coroutines_zero; rs_world := test_world_zero; rs_trace := [] |}
    = Done st1
    /\ drain 10 test_ctx st1 = Done st2
    /\ rs_trace st2 = rs_trace st1 ++ evs
    /\ (awaits 4104%Z evs + left (rs_world st2) 4104%Z
        <= left (rs_world st1) 4104%Z
           + queued 4104%Z (contents (rs_routines st1)))%nat.
Proof.
  destruct (spawn test_ctx 16 0 0 0 1 1
              {| rs_routines := coroutines_zero; rs_world := test_world_zero;
                 rs_trace := [] |}) as [st1|f|] eqn:H1;
    [|vm_compute in H1; discriminate..].
  assert (Hok : queue_ok (rs_routines st1)).
  { vm_compute in H1. injection H1 as <-. split; simpl; lia. }
  destruct (drain 10 test_ctx st1) as [st2|f|] eqn:H2.
  2,3: vm_compute in H1; injection H1 as <-; vm_compute in H2; discriminate.
  destruct (drain_await_bound test_ctx test_await test_destroy eq_refl eq_refl left
              test_finishes 10 st1 st2 H2 Hok) as (evs & Htr & Hb & _).
  exists st1, st2, evs. split; [reflexivity|]. split; [exact H2|].
  split; [exact Htr | exact (Hb 4104)].
Defined.

(** ** The retirement of the coroutines, round by round *)

Lemma drained_first_round (l1 : list coroutine) :
  forall l2 tr,
  drained (l1 ++ l2) tr ->
  exists round rest,
    tr = round ++ rest
    /\ awaited round = l1
    /\ destroyed round = finished round
    /\ begun round = []
    /\ drained (l2 ++ still_running round) rest.
Proof.
  induction l1 as [|r l1 IH]; intros l2 tr H.
  - exists [], tr. simpl. by rewrite app_nil_r.
  - simpl in H. inversion H as [|r' l' tr1 H1|r' l' tr1 H1]; subst.
    + rewrite <- app_assoc in H1.
      destruct (IH _ _ H1) as (round & rest & -> & Ha & Hd & Hb & Hrest).
      exists (EvAwait r true :: round), rest. simpl. rewrite Ha, Hd, Hb.
      rewrite <- app_assoc in Hrest. done.
    + destruct (IH _ _ H1) as (round & rest & -> & Ha & Hd & Hb & Hrest).
      exists (EvAwait r false :: EvDestroy r :: round), rest. simpl.
      rewrite Ha, Hd, Hb. done.
Qed.

Lemma drained_length (l : list coroutine) (tr : list event) :
  drained l tr -> (length l <= length tr)%nat.
Proof.
  induction 1 as [|r l tr _ IH|r l tr _ IH]; simpl in *; [done| |lia].
  rewrite length_app in IH. simpl in IH. lia.
Qed.

Lemma drained_in_rounds (n : nat) :
  forall l tr, (length tr <= n)%nat -> drained l tr -> in_rounds l tr.
Proof.
  induction n as [|n IH]; intros l tr Hn H.
  - destruct tr; [|simpl in Hn; lia].
    pose proof (drained_length _ _ H) as Hl. destruct l; [|simpl in Hl; lia].
    constructor.
  - destruct l as [|r l].
    { inversion H. constructor. }
    rewrite <- (app_nil_r (r :: l)) in H.
    destruct (drained_first_round _ _ _ H) as (round & rest & -> & Ha & Hd & Hb & Hrest).
    apply rounds_next; try done. apply IH; [|done].
    rewrite length_app in Hn.
    assert (length round <> 0%nat).
    { destruct round; [done | simpl; lia]. }
    lia.
Qed.

Section Rounds.

Context {W : Type}.
Variable ctx : dispatch_context W.

Lemma drain_drained (fuel : nat) :
  forall (st st' : run_state W),
  drain fuel ctx st = Done st' ->
  queue_ok (rs_routines st) ->
  exists evs,
    rs_trace st' = rs_trace st ++ evs
    /\ drained (contents (rs_routines st)) evs.
Proof.
  induction fuel as [|fuel IH]; intros st st'; [done|].
  rewrite drain_S. intros H Hok.
  destruct (pop_spec _ Hok)
    as [(_ & Hnil & Hpop)|(_ & r0 & q1 & Hpop & Hcons & Hok1 & _)];
    rewrite Hpop in H; cbn [bind fst snd] in H.
  - injection H as <-. exists []. cbn [rs_trace]. rewrite app_nil_r, Hnil.
    split; [done | constructor].
  - apply bind_done in H as (f & _ & H).
    destruct (f r0 (rs_world st)) as [[|] w1].
    + apply bind_done in H as (q2 & Hpush & H).
      destruct (push_spec q1 r0 Hok1)
        as [(q2' & Heq & Hok2 & Hc2 & _)|(Heq & _)]; [|congruence].
      rewrite Hpush in Heq. injection Heq as <-.
      apply IH in H as (evs & Htr & Hd); [|done]. cbn [rs_trace rs_routines] in *.
      exists (EvAwait r0 true :: evs). split; [by rewrite Htr, <- app_assoc|].
      rewrite Hcons. constructor. by rewrite <- Hc2.
    + apply bind_done in H as (g & _ & H).
      apply IH in H as (evs & Htr & Hd); [|done]. cbn [rs_trace rs_routines] in *.
      exists (EvAwait r0 false :: EvDestroy r0 :: evs).
      split; [by rewrite Htr, <- app_assoc|].
      rewrite Hcons. by constructor.
Qed.

(** X12.  The loop that retires the queued coroutines works in rounds.
    Whenever it returns, the calls it made split into rounds: each round
    passes every queued handle to [await] exactly once, in the order of
    the queue, and calls [destroy] on exactly those that reported
    "finished"; those that reported "running" form, in the same order,
    the queue of the next round; after the last round no handle is left.
    So no coroutine is polled a second time before every other queued
    coroutine has been polled. *)
Theorem drain_round_robin (fuel : nat) (st st' : run_state W) :
  drain fuel ctx st = Done st' ->
  queue_ok (rs_routines st) ->
  exists evs,
    rs_trace st' = rs_trace st ++ evs
    /\ in_rounds (contents (rs_routines st)) evs.
Proof.
  intros H Hok. destruct (drain_drained fuel st st' H Hok) as (evs & Htr & Hd).
  exists evs. split; [done|]. by apply (drained_in_rounds (length evs)).
Qed.

End Rounds.

Lemma drain_round_robin_witness :
  exists st1 st2 evs,
    spawn_subgroups 10 test_ctx 16 0 0 0 0
      {| rs_routines := coroutines_zero; rs_world := test_world_zero; rs_trace := [] |}
    = Done st1
    /\ contents (rs_routines st1) = [4104; 4112; 4120]
    /\ drain 20 test_ctx st1 = Done st2
    /\ rs_trace st2 = rs_trace st1 ++ evs
    /\ in_rounds [4104; 4112; 4120] evs.
Proof.
  destruct (spawn_subgroups 10 test_ctx 16 0 0 0 0
              {| rs_routines := coroutines_zero; rs_world := test_world_zero;
                 rs_trace := [] |}) as [st1|f|] eqn:H1;
    [|vm_compute in H1; discriminate..].
  assert (Hst : queue_ok (rs_routines st1)
                /\ contents (rs_routines st1) = [4104; 4112; 4120]).
  { vm_compute in H1. injection H1 as <-. split; [split; simpl; lia|].
    vm_compute. reflexivity. }
  destruct Hst as [Hok Hc].
  destruct (drain 20 test_ctx st1) as [st2|f|] eqn:H2.
  2,3: vm_compute in H1; injection H1 as <-; vm_compute in H2; discriminate.
  destruct (drain_round_robin test_ctx 20 st1 st2 H2 Hok) as (evs & Htr & Hr).
  exists st1, st2, evs. split; [reflexivity|]. split; [exact Hc|].
  split; [exact H2|]. split; [exact Htr|]. rewrite <- Hc. exact Hr.
Defined.

(** ** The allocator of mem.h *)

Lemma land3 (x : Z) : Z.land x 3 = x mod 4.
Proof. change 3 with (Z.ones 2). by rewrite Z.land_ones by lia. Qed.

Lemma shiftr2 (x : Z) : Z.shiftr x 2 = x / 4.
Proof. by rewrite Z.shiftr_div_pow2 by lia. Qed.

Lemma malloc_cases (dbg : bool) (sz : Z) (m : Mem.Memory) :
  0 <= Mem.mem_offset m ->
  0 <= sz ->
  Mem.mem_offset m + sz < 2^32 ->
  Mem.memory_length m * 4 < 2^32 ->
  let advanced (e : Z) :=
    {| Mem.mem_offset := Mem.mem_offset m + sz;
       Mem.mem_error := e;
       Mem.memory := Mem.memory m |} in
  (Mem.memory_length m * 4 < Mem.mem_offset m + sz
   /\ Mem.malloc dbg sz m
      = ({| Mem.alloc := Mem.new_alloc dbg (Mem.mem_offset m) sz false;
            Mem.failed := true |},
         advanced (Z.max (Mem.mem_error m) Mem.ERR_MALLOC_FAILED)))
  \/ (Mem.mem_offset m + sz <= Mem.memory_length m * 4
      /\ dbg = true /\ sz mod 4 <> 0
      /\ Mem.malloc dbg sz m
         = ({| Mem.alloc := Mem.new_alloc dbg (Mem.mem_offset m) sz true;
               Mem.failed := true |},
            advanced (Z.max (Mem.mem_error m) Mem.ERR_UNALIGNED_ACCESS)))
  \/ (Mem.mem_offset m + sz <= Mem.memory_length m * 4
      /\ (dbg = true -> sz mod 4 = 0)
      /\ Mem.malloc dbg sz m
         = ({| Mem.alloc := Mem.new_alloc dbg (Mem.mem_offset m) sz true;
               Mem.failed := false |},
            advanced (Mem.mem_error m))).
Proof.
  intros Ho Hs Hsum Hlen advanced. subst advanced.
  unfold Mem.malloc, Mem.atomicAdd_mem_offset, Mem.memory_length in *.
  cbn [Mem.memory Mem.mem_offset Mem.mem_error].
  rewrite !u32_small by lia. rewrite land3.
  destruct (Z.ltb_spec (Z.of_nat (length (Mem.memory m)) * 4) (Mem.mem_offset m + sz))
    as [Hfail|Hfit].
  - left. done.
  - right. destruct dbg; cbn [andb negb].
    + destruct (Z.eqb_spec (sz mod 4) 0) as [Hal|Hal]; cbn [negb].
      * right. done.
      * left. done.
    + right. done.
Qed.

(** X13.  [malloc] of mem.h, as long as the end of the new allocation does
    not pass 2^32.  The allocation starts at the offset recorded before the
    call, and the recorded offset is advanced by [size] whether the call
    fails or not.  The call succeeds exactly when the allocation ends
    within the [4 * memory.length()] bytes of memory and, under
    [MEM_DEBUG], [size] is a multiple of 4.  A success leaves [mem_error]
    alone; a failure for lack of memory raises it to [ERR_MALLOC_FAILED] at
    least, one for a misaligned size to [ERR_UNALIGNED_ACCESS]; [memory]
    itself is never written. *)
Theorem mem_malloc_spec (dbg : bool) (sz : Z) (m : Mem.Memory) :
  0 <= Mem.mem_offset m ->
  0 <= sz ->
  Mem.mem_offset m + sz < 2^32 ->
  Mem.memory_length m * 4 < 2^32 ->
  let r := fst (Mem.malloc dbg sz m) in
  let m' := snd (Mem.malloc dbg sz m) in
  Mem.offset (Mem.alloc r) = Mem.mem_offset m
  /\ Mem.mem_offset m' = Mem.mem_offset m + sz
  /\ Mem.memory m' = Mem.memory m
  /\ (Mem.failed r = false
      <-> Mem.mem_offset m + sz <= Mem.memory_length m * 4
          /\ (dbg = true -> sz mod 4 = 0))
  /\ (Mem.failed r = false ->
      Mem.mem_error m' = Mem.mem_error m
      /\ (dbg = true -> Mem.size (Mem.alloc r) = sz))
  /\ (Mem.memory_length m * 4 < Mem.mem_offset m + sz ->
      Mem.mem_error m' = Z.max (Mem.mem_error m) Mem.ERR_MALLOC_FAILED)
  /\ (Mem.mem_offset m + sz <= Mem.memory_length m * 4 ->
      dbg = true -> sz mod 4 <> 0 ->
      Mem.mem_error m' = Z.max (Mem.mem_error m) Mem.ERR_UNALIGNED_ACCESS).
Proof.
  intros Ho Hs Hsum Hlen r m'. subst r m'.
  destruct (malloc_cases dbg sz m Ho Hs Hsum Hlen)
    as [(Hfail & ->)|[(Hfit & -> & Hal & ->)|(Hfit & Hal & ->)]];
    cbn [fst snd Mem.alloc Mem.failed Mem.mem_offset Mem.memory Mem.mem_error];
    unfold Mem.new_alloc.
  - destruct dbg; cbn [Mem.offset]; repeat split; try done; intros; lia.
  - cbn [Mem.offset Mem.size]. repeat split; try done; intros; try lia.
    all: try (destruct H as [_ H]; specialize (H eq_refl); lia).
  - destruct dbg; cbn [Mem.offset Mem.size]; repeat split; try done; intros; try lia;
      auto.
Qed.


Lemma mem_malloc_spec_witness :
  Mem.offset (Mem.alloc (fst (Mem.malloc false 24 mem_example))) = 8
  /\ Mem.mem_offset (snd (Mem.malloc false 24 mem_example)) = 8 + 24
  /\ (Mem.failed (fst (Mem.malloc false 24 mem_example)) = false
      <-> 8 + 24 <= Mem.memory_length mem_example * 4
          /\ (false = true -> 24 mod 4 = 0)).
Proof.
  destruct (mem_malloc_spec false 24 mem_example)
    as (Hoff & Hadv & _ & Hok & _).
  - simpl. lia.
  - lia.
  - simpl. lia.
  - unfold mem_example, Mem.memory_length. simpl. lia.
  - split; [exact Hoff|]. split; [exact Hadv | exact Hok].
Defined.

(** X14.  A [malloc] that fails for lack of memory is not undone: the
    recorded offset stays beyond the end of memory, so that every later
    [malloc] fails as well, whatever its size (also 0), for as long as the
    offsets do not pass 2^32. *)
Theorem mem_malloc_exhausted (dbg : bool) (sz sz2 : Z) (m : Mem.Memory) :
  0 <= Mem.mem_offset m ->
  0 <= sz ->
  0 <= sz2 ->
  Mem.mem_offset m + sz + sz2 < 2^32 ->
  Mem.memory_length m * 4 < Mem.mem_offset m + sz ->
  Mem.failed (fst (Mem.malloc dbg sz m)) = true
  /\ Mem.failed (fst (Mem.malloc dbg sz2 (snd (Mem.malloc dbg sz m)))) = true.
Proof.
  intros Ho Hs Hs2 Hsum Hfail.
  assert (Hlen : 0 <= Mem.memory_length m) by (unfold Mem.memory_length; lia).
  destruct (malloc_cases dbg sz m Ho Hs ltac:(lia) ltac:(lia))
    as [(_ & ->)|[(Hfit & _)|(Hfit & _)]]; [|lia..].
  cbn [fst snd Mem.failed]. split; [done|].
  match goal with |- context [Mem.malloc dbg sz2 ?x] => set (m1 := x) end.
  destruct (malloc_cases dbg sz2 m1) as [(_ & ->)|[(Hfit & _)|(Hfit & _)]];
    subst m1; cbn [Mem.mem_offset Mem.memory_length Mem.memory] in *;
    unfold Mem.memory_length in *; cbn [Mem.memory] in *; try lia.
  done.
Qed.

Lemma mem_malloc_exhausted_witness :
  Mem.failed (fst (Mem.malloc false 64 mem_example)) = true
  /\ Mem.failed (fst (Mem.malloc false 0 (snd (Mem.malloc false 64 mem_example))))
     = true.
Proof.
  apply (mem_malloc_exhausted false 64 0 mem_example);
    unfold mem_example, Mem.memory_length; simpl; lia.
Defined.

(** X15.  [malloc] compares the end of the new allocation with the size of
    memory in [uint] arithmetic, so that an end past 2^32 wraps around.
    When the wrapped end is within memory (and, under [MEM_DEBUG], the size
    is a multiple of 4), the call reports success although the allocation
    extends beyond the end of memory, and it leaves the recorded offset
    below the one it found, at addresses that were handed out before. *)
Theorem mem_malloc_wraps (dbg : bool) (sz : Z) (m : Mem.Memory) :
  0 <= Mem.mem_offset m < 2^32 ->
  0 <= sz < 2^32 ->
  2^32 <= Mem.mem_offset m + sz ->
  Mem.mem_offset m + sz - 2^32 <= Mem.memory_length m * 4 ->
  Mem.memory_length m * 4 < 2^32 ->
  (dbg = true -> sz mod 4 = 0) ->
  let r := fst (Mem.malloc dbg sz m) in
  let m' := snd (Mem.malloc dbg sz m) in
  Mem.failed r = false
  /\ Mem.offset (Mem.alloc r) = Mem.mem_offset m
  /\ Mem.memory_length m * 4 < Mem.offset (Mem.alloc r) + sz
  /\ Mem.mem_offset m' = Mem.mem_offset m + sz - 2^32
  /\ Mem.mem_offset m' < Mem.mem_offset m
  /\ Mem.mem_error m' = Mem.mem_error m.
Proof.
  intros Ho Hs Hwrap Hfit Hlen Hal r m'. subst r m'.
  unfold Mem.malloc, Mem.atomicAdd_mem_offset, Mem.new_alloc, Mem.memory_length in *.
  cbn [Mem.memory Mem.mem_offset Mem.mem_error].
  assert (Hu : u32 (Mem.mem_offset m + sz) = Mem.mem_offset m + sz - 2^32).
  { unfold u32. symmetry. apply (Z.mod_unique_pos _ _ 1); lia. }
  rewrite Hu, land3. rewrite u32_small by lia.
  destruct (Z.ltb_spec (Z.of_nat (length (Mem.memory m)) * 4)
              (Mem.mem_offset m + sz - 2 ^ 32)); [lia|].
  destruct dbg.
  - rewrite (Hal eq_refl). cbn. repeat split; lia.
  - cbn. repeat split; lia.
Qed.


Lemma mem_malloc_wraps_witness :
  Mem.failed (fst (Mem.malloc false 16 mem_example_high)) = false
  /\ Mem.offset (Mem.alloc (fst (Mem.malloc false 16 mem_example_high))) = 4294967288
  /\ Mem.mem_offset (snd (Mem.malloc false 16 mem_example_high)) = 8.
Proof.
  destruct (mem_malloc_wraps false 16 mem_example_high)
    as (Hok & Hoff & _ & Hadv & _).
  - simpl. lia.
  - lia.
  - simpl. lia.
  - unfold mem_example_high, Mem.memory_length. simpl. lia.
  - unfold mem_example_high, Mem.memory_length. simpl. lia.
  - discriminate.
  - split; [exact Hok|]. split; [exact Hoff | exact Hadv].
Defined.

(** ** Reading and writing through an allocation *)


Lemma touch_mem_debug (a : Mem.Alloc) (w : Z) (m : Mem.Memory) :
  0 <= Mem.offset a -> 0 <= Mem.size a -> Mem.offset a + Mem.size a < 2^32 ->
  (mem_inside a w /\ Mem.touch_mem true a w m = (true, m))
  \/ (~ mem_inside a w
      /\ Mem.touch_mem true a w m
         = (false, Mem.atomicMax_mem_error Mem.ERR_OUT_OF_BOUNDS m)).
Proof.
  intros Ho Hs Hsum. unfold Mem.touch_mem, mem_inside. rewrite u32_small by lia.
  cbn [andb].
  destruct (Z.ltb_spec w (Mem.offset a / 4)); cbn [orb]; [right; split; [lia | done]|].
  destruct (Z.leb_spec ((Mem.offset a + Mem.size a) / 4) w);
    [right; split; [lia | done] | left; split; [lia | done]].
Qed.

(** X16.  Under [MEM_DEBUG], reading and writing through an allocation that
    lies within memory is safe for every word offset: [write_mem] stores
    the value when the word belongs to the allocation and otherwise leaves
    memory as it is and raises [mem_error] to [ERR_OUT_OF_BOUNDS] at least;
    [read_mem] returns the word stored or, outside the allocation, 0 with
    the same error.  No access goes beyond the end of memory. *)
Theorem mem_debug_access (a : Mem.Alloc) (w val : Z) (m : Mem.Memory) :
  0 <= Mem.offset a ->
  0 <= Mem.size a ->
  Mem.offset a + Mem.size a <= Mem.memory_length m * 4 ->
  Mem.memory_length m * 4 < 2^32 ->
  0 <= w ->
  (exists m',
     Mem.write_mem true a w val m = Done m'
     /\ Mem.mem_offset m' = Mem.mem_offset m
     /\ (mem_inside a w ->
         Mem.memory m' = <[Z.to_nat w := val]> (Mem.memory m)
         /\ Mem.memory m' !! Z.to_nat w = Some val
         /\ Mem.mem_error m' = Mem.mem_error m)
     /\ (~ mem_inside a w ->
         Mem.memory m' = Mem.memory m
         /\ Mem.mem_error m' = Z.max (Mem.mem_error m) Mem.ERR_OUT_OF_BOUNDS))
  /\ (exists v m',
        Mem.read_mem true a w m = Done (v, m')
        /\ Mem.memory m' = Mem.memory m
        /\ (mem_inside a w -> Mem.memory m !! Z.to_nat w = Some v /\ m' = m)
        /\ (~ mem_inside a w ->
            v = 0
            /\ Mem.mem_error m' = Z.max (Mem.mem_error m) Mem.ERR_OUT_OF_BOUNDS)).
Proof.
  intros Ho Hs Hfit Hlen Hw.
  assert (Hin : mem_inside a w -> w < Mem.memory_length m).
  { unfold mem_inside. intros [_ Hlt].
    assert ((Mem.offset a + Mem.size a) / 4 <= Mem.memory_length m * 4 / 4)
      by (apply Z.div_le_mono; lia).
    rewrite Z.div_mul in H by lia. lia. }
  unfold Mem.write_mem, Mem.read_mem.
  destruct (touch_mem_debug a w m Ho Hs ltac:(lia)) as [[Hi ->]|[Hi ->]].
  - specialize (Hin Hi). cbn [negb]. split.
    + destruct (Z.ltb_spec w (Mem.memory_length m)); [|lia].
      eexists. split; [reflexivity|]. cbn [Mem.mem_offset Mem.memory Mem.mem_error].
      split; [done|]. split; [|tauto]. intros _. split; [done|]. split; [|done].
      apply list_lookup_insert_eq. unfold Mem.memory_length in *. lia.
    + destruct (lookup_lt_is_Some_2 (Mem.memory m) (Z.to_nat w)) as [v Hv].
      { unfold Mem.memory_length in *. lia. }
      rewrite Hv. exists v, m. split; [done|]. split; [done|]. split; [done | tauto].
  - cbn [negb]. split.
    + eexists. split; [reflexivity|]. cbn. split; [done|]. split; [tauto | done].
    + eexists _, _. split; [reflexivity|]. cbn. split; [done|]. split; [tauto | done].
Qed.

Lemma mem_debug_access_witness :
  exists m',
    Mem.write_mem true {| Mem.offset := 8; Mem.size := 16 |} 3 77 mem_example = Done m'
    /\ Mem.memory m' !! 3%nat = Some 77.
Proof.
  destruct (mem_debug_access {| Mem.offset := 8; Mem.size := 16 |} 3 77 mem_example)
    as [(m' & Hw & _ & Hin & _) _].
  - simpl. lia.
  - simpl. lia.
  - unfold mem_example, Mem.memory_length. simpl. lia.
  - unfold mem_example, Mem.memory_length. simpl. lia.
  - lia.
  - exists m'. split; [exact Hw|].
    apply Hin. unfold mem_inside. simpl. split; [|reflexivity]. discriminate.
Defined.

(** X17.  An [Alloc] written to memory by [alloc_write] is read back by
    [alloc_read] at the same byte offset, with and without [MEM_DEBUG]
    (under [MEM_DEBUG], provided the one or two words it takes belong to
    the allocation written through); reading changes nothing, and writing
    changes no other word of memory and no error. *)
Theorem mem_alloc_round_trip (dbg : bool) (a al : Mem.Alloc) (off : Z)
    (m m1 : Mem.Memory) :
  0 <= off < 2^32 ->
  0 <= Mem.offset a -> 0 <= Mem.size a -> Mem.offset a + Mem.size a < 2^32 ->
  (dbg = true -> mem_inside a (off / 4) /\ mem_inside a (off / 4 + 1)) ->
  (dbg = false -> Mem.size al = 0) ->
  Mem.alloc_write dbg a off al m = Done m1 ->
  Mem.alloc_read dbg a off m1 = Done (al, m1)
  /\ Mem.mem_error m1 = Mem.mem_error m
  /\ Mem.mem_offset m1 = Mem.mem_offset m
  /\ forall i : nat,
       Z.of_nat i <> off / 4 -> Z.of_nat i <> off / 4 + 1 ->
       Mem.memory m1 !! i = Mem.memory m !! i.
Proof.
  intros Hoff Ho Hs Hsum Hin Hsz.
  assert (Hq : 0 <= off / 4 < 2^30).
  { split; [apply Z.div_pos; lia|]. apply Z.div_lt_upper_bound; lia. }
  unfold Mem.alloc_write, Mem.alloc_read. rewrite !shiftr2.
  rewrite (u32_small (off / 4 + 1)) by lia.
  destruct dbg.
  - destruct (Hin eq_refl) as [H0 H1].
    unfold Mem.write_mem, Mem.read_mem.
    destruct (touch_mem_debug a (off / 4) m Ho Hs Hsum) as [[_ ->]|[Hc _]]; [|tauto].
    cbn [negb]. destruct (Z.ltb_spec (off / 4) (Mem.memory_length m)) as [Hl0|];
      [|done].
    cbn [bind].
    match goal with |- context [Mem.touch_mem true a (off / 4 + 1) ?x] =>
      set (m0 := x) end.
    destruct (touch_mem_debug a (off / 4 + 1) m0 Ho Hs Hsum) as [[_ ->]|[Hc _]];
      [|tauto].
    cbn [negb]. destruct (Z.ltb_spec (off / 4 + 1) (Mem.memory_length m0)) as [Hl1|];
      [|done].
    intros [= <-].
    match goal with |- context [Mem.touch_mem true a (off / 4) ?x] =>
      set (m1 := x) end.
    destruct (touch_mem_debug a (off / 4) m1 Ho Hs Hsum) as [[_ ->]|[Hc _]]; [|tauto].
    cbn [negb]. subst m1 m0. unfold Mem.memory_length in *.
    cbn [Mem.memory Mem.mem_error Mem.mem_offset] in *.
    rewrite length_insert in Hl1.
    rewrite list_lookup_insert_ne by lia.
    rewrite list_lookup_insert_eq by lia. cbn [bind].
    match goal with |- context [Mem.touch_mem true a (off / 4 + 1) ?x] =>
      set (m1 := x) end.
    destruct (touch_mem_debug a (off / 4 + 1) m1 Ho Hs Hsum) as [[_ ->]|[Hc _]];
      [|tauto].
    cbn [negb]. subst m1. cbn [Mem.memory].
    rewrite list_lookup_insert_eq by (rewrite length_insert; lia). cbn [bind].
    split; [by destruct al|]. split; [done|]. split; [done|].
    intros i Hi0 Hi1. rewrite !list_lookup_insert_ne by lia. done.
  - unfold Mem.write_mem, Mem.read_mem, Mem.touch_mem. cbn [andb negb].
    destruct (Z.ltb_spec (off / 4) (Mem.memory_length m)) as [Hl0|]; [|done].
    cbn [bind]. intros [= <-]. unfold Mem.memory_length in *.
    cbn [Mem.memory Mem.mem_error Mem.mem_offset].
    rewrite list_lookup_insert_eq by lia. cbn [bind].
    split.
    + destruct al as [o s]. cbn in *. by rewrite (Hsz eq_refl).
    + split; [done|]. split; [done|].
      intros i Hi0 _. by rewrite list_lookup_insert_ne by lia.
Qed.

Lemma mem_alloc_round_trip_witness :
  exists m1,
    Mem.alloc_write false {| Mem.offset := 0; Mem.size := 0 |} 12
      {| Mem.offset := 40; Mem.size := 0 |} mem_example = Done m1
    /\ Mem.alloc_read false {| Mem.offset := 0; Mem.size := 0 |} 12 m1
       = Done ({| Mem.offset := 40; Mem.size := 0 |}, m1).
Proof.
  destruct (Mem.alloc_write false {| Mem.offset := 0; Mem.size := 0 |} 12
              {| Mem.offset := 40; Mem.size := 0 |} mem_example) as [m1|f|] eqn:Hw;
    [|vm_compute in Hw; discriminate..].
  exists m1. split; [reflexivity|].
  destruct (mem_alloc_round_trip false {| Mem.offset := 0; Mem.size := 0 |}
              {| Mem.offset := 40; Mem.size := 0 |} 12 mem_example m1)
    as [Hr _]; try done; try (simpl; lia).
Defined.

(** ** Slices *)

(** X18.  Under [MEM_DEBUG], a slice gives access to nothing that the
    allocation it is taken from does not give access to, as long as
    [offset + size] does not pass 2^32: a slice with offset and size
    multiples of 4 that ends within the allocation is the part of it from
    [offset] on, of [size] bytes; any other is the empty allocation at 0,
    which admits no access at all. *)
Theorem mem_slice_within (a : Mem.Alloc) (off sz : Z) (m : Mem.Memory) :
  0 <= Mem.offset a -> 0 <= Mem.size a -> Mem.offset a + Mem.size a < 2^32 ->
  0 <= off -> 0 <= sz -> off + sz < 2^32 ->
  let s := fst (Mem.slice_mem true a off sz m) in
  (forall w, 0 <= w -> mem_inside s w -> mem_inside a w)
  /\ (forall w m', 0 <= w ->
        fst (Mem.touch_mem true s w m') = true ->
        fst (Mem.touch_mem true a w m') = true)
  /\ (off mod 4 = 0 /\ sz mod 4 = 0 /\ off + sz <= Mem.size a ->
      Mem.slice_mem true a off sz m
      = ({| Mem.offset := Mem.offset a + off; Mem.size := sz |}, m))
  /\ (~ (off mod 4 = 0 /\ sz mod 4 = 0 /\ off + sz <= Mem.size a) ->
      s = {| Mem.offset := 0; Mem.size := 0 |}).
Proof.
  intros Ho Hs Hsum Hoff Hsz Hno s.
  assert (Hcases :
    (off mod 4 = 0 /\ sz mod 4 = 0 /\ off + sz <= Mem.size a
     /\ Mem.slice_mem true a off sz m
        = ({| Mem.offset := Mem.offset a + off; Mem.size := sz |}, m))
    \/ (~ (off mod 4 = 0 /\ sz mod 4 = 0 /\ off + sz <= Mem.size a)
        /\ s = {| Mem.offset := 0; Mem.size := 0 |})).
  { subst s. unfold Mem.slice_mem. rewrite !land3. rewrite (u32_small (off + sz)) by lia.
    destruct (Z.eqb_spec (off mod 4) 0); cbn [negb orb]; [|right; split; [lia | done]].
    destruct (Z.eqb_spec (sz mod 4) 0); cbn [negb orb]; [|right; split; [lia | done]].
    destruct (Z.ltb_spec (Mem.size a) (off + sz)); [right; split; [lia | done]|].
    left. rewrite u32_small by lia. done. }
  assert (Hinside : forall w, 0 <= w -> mem_inside s w -> mem_inside a w).
  { intros w Hw. destruct Hcases as [(_ & _ & Hfit & Heq)|[_ Heq]].
    - subst s. rewrite Heq. unfold mem_inside. cbn [fst Mem.offset Mem.size].
      intros [Hlo Hhi].
      assert (Mem.offset a / 4 <= (Mem.offset a + off) / 4)
        by (apply Z.div_le_mono; lia).
      assert ((Mem.offset a + off + sz) / 4 <= (Mem.offset a + Mem.size a) / 4)
        by (apply Z.div_le_mono; lia).
      lia.
    - rewrite Heq. unfold mem_inside. cbn [Mem.offset Mem.size].
      change ((0 + 0) / 4) with 0. change (0 / 4) with 0. lia. }
  split; [exact Hinside|]. split.
  - intros w m' Hw Ht.
    assert (Hs' : mem_inside s w).
    { assert (Hs0 : 0 <= Mem.offset s /\ 0 <= Mem.size s
                    /\ Mem.offset s + Mem.size s < 2^32).
      { destruct Hcases as [(_ & _ & Hfit & Heq)|[_ Heq]].
        - subst s. rewrite Heq. cbn. lia.
        - rewrite Heq. cbn. lia. }
      destruct Hs0 as (H1 & H2 & H3).
      destruct (touch_mem_debug s w m' H1 H2 H3) as [[Hi _]|[_ Heq]]; [done|].
      rewrite Heq in Ht. discriminate. }
    destruct (touch_mem_debug a w m' Ho Hs Hsum) as [[_ ->]|[Hc _]]; [done|].
    exfalso. apply Hc. by apply Hinside.
  - split.
    + intros Hfit. destruct Hcases as [(_ & _ & _ & Heq)|[Hc _]]; [done | tauto].
    + intros Hnot. destruct Hcases as [(H1 & H2 & H3 & _)|[_ Heq]]; [tauto | done].
Qed.

Lemma mem_slice_within_witness :
  Mem.slice_mem true {| Mem.offset := 8; Mem.size := 32 |} 8 16 mem_example
  = ({| Mem.offset := 8 + 8; Mem.size := 16 |}, mem_example).
Proof.
  destruct (mem_slice_within {| Mem.offset := 8; Mem.size := 32 |} 8 16 mem_example)
    as (_ & _ & Heq & _); try (simpl; lia).
  apply Heq. simpl. split; [reflexivity|]. split; [reflexivity | lia].
Defined.

(** X19.  Slices compose: the slice at [o2] of the slice at [o1] of an
    allocation is its slice at [o1 + o2], with and without [MEM_DEBUG]
    (under [MEM_DEBUG], for offsets and sizes that are multiples of 4 and
    slices that end within what they are taken from). *)
Theorem mem_slice_slice (dbg : bool) (a : Mem.Alloc) (o1 s1 o2 s2 : Z)
    (m : Mem.Memory) :
  0 <= Mem.offset a -> 0 <= o1 -> 0 <= o2 ->
  Mem.offset a + o1 + o2 < 2^32 ->
  (dbg = true ->
   o1 mod 4 = 0 /\ s1 mod 4 = 0 /\ o2 mod 4 = 0 /\ s2 mod 4 = 0
   /\ 0 <= s1 /\ 0 <= s2
   /\ o1 + s1 <= Mem.size a /\ o2 + s2 <= s1 /\ o1 + s1 < 2^32) ->
  Mem.slice_mem dbg (fst (Mem.slice_mem dbg a o1 s1 m)) o2 s2 m
  = Mem.slice_mem dbg a (o1 + o2) s2 m.
Proof.
  intros Ho H1 H2 Hsum Hdbg. unfold Mem.slice_mem. destruct dbg.
  - destruct (Hdbg eq_refl) as (A1 & A2 & A3 & A4 & P1 & P2 & F1 & F2 & N1).
    rewrite !land3. rewrite A1, A2, A3, A4.
    assert (A5 : (o1 + o2) mod 4 = 0).
    { rewrite Z.add_mod by lia. by rewrite A1, A3. }
    rewrite A5. cbn [Z.eqb negb orb].
    rewrite (u32_small (o1 + s1)) by lia.
    destruct (Z.ltb_spec (Mem.size a) (o1 + s1)); [lia|].
    cbn [fst Mem.offset Mem.size].
    rewrite (u32_small (o2 + s2)) by lia.
    destruct (Z.ltb_spec s1 (o2 + s2)); [lia|].
    rewrite (u32_small (o1 + o2 + s2)) by lia.
    destruct (Z.ltb_spec (Mem.size a) (o1 + o2 + s2)); [lia|].
    rewrite (u32_small (Mem.offset a + o1)) by lia.
    rewrite !u32_small by lia. do 2 f_equal. lia.
  - cbn [fst Mem.offset]. do 2 f_equal. unfold u32.
    rewrite Zplus_mod_idemp_l. f_equal. lia.
Qed.

Lemma mem_slice_slice_witness :
  Mem.slice_mem false
    (fst (Mem.slice_mem false {| Mem.offset := 8; Mem.size := 0 |} 8 0 mem_example))
    4 0 mem_example
  = Mem.slice_mem false {| Mem.offset := 8; Mem.size := 0 |} (8 + 4) 0 mem_example.
Proof.
  apply (mem_slice_slice false {| Mem.offset := 8; Mem.size := 0 |} 8 0 4 0 mem_example);
    simpl; lia.
Defined.
